(** * Sequential search for bad science matrices

    A shallow embedding of the notebook [Sequential_Search.ipynb]: the
    helper functions [vectors], [fix_row_signs] and [candidate_rows], the
    objective [beta], and the exhaustive search loop over all
    [r]-combinations of candidate rows.

    ** The model

    - A tensor of rank 1 is a list, a tensor of rank 2 is the list of its
      rows.  The shapes in the notebook always agree, and shape errors of
      torch are not modelled.
    - The parameters [n] and [r] are natural numbers.
    - An exception raised by Python or torch is a value of [exn]; code that
      can raise returns a [result] and is sequenced by [bind].
    - The element type of the tensors is an interface, [Scalar].  The
      notebook is written once over it and is used at two instances:
      [float32], IEEE binary32 as specified by [SpecFloat] (precision 24,
      maximal exponent 128), which computes; and [xreal], the real numbers
      extended by the two infinities and NaN, the arithmetic that the IEEE
      operations round.  The statements about [candidate_rows] are proved
      at both instances for every [n]; where binary32 needs a bound on [n],
      the statement gives it.
    - torch does not fix the order in which [matmul], [sum] and [mean] add
      their terms; the model adds them from 0 in index order.  In exact
      arithmetic the order does not matter, and in binary32 the candidate
      rows do not depend on it, since sums of +1 and -1 are exact.
    - [torch.unique(dim=0)] sorts the rows lexicographically and merges
      equal neighbours.  The model sorts by insertion; rows that compare
      equal (in binary32: rows that differ in the sign of a zero) may come
      out of torch's sort in another order.
    - [torch.sign] is [(0 < x) - (x < 0)], which is 0 at NaN.
    - For [n = 0] torch raises [RuntimeError] in [torch.unique] (the tensor
      has two dimensions of size 0); the model raises it in [torch.stack].
    - The notebook is modelled up to the end of the search loop; the
      [print] statements after it are not. *)

From Stdlib Require Import List ZArith Bool Arith Lia Permutation Sorted FinFun.
From Stdlib Require Import SpecFloat.
From Stdlib Require Import Reals Lra.
Import ListNotations.

Set Implicit Arguments.

(** ** Exceptions *)

Inductive exn : Type :=
| IndexError     (* indexing out of range, or with a non-integer index tensor *)
| RuntimeError.  (* torch.stack / torch.unique on an empty list of rows *)

Inductive result (A : Type) : Type :=
| Ok (a : A)
| Raise (e : exn).

Arguments Ok {A} a.
Arguments Raise {A} e.

Definition bind {A B : Type} (m : result A) (k : A -> result B) : result B :=
  match m with
  | Ok a => k a
  | Raise e => Raise e
  end.

Declare Scope result_scope.
Delimit Scope result_scope with result.
Notation "x <- m ;; k" := (bind m (fun x => k))
  (at level 61, m at next level, right associativity) : result_scope.
Local Open Scope result_scope.

(** Monadic left fold: a [for] loop whose body may raise. *)
Fixpoint foldM {A S : Type} (body : S -> A -> result S) (l : list A) (s : S)
  : result S :=
  match l with
  | [] => Ok s
  | x :: t => s' <- body s x ;; foldM body t s'
  end.

(** Monadic map: a list built by a loop whose body may raise. *)
Fixpoint mapM {A B : Type} (f : A -> result B) (l : list A) : result (list B) :=
  match l with
  | [] => Ok []
  | x :: t => y <- f x ;; ys <- mapM f t ;; Ok (y :: ys)
  end.

(** ** The element type of a tensor *)

Class Scalar (T : Type) : Type := {
  of_int : Z -> T;          (* conversion of a Python int *)
  add : T -> T -> T;
  mul : T -> T -> T;
  div : T -> T -> T;
  neg : T -> T;
  sqrt : T -> T;
  abs : T -> T;
  sign : T -> T;            (* torch.sign: (0 < x) - (x < 0) *)
  isnan : T -> bool;
  ltb : T -> T -> bool;     (* x < y, false on NaN *)
  eqb : T -> T -> bool      (* x == y, false on NaN *)
}.

(** ** Library operations on lists and tensors *)

Section Lists.
Context {A : Type}.

(** [itertools.product(alphabet, repeat=n)], in its enumeration order:
    the first coordinate varies slowest. *)
Fixpoint product (alphabet : list A) (n : nat) : list (list A) :=
  match n with
  | 0 => [[]]
  | S k => flat_map (fun a => map (cons a) (product alphabet k)) alphabet
  end.

(** [itertools.combinations(l, r)], in its enumeration order. *)
Fixpoint combinations (l : list A) (r : nat) : list (list A) :=
  match r with
  | 0 => [[]]
  | S r' =>
      match l with
      | [] => []
      | x :: t => map (cons x) (combinations t r') ++ combinations t r
      end
  end.

(** Elementwise combination of two rows (broadcast over equal shapes). *)
Fixpoint map2 {B C : Type} (f : A -> B -> C) (a : list A) (b : list B) : list C :=
  match a, b with
  | x :: a', y :: b' => f x y :: map2 f a' b'
  | _, _ => []
  end.

(** Column [j] of a list of rows, and [M.T]. *)
Definition column (d : A) (M : list (list A)) (j : nat) : list A :=
  map (fun row => nth j row d) M.

Definition transpose (d : A) (M : list (list A)) : list (list A) :=
  match M with
  | [] => []
  | row :: _ => map (column d M) (seq 0 (length row))
  end.

(** Position of the first element satisfying [p]. *)
Fixpoint find_index (p : A -> bool) (l : list A) : option nat :=
  match l with
  | [] => None
  | x :: t => if p x then Some 0 else option_map S (find_index p t)
  end.
End Lists.

(** ** The notebook, over an arbitrary element type *)

Section Program.
Context {T : Type} `{Sc : Scalar T}.

Definition zero : T := of_int 0.

Definition gtb (x y : T) : bool := ltb y x.
Definition neb (x y : T) : bool := negb (eqb x y).

(** The binary step of [torch.max] along a dimension: NaN propagates. *)
Definition maximum (x y : T) : T :=
  if isnan x then x else if isnan y then y else if ltb x y then y else x.

(** [torch.sum] of a vector, accumulated from 0 in index order. *)
Definition sum (v : list T) : T := fold_left add v zero.

(** [torch.mean] of a vector. *)
Definition mean (v : list T) : T := div (sum v) (of_int (Z.of_nat (length v))).

(** One row of [torch.matmul(a, B)]: entry [j] is the sum over [l] of
    [a[l] * B[l][j]], accumulated from 0 in index order. *)
Definition vecmat (a : list T) (B : list (list T)) : list T :=
  fold_left (fun acc p => map2 (fun s b => add s (mul (fst p) b)) acc (snd p))
            (combine a B) (repeat zero (length (hd [] B))).

Definition matmul (A B : list (list T)) : list (list T) :=
  map (fun a => vecmat a B) A.

(** [torch.norm(row)]: the Euclidean norm. *)
Definition norm (row : list T) : T := sqrt (sum (map (fun x => mul x x) row)).

(** Rows [a < b] and [a == b] as [torch.unique(dim=0)] compares them. *)
Fixpoint row_ltb (a b : list T) : bool :=
  match a, b with
  | x :: a', y :: b' =>
      if ltb x y then true else if ltb y x then false else row_ltb a' b'
  | _, _ => false
  end.

Fixpoint row_eqb (a b : list T) : bool :=
  match a, b with
  | [], [] => true
  | x :: a', y :: b' => eqb x y && row_eqb a' b'
  | _, _ => false
  end.

Fixpoint insert_row (r : list T) (l : list (list T)) : list (list T) :=
  match l with
  | [] => [r]
  | h :: t => if row_ltb h r then h :: insert_row r t else r :: h :: t
  end.

Definition sort_rows (l : list (list T)) : list (list T) :=
  fold_right insert_row [] l.

(** Keep each row that differs from its predecessor. *)
Fixpoint unique_from (prev : list T) (l : list (list T)) : list (list T) :=
  match l with
  | [] => []
  | x :: t => if row_eqb prev x then unique_from x t else x :: unique_from x t
  end.

Definition unique_consecutive (l : list (list T)) : list (list T) :=
  match l with
  | [] => []
  | x :: t => x :: unique_from x t
  end.

(** [torch.unique(tensor, dim=0)]: rows sorted lexicographically,
    consecutive equal rows merged. *)
Definition unique (l : list (list T)) : list (list T) :=
  unique_consecutive (sort_rows l).

(** [vectors(n, binary)] *)
Definition vectors (n : nat) (binary : bool) : list (list T) :=
  if binary
  then transpose zero (map (map of_int) (product [0; 1]%Z n))
  else transpose zero (map (map of_int) (product [-1; 1]%Z n)).

(** The body of the loop of [fix_row_signs]. *)
Definition fix_row_sign (row : list T) : result (list T) :=
  match find_index (fun x => neb x zero) row with
  | None => Raise IndexError
  | Some first_non_zero_index =>
      let sgn := sign (nth first_non_zero_index row zero) in
      Ok (map (fun x => mul x sgn) row)
  end.

(** [torch.stack] refuses an empty list. *)
Definition stack (l : list (list T)) : result (list (list T)) :=
  match l with
  | [] => Raise RuntimeError
  | _ => Ok l
  end.

Definition fix_row_signs (tensor : list (list T)) : result (list (list T)) :=
  normalized_tensor <- mapM fix_row_sign tensor ;;
  normalized_tensor <- stack normalized_tensor ;;
  Ok (unique normalized_tensor).

(** [candidate_rows(n)], one definition per local variable. *)
Definition binary_choices (n : nat) : list (list T) :=
  transpose zero (vectors (2 ^ n) true).

Definition raw_rows (n : nat) : list (list T) :=
  matmul (binary_choices n) (transpose zero (vectors n false)).

Definition normalized_rows_with_nans (n : nat) : list (list T) :=
  let rows := raw_rows n in
  let row_norms := map norm rows in
  map2 (fun row nrm => map (fun x => div x nrm) row) rows row_norms.

Definition normalized_rows (n : nat) : list (list T) :=
  filter (fun row => negb (forallb isnan row)) (normalized_rows_with_nans n).

Definition unique_normalized_rows (n : nat) : list (list T) :=
  unique (normalized_rows n).

Definition candidate_rows (n : nat) : result (list (list T)) :=
  fix_row_signs (unique_normalized_rows n).

(** [vectors(n)[:, :2**(n-1)]] *)
Definition binary_vectors (n : nat) : list (list T) :=
  map (firstn (2 ^ (n - 1))) (vectors n false).

(** [torch.max(B, dim=0).values] *)
Definition max_dim0 (B : list (list T)) : result (list T) :=
  match B with
  | [] => Raise IndexError
  | row :: rest => Ok (fold_left (map2 maximum) rest row)
  end.

Definition beta (A bv : list (list T)) : result T :=
  let B := matmul A bv in
  m <- max_dim0 (map (map abs) B) ;;
  Ok (mean m).

(** [rows[torch.tensor(combination)]]: an empty tuple makes a float
    tensor, which is refused as an index. *)
Definition index_rows (rows : list (list T)) (combination : list nat)
  : result (list (list T)) :=
  match combination with
  | [] => Raise IndexError
  | _ => mapM (fun i => match nth_error rows i with
                        | Some row => Ok row
                        | None => Raise IndexError
                        end) combination
  end.

(** [_run(combination, rows)]; the global [binary_vectors] is a parameter. *)
Definition _run (bv : list (list T)) (combination : list nat) (rows : list (list T))
  : result (T * list (list T)) :=
  A <- index_rows rows combination ;;
  value_A <- beta A bv ;;
  Ok (value_A, A).

(** The state of the search loop: [beta_max] and [best_A]. *)
Record SearchState : Type := {
  beta_max : T;
  best_A : option (list (list T))
}.

(** [beta_max = 0] and [best_A = None] *)
Definition initial_state : SearchState :=
  {| beta_max := zero; best_A := None |}.

(** [torch.tensor(range(rows.shape[0]))] *)
Definition elements (rows : list (list T)) : list nat := seq 0 (length rows).

Definition generate_combinations (elements : list nat) (r : nat) : list (list nat) :=
  combinations elements r.

(** The body of the [for] loop. *)
Definition search_step (rows bv : list (list T)) (st : SearchState)
           (combination : list nat) : result SearchState :=
  A <- index_rows rows combination ;;
  beta_candidate <- beta A bv ;;
  if gtb beta_candidate (beta_max st)
  then Ok {| beta_max := beta_candidate; best_A := Some A |}
  else Ok st.

(** The [for] loop over the generator, from the initial state. *)
Definition search (rows bv : list (list T)) (r : nat) : result SearchState :=
  foldM (search_step rows bv) (generate_combinations (elements rows) r)
        initial_state.

(** The notebook from the parameter cell to the end of the loop, as a
    function of the parameters [n] and [r]. *)
Definition notebook (n r : nat) : result SearchState :=
  rows <- candidate_rows n ;;
  search rows (binary_vectors n) r.
End Program.

(** ** IEEE binary32 *)

Module Float32.
Definition prec : Z := 24.
Definition emax : Z := 128.

Definition of_Z (z : Z) : spec_float := binary_normalize prec emax z 0 false.

Definition sgn (x : spec_float) : spec_float :=
  match SFcompare (S754_zero false) x with
  | Some Lt => of_Z 1
  | Some Gt => of_Z (-1)
  | _ => S754_zero false
  end.

Definition is_nan (x : spec_float) : bool :=
  match x with
  | S754_nan => true
  | _ => false
  end.
End Float32.

#[export] Instance float32 : Scalar spec_float := {
  of_int := Float32.of_Z;
  add := SFadd Float32.prec Float32.emax;
  mul := SFmul Float32.prec Float32.emax;
  div := SFdiv Float32.prec Float32.emax;
  neg := SFopp;
  sqrt := SFsqrt Float32.prec Float32.emax;
  abs := SFabs;
  sign := Float32.sgn;
  isnan := Float32.is_nan;
  ltb := SFltb;
  eqb := SFeqb
}.


(** ** Extended reals *)

Module XReal.
Inductive xreal : Type :=
| NaN
| Inf (negative : bool)
| Fin (x : R).

Definition Rltb (x y : R) : bool := if Rlt_dec x y then true else false.
Definition Reqb (x y : R) : bool := if Req_dec_T x y then true else false.

Definition xadd (x y : xreal) : xreal :=
  match x, y with
  | NaN, _ | _, NaN => NaN
  | Inf s, Inf s' => if Bool.eqb s s' then Inf s else NaN
  | Inf s, Fin _ | Fin _, Inf s => Inf s
  | Fin a, Fin b => Fin (a + b)
  end.

Definition xmul (x y : xreal) : xreal :=
  match x, y with
  | NaN, _ | _, NaN => NaN
  | Inf s, Inf s' => Inf (xorb s s')
  | Inf s, Fin b | Fin b, Inf s =>
      if Reqb b 0 then NaN else Inf (xorb s (Rltb b 0))
  | Fin a, Fin b => Fin (a * b)
  end.

Definition xdiv (x y : xreal) : xreal :=
  match x, y with
  | NaN, _ | _, NaN => NaN
  | Inf _, Inf _ => NaN
  | Inf s, Fin b => Inf (xorb s (Rltb b 0))
  | Fin _, Inf _ => Fin 0
  | Fin a, Fin b =>
      if Reqb b 0
      then (if Reqb a 0 then NaN else Inf (Rltb a 0))
      else Fin (a / b)
  end.

Definition xneg (x : xreal) : xreal :=
  match x with
  | NaN => NaN
  | Inf s => Inf (negb s)
  | Fin a => Fin (- a)
  end.

Definition xsqrt (x : xreal) : xreal :=
  match x with
  | NaN => NaN
  | Inf s => if s then NaN else Inf false
  | Fin a => if Rltb a 0 then NaN else Fin (R_sqrt.sqrt a)
  end.

Definition xabs (x : xreal) : xreal :=
  match x with
  | NaN => NaN
  | Inf _ => Inf false
  | Fin a => Fin (Rabs a)
  end.

Definition xsign (x : xreal) : xreal :=
  match x with
  | NaN => Fin 0
  | Inf s => if s then Fin (-1) else Fin 1
  | Fin a => if Rltb 0 a then Fin 1 else if Rltb a 0 then Fin (-1) else Fin 0
  end.

Definition xisnan (x : xreal) : bool :=
  match x with
  | NaN => true
  | _ => false
  end.

Definition xltb (x y : xreal) : bool :=
  match x, y with
  | NaN, _ | _, NaN => false
  | Inf s, Inf s' => s && negb s'
  | Inf s, Fin _ => s
  | Fin _, Inf s => negb s
  | Fin a, Fin b => Rltb a b
  end.

Definition xeqb (x y : xreal) : bool :=
  match x, y with
  | Inf s, Inf s' => Bool.eqb s s'
  | Fin a, Fin b => Reqb a b
  | _, _ => false
  end.
End XReal.

Import XReal.

#[export] Instance xreal_scalar : Scalar xreal := {
  of_int := fun z => Fin (IZR z);
  add := xadd;
  mul := xmul;
  div := xdiv;
  neg := xneg;
  sqrt := xsqrt;
  abs := xabs;
  sign := xsign;
  isnan := xisnan;
  ltb := xltb;
  eqb := xeqb
}.

(** * Vocabulary of the statements *)

(** ** Shapes, counts and orders *)

(** A tensor with [c] columns. *)
Definition rect {A : Type} (c : nat) (M : list (list A)) : Prop :=
  Forall (fun row => length row = c) M.

(** The binomial coefficient, by Pascal's rule. *)
Fixpoint binom (n k : nat) : nat :=
  match k with
  | 0 => 1
  | S k' =>
      match n with
      | 0 => 0
      | S n' => binom n' k' + binom n' k
      end
  end.

(** Python's order on tuples of indices. *)
Inductive lex_lt : list nat -> list nat -> Prop :=
| lex_lt_nil : forall y b, lex_lt [] (y :: b)
| lex_lt_head : forall x y a b, x < y -> lex_lt (x :: a) (y :: b)
| lex_lt_tail : forall x a b, lex_lt a b -> lex_lt (x :: a) (x :: b).

(** The matrix induced by a tuple of row indices. *)
Definition select {T : Type} (rows : list (list T)) (combination : list nat)
  : list (list T) :=
  map (fun i => nth i rows []) combination.

(** The sign vectors of length [n] in the order of [itertools.product],
    and the first half of that enumeration. *)
Definition sign_vectors (n : nat) : list (list Z) := product [-1; 1]%Z n.

Definition half_set (n : nat) : list (list Z) :=
  firstn (2 ^ (n - 1)) (sign_vectors n).

(** ** Properties of rows *)

(** Properties of rows and of sets of rows, at any element type. *)
Section RowProperties.
Context {T : Type} `{Sc : Scalar T}.

(** No entry of the row is NaN. *)
Definition nan_free (row : list T) : Prop :=
  Forall (fun x => isnan x = false) row.

(** The first non-zero coordinate exists and is positive. *)
Definition sign_canonical (row : list T) : Prop :=
  exists k, find_index (fun x => neb x zero) row = Some k /\
            gtb (nth k row zero) zero = true.

(** No two rows at different positions are equal, or equal up to sign. *)
Definition distinct_up_to_sign (rows : list (list T)) : Prop :=
  forall i j, i < length rows -> j < length rows -> i <> j ->
    row_eqb (nth i rows []) (nth j rows []) = false /\
    row_eqb (nth i rows []) (map neg (nth j rows [])) = false.

(** [row / norm(row)], the broadcast division of [candidate_rows]. *)
Definition normalize (row : list T) : list T :=
  map (fun x => div x (norm row)) row.

(** Decision procedures for the properties above. *)
Definition nan_freeb (row : list T) : bool :=
  forallb (fun x => negb (isnan x)) row.

Definition sign_canonicalb (row : list T) : bool :=
  match find_index (fun x => neb x zero) row with
  | Some k => gtb (nth k row zero) zero
  | None => false
  end.

Definition distinct_up_to_signb (rows : list (list T)) : bool :=
  forallb (fun i =>
    forallb (fun j =>
      (i =? j) ||
      (negb (row_eqb (nth i rows []) (nth j rows [])) &&
       negb (row_eqb (nth i rows []) (map neg (nth j rows [])))))
      (seq 0 (length rows)))
    (seq 0 (length rows)).
End RowProperties.

(** ** Statements about [candidate_rows] *)

(** The statements about [candidate_rows n], at any element type. *)
Section CandidateRowsStatements.
Context {T : Type} `{Sc : Scalar T}.

(** A raw row that is zero becomes all NaN and does not pass the filter;
    what passes the filter, and what is returned, has no NaN. *)
Definition zero_rows_filtered (n : nat) : Prop :=
  (forall row, In row (raw_rows n) ->
     Forall (fun x => eqb x zero = true) row ->
     Forall (fun x => isnan x = true) (normalize row) /\
     ~ In (normalize row) (normalized_rows n)) /\
  (forall row, In row (normalized_rows n) -> nan_free row) /\
  (forall rows, candidate_rows n = Ok rows -> Forall nan_free rows).

(** Every row handed to [fix_row_signs] has a non-zero coordinate, the loop
    body succeeds on it, and [candidate_rows n] returns. *)
Definition fix_row_signs_safe (n : nat) : Prop :=
  (forall row, In row (unique_normalized_rows n) ->
     (exists x, In x row /\ neb x zero = true) /\
     (exists row', fix_row_sign row = Ok row')) /\
  (exists rows, candidate_rows n = Ok rows).

(** The returned rows are pairwise distinct, also up to sign, and each is
    in sign-canonical form. *)
Definition canonical_result (n : nat) : Prop :=
  forall rows, candidate_rows n = Ok rows ->
    distinct_up_to_sign rows /\ Forall sign_canonical rows.

Definition zero_rows_filteredb (n : nat) : bool :=
  forallb (fun row => implb (forallb (fun x => eqb x zero) row)
                            (forallb isnan (normalize row))) (raw_rows n) &&
  forallb nan_freeb (normalized_rows n) &&
  match candidate_rows n with
  | Ok rows => forallb nan_freeb rows
  | Raise _ => true
  end.

Definition fix_row_signs_safeb (n : nat) : bool :=
  forallb (fun row => existsb (fun x => neb x zero) row &&
                      match fix_row_sign row with
                      | Ok _ => true
                      | Raise _ => false
                      end) (unique_normalized_rows n) &&
  match candidate_rows n with
  | Ok _ => true
  | Raise _ => false
  end.

Definition canonical_resultb (n : nat) : bool :=
  match candidate_rows n with
  | Ok rows => distinct_up_to_signb rows && forallb sign_canonicalb rows
  | Raise _ => true
  end.
End CandidateRowsStatements.


(** ** Statements about [beta] and the search *)


(** [beta] takes the same value on a matrix, on any reordering of its rows,
    and on the matrix with one row negated. *)
Definition beta_invariant {T : Type} `{Sc : Scalar T} : Prop :=
  (forall A A' bv : list (list T),
     Permutation A A' -> beta A' bv = beta A bv) /\
  (forall (A1 A2 : list (list T)) (a : list T) (bv : list (list T)),
     beta (A1 ++ map neg a :: A2) bv = beta (A1 ++ a :: A2) bv).

(** [(n, r)] is outside the domain of the search. *)
Definition invalid_input {T : Type} `{Sc : Scalar T} (n r : nat) : Prop :=
  n < 1 \/ r < 1 \/
  exists rows : list (list T), candidate_rows n = Ok rows /\ length rows < r.

(** The objective of a combination, 0 where [beta] raises. *)
Definition score {T : Type} `{Sc : Scalar T} (rows bv : list (list T))
           (comb : list nat) : T :=
  match beta (select rows comb) bv with
  | Ok b => b
  | Raise _ => zero
  end.

(** The loop body succeeds on [comb]: the rows are selected and the
    objective is computed, satisfies [P] and is not NaN. *)
Definition scored {T : Type} `{Sc : Scalar T} (P : T -> Prop)
           (rows bv : list (list T)) (comb : list nat) : Prop :=
  index_rows rows comb = Ok (select rows comb) /\
  beta (select rows comb) bv = Ok (score rows bv comb) /\
  P (score rows bv comb) /\ isnan (score rows bv comb) = false.

(** The outcome of the search loop that claim C1 describes: the state holds
    the objective [b] and the matrix of a combination [comb] such that no
    combination has a larger objective (none is NaN), and every combination
    with an objective equal to [b] is [comb] itself or comes after it in
    lexicographic order. *)
Definition returns_first_maximizer {T : Type} `{Sc : Scalar T}
           (rows bv : list (list T)) (r : nat) : Prop :=
  exists (comb : list nat) (b : T),
    In comb (generate_combinations (elements rows) r) /\
    index_rows rows comb = Ok (select rows comb) /\
    beta (select rows comb) bv = Ok b /\
    search rows bv r =
    Ok {| beta_max := b; best_A := Some (select rows comb) |} /\
    forall comb', In comb' (generate_combinations (elements rows) r) ->
      exists b',
        index_rows rows comb' = Ok (select rows comb') /\
        beta (select rows comb') bv = Ok b' /\
        isnan b' = false /\
        ltb b b' = false /\
        (eqb b' b = true -> comb' = comb \/ lex_lt comb comb').

(** ** The notebook over the reals *)

(** Real-valued counterparts of the tensor operations, for tensors all of
    whose entries are finite. *)
Definition sumR (v : list R) : R := fold_left Rplus v 0%R.

Definition sumsq (v : list R) : R := sumR (map (fun x => x * x)%R v).

Definition dotR (a b : list R) : R := sumR (map2 Rmult a b).

Definition vecmatR (a : list R) (B : list (list R)) : list R :=
  fold_left (fun acc p => map2 (fun s b => s + fst p * b)%R acc (snd p))
            (combine a B) (repeat 0%R (length (hd [] B))).

Definition sgnR (x : R) : R :=
  if Rltb 0 x then 1%R else if Rltb x 0 then (-1)%R else 0%R.

(** Lexicographic order on real rows. *)
Fixpoint lexR (a b : list R) : Prop :=
  match a, b with
  | x :: a', y :: b' => (x < y)%R \/ (x = y /\ lexR a' b')
  | _, _ => False
  end.

(** [a <= b] in that order. *)
Definition leR (a b : list R) : Prop := ~ lexR b a.

(** The stages of [candidate_rows] over the reals: the integer sums, and
    the unit vectors of the non-zero ones. *)
Definition raw_rowsR (n : nat) : list (list R) :=
  map (fun s => vecmatR (map IZR s) (map (map IZR) (product [-1; 1]%Z n)))
      (product [0; 1]%Z (2 ^ n)).

Definition unitR (v : list R) : list R :=
  map (fun x => x / R_sqrt.sqrt (sumsq v))%R v.

Definition normalized_rowsR (n : nat) : list (list R) :=
  map unitR (filter (fun v => negb (Reqb (sumsq v) 0)) (raw_rowsR n)).

(** [fix_row_sign] on a real row. *)
Definition nzR (x : R) : bool := negb (Reqb x 0).

Definition fix_rowR (v : list R) : list R :=
  match find_index nzR v with
  | Some i => map (fun x => x * sgnR (nth i v 0))%R v
  | None => v
  end.

(** The first non-zero coordinate of [v] exists and is positive. *)
Definition canonR (v : list R) : Prop :=
  exists i, find_index nzR v = Some i /\ (0 < nth i v 0)%R.

(** [beta] over the reals, for a matrix with at least one row. *)
Definition max_dim0R (B : list (list R)) : list R :=
  match B with
  | [] => []
  | row :: rest => fold_left (map2 Rmax) rest row
  end.

Definition meanR (v : list R) : R := (sumR v / IZR (Z.of_nat (length v)))%R.

Definition betaR (A bv : list (list R)) : R :=
  meanR (max_dim0R (map (map Rabs) (map (fun a => vecmatR a bv) A))).

Definition binary_vectorsR (n : nat) : list (list R) :=
  map (firstn (2 ^ (n - 1)))
      (transpose 0%R (map (map IZR) (product [-1; 1]%Z n))).

(** ** Values and relations of each arithmetic *)

(** A row all of whose entries satisfy [P]. *)
Definition rowP {T : Type} (P : T -> Prop) (row : list T) : Prop := Forall P row.

(** The partial sums of the dot products of a row and of its negation: they
    are opposite; in binary32 they may also both be zeros of any sign. *)
Definition xreal_opp_rel (x y : xreal) : Prop := y = xneg x.

Definition is_zero32 (x : spec_float) : bool :=
  match x with
  | S754_zero _ => true
  | _ => false
  end.

Definition float32_opp_rel (x y : spec_float) : Prop :=
  y = SFopp x \/ (is_zero32 x = true /\ is_zero32 y = true).

(** A binary32 value with its sign bit clear, as [abs] returns it. *)
Definition float32_abs_value (x : spec_float) : Prop := x = SFabs x.

(** Decision procedure for the premises of the loop invariant in binary32:
    every objective is computed, is not NaN and has its sign bit clear, and
    one of them is positive. *)
Definition float32_abs_valueb (x : spec_float) : bool :=
  match x with
  | S754_zero s | S754_infinity s | S754_finite s _ _ => negb s
  | S754_nan => true
  end.

Definition float32_scores_ok (rows bv : list (list spec_float)) (r : nat) : bool :=
  let cs := generate_combinations (elements rows) r in
  forallb (fun comb =>
             match beta (select rows comb) bv with
             | Ok b => float32_abs_valueb b && negb (Float32.is_nan b)
             | Raise _ => false
             end) cs &&
  existsb (fun comb => SFltb (S754_zero false) (score rows bv comb)) cs.

(** * Vocabulary of the further properties *)

(** Shapes that [torch.matmul(A, bv)] accepts: [A] is r x n and [bv] is
    n x c, with n >= 1. *)
Definition compatible {T : Type} (n c : nat) (A bv : list (list T)) : Prop :=
  1 <= n /\ rect n A /\ length bv = n /\ rect c bv.

(** What the search loop guarantees on any rows: it returns a state; no
    enumerated combination has an objective above the final maximum; and
    the state is the initial one, or it holds the matrix of an enumerated
    combination with the objective of that matrix, which is positive and
    not NaN. *)
Definition search_outcome {T : Type} `{Sc : Scalar T}
           (rows bv : list (list T)) (r : nat) : Prop :=
  exists st,
    search rows bv r = Ok st /\
    (forall comb, In comb (generate_combinations (elements rows) r) ->
       exists b, beta (select rows comb) bv = Ok b /\
                 ltb (beta_max st) b = false) /\
    (st = initial_state \/
     exists comb,
       In comb (generate_combinations (elements rows) r) /\
       best_A st = Some (select rows comb) /\
       beta (select rows comb) bv = Ok (beta_max st) /\
       gtb (beta_max st) zero = true /\
       isnan (beta_max st) = false).

(** The largest value of [f] over the rows of a matrix, accumulated as
    [torch.max] does; the largest absolute dot product of a row of [A] with
    the vector [v]; and the entry of [max(abs(A @ bv), dim=0)] in column
    [j], over the reals. *)
Definition rowsmaxR (f : list R -> R) (A : list (list R)) : R :=
  match A with
  | [] => 0%R
  | a :: rest => fold_left Rmax (map f rest) (f a)
  end.

Definition vecmaxR (A : list (list R)) (v : list R) : R :=
  rowsmaxR (fun a => Rabs (dotR a v)) A.

Definition colmaxR (A bv : list (list R)) (j : nat) : R :=
  vecmaxR A (column 0%R bv j).

(** The rows that a 0/1 selector chooses from a list, the sum of a list of
    integer vectors of length [n], and the sum of the sign vectors that the
    selector [s] chooses: the raw row of [candidate_rows] for [s]. *)
Definition chosen {A : Type} (s : list Z) (vs : list A) : list A :=
  map snd (filter (fun p => Z.eqb (fst p) 1) (combine s vs)).

Definition vector_sum (n : nat) (vs : list (list Z)) : list Z :=
  fold_left (map2 Z.add) vs (repeat 0%Z n).

Definition subset_sum (n : nat) (s : list Z) : list Z :=
  vector_sum n (chosen s (sign_vectors n)).

(** The result of [fix_row_signs] on a tensor of finite rows [L]: it is
    sorted as [torch.unique] sorts, in sign-canonical form and without
    duplicates up to sign; each of its rows is a row of [L] or the negation
    of one; and of each row of [L], the row or its negation is in it, and
    not both. *)
Definition one_of_each_sign_pair (L C : list (list R)) : Prop :=
  StronglySorted (fun a b => row_ltb a b = true) (map (map Fin) C) /\
  Forall sign_canonical (map (map Fin) C) /\
  distinct_up_to_sign (map (map Fin) C) /\
  (forall w, In w C -> exists v, In v L /\ (w = v \/ w = map Ropp v)) /\
  (forall v, In v L ->
     (In v C \/ In (map Ropp v) C) /\ ~ (In v C /\ In (map Ropp v) C)).

(** A matrix with a NaN entry has a NaN objective. *)
Definition nan_objective {T : Type} `{Sc : Scalar T} (n c : nat) : Prop :=
  forall A bv : list (list T),
    compatible n c A bv ->
    Exists (Exists (fun x => isnan x = true)) A ->
    exists b, beta A bv = Ok b /\ isnan b = true.

(** The matrix [A] with the rows marked in [signs] negated. *)
Definition negate_rows {T : Type} `{Sc : Scalar T} (signs : list bool)
           (A : list (list T)) : list (list T) :=
  map2 (fun (s : bool) a => if s then map neg a else a) signs A.

(** The final maximum of the search bounds the objective of the matrix of
    any [r] different rows, taken in any order and with any of them
    negated. *)
Definition bounds_every_choice {T : Type} `{Sc : Scalar T}
           (rows bv : list (list T)) (r : nat) : Prop :=
  forall (idx : list nat) (signs : list bool),
    NoDup idx -> length idx = r -> length signs = r ->
    Forall (fun i => i < length rows) idx ->
    exists st b,
      search rows bv r = Ok st /\
      beta (negate_rows signs (select rows idx)) bv = Ok b /\
      ltb (beta_max st) b = false.

(** The unit vector of the sum that the selector [s] chooses; [r]
    selectors of the 2^n sign vectors with non-zero sums whose unit vectors
    are pairwise different, also up to sign; and the matrix of their unit
    vectors. *)
Definition candidate_of (n : nat) (s : list Z) : list R :=
  unitR (map IZR (subset_sum n s)).

Definition admissible (n r : nat) (ss : list (list Z)) : Prop :=
  length ss = r /\
  Forall (fun s => In s (product [0; 1]%Z (2 ^ n)) /\
                   Exists (fun z => z <> 0%Z) (subset_sum n s)) ss /\
  ForallOrdPairs (fun s s' => candidate_of n s <> candidate_of n s' /\
                              candidate_of n s <> map Ropp (candidate_of n s')) ss.

Definition matrix_of (n : nat) (ss : list (list Z)) : list (list xreal) :=
  map (fun s => map Fin (candidate_of n s)) ss.

(** The notebook returns the largest objective over all such matrices:
    its [beta_max] bounds the objective of every one of them, and is the
    objective of one of them if there is any. *)
Definition notebook_optimal (n r : nat) : Prop :=
  exists st m,
    notebook (Sc := xreal_scalar) n r = Ok st /\
    beta_max st = Fin m /\
    (forall ss, admissible n r ss ->
       exists b, beta (matrix_of n ss) (binary_vectors n) = Ok (Fin b) /\
                 (b <= m)%R) /\
    ((exists ss, admissible n r ss) ->
     exists ss, admissible n r ss /\
                beta (matrix_of n ss) (binary_vectors n) = Ok (Fin m)).
(** ** Normal numbers of binary32 *)

(** A normal binary32 number of sign [s]: a mantissa of 24 digits and an
    exponent between [lo] and [hi]. *)
Definition normal32 (s : bool) (lo hi : Z) (x : spec_float) : Prop :=
  exists m e, x = S754_finite s m e /\
              Zpos (digits2_pos m) = 24%Z /\ (lo <= e <= hi)%Z.

(** An integer between -2^24 and 2^24, where the sums of +1 and -1 of
    binary32 stop. *)
Definition clamp24 (z : Z) : Z := Z.max (- 2 ^ 24) (Z.min (2 ^ 24) z).

(** [vecmat] on integers with the addition of binary32: sums of +1 and -1
    are exact up to 2^24 in absolute value, and stop there. *)
Definition vecmat_int (a : list Z) (B : list (list Z)) : list Z :=
  fold_left (fun acc p => map2 (fun s b => clamp24 (s + fst p * b)%Z) acc (snd p))
            (combine a B) (repeat 0%Z (length (hd [] B))).

(** The raw rows of [candidate_rows] as integers. *)
Definition raw_rows_int (n : nat) : list (list Z) :=
  map (fun s => vecmat_int s (product [-1; 1]%Z n)) (product [0; 1]%Z (2 ^ n)).

(** ** Candidate rows in binary32 *)

(** The entries of a candidate row: a normal number well inside the range
    of binary32, or a zero of either sign. *)
Definition nonzero32 (x : spec_float) : Prop :=
  exists s, normal32 s (-63) 2 x.

Definition entry32 (x : spec_float) : Prop :=
  (exists s, x = S754_zero s) \/ nonzero32 x.

(** A row of such entries, one of them not zero. *)
Definition row32 (row : list spec_float) : Prop :=
  Forall entry32 row /\ Exists nonzero32 row.

(** A partial sum of squares: +0, or a positive normal number with an
    exponent of at most [hi]. *)
Definition sumstate (hi : Z) (x : spec_float) : Prop :=
  x = S754_zero false \/ normal32 false (-23) hi x.

(** ** The norm of the candidate rows for n <= 4 *)





(** ** Lower bounds in binary32 *)







(** The rows of a tensor with [n] columns whose entries satisfy [P]. *)
Definition rows_in {T : Type} (P : T -> Prop) (n : nat) (r : list T) : Prop :=
  Forall P r /\ length r = n.
(** * Properties *)

(** ** Lists and rectangular tensors *)

Section ListFacts.
Context {A : Type}.

Lemma nth_nil (d : A) (j : nat) : nth j (@nil A) d = d.
Proof. destruct j; reflexivity. Qed.

Lemma map_nth_seq (d : A) (l : list A) :
  map (fun j => nth j l d) (seq 0 (length l)) = l.
Proof.
  apply nth_ext with (d := d) (d' := d).
  - now rewrite length_map, length_seq.
  - intros i Hi. rewrite length_map, length_seq in Hi.
    rewrite (nth_indep _ d (nth 0 l d)) by now rewrite length_map, length_seq.
    rewrite (map_nth (fun j => nth j l d) (seq 0 (length l)) 0 i).
    now rewrite seq_nth.
Qed.

End ListFacts.

Section TensorFacts.
Context {A : Type}.


Lemma length_column (d : A) (M : list (list A)) (j : nat) :
  length (column d M j) = length M.
Proof. apply length_map. Qed.

Lemma nth_column (d : A) (M : list (list A)) (i j : nat) :
  nth i (column d M j) d = nth j (nth i M []) d.
Proof.
  unfold column.
  rewrite <- (nth_nil d j) at 1.
  apply (map_nth (fun row => nth j row d)).
Qed.

Lemma length_transpose (d : A) (c : nat) (M : list (list A)) :
  M <> [] -> rect c M -> length (transpose d M) = c.
Proof.
  intros HM HR. destruct M as [|row M']; [easy|].
  inversion HR; subst. simpl. now rewrite length_map, length_seq.
Qed.

Lemma rect_transpose (d : A) (M : list (list A)) :
  rect (length M) (transpose d M).
Proof.
  destruct M as [|row M']; [constructor|].
  unfold transpose, rect. rewrite Forall_map.
  apply Forall_forall. intros j _. apply length_column.
Qed.

Lemma nth_transpose (d : A) (c : nat) (M : list (list A)) (j : nat) :
  M <> [] -> rect c M -> j < c ->
  nth j (transpose d M) [] = column d M j.
Proof.
  intros HM HR Hj. destruct M as [|row M']; [easy|].
  inversion HR; subst. unfold transpose.
  rewrite (nth_indep _ [] (column d (row :: M') 0))
    by now rewrite length_map, length_seq.
  rewrite (map_nth (column d (row :: M')) (seq 0 (length row)) 0 j).
  now rewrite seq_nth.
Qed.

(** [M.T.T = M] for a tensor with at least one row and one column. *)
Lemma transpose_involutive (d : A) (c : nat) (M : list (list A)) :
  M <> [] -> rect c M -> 0 < c ->
  transpose d (transpose d M) = M.
Proof.
  intros HM HR Hc.
  assert (HL : length (transpose d M) = c) by now apply length_transpose.
  assert (HR' := rect_transpose d M).
  remember (transpose d M) as Mt eqn:E.
  destruct Mt as [|col cols]; [simpl in HL; lia|].
  unfold transpose at 1. inversion HR' as [|? ? Hcol _].
  rewrite Hcol. rewrite E in HL |- *.
  transitivity (map (fun i => nth i M []) (seq 0 (length M)));
    [|apply map_nth_seq].
  apply map_ext_in. intros i Hi. apply in_seq in Hi.
  apply nth_ext with (d := d) (d' := d).
  - rewrite length_column, HL.
    symmetry. eapply (proj1 (Forall_forall _ _) HR). apply nth_In. lia.
  - intros j Hj. rewrite length_column, HL in Hj.
    rewrite nth_column. rewrite (nth_transpose d HM HR Hj).
    apply nth_column.
Qed.

Lemma length_map2 {B C : Type} (f : A -> B -> C) (a : list A) (b : list B) :
  length (map2 f a b) = Nat.min (length a) (length b).
Proof.
  revert b. induction a as [|x a IH]; intros [|y b]; simpl; auto.
Qed.

Lemma map2_map_r {B C : Type} (f : A -> B -> C) (g : A -> B) (l : list A) :
  map2 f l (map g l) = map (fun x => f x (g x)) l.
Proof. induction l as [|x l IH]; simpl; congruence. Qed.
End TensorFacts.

(** ** [itertools.product] over a two-letter alphabet *)

Section ProductFacts.
Context {A : Type}.
Variables lo hi : A.

Lemma product_S (n : nat) :
  product [lo; hi] (S n) =
  map (cons lo) (product [lo; hi] n) ++ map (cons hi) (product [lo; hi] n).
Proof. simpl. now rewrite app_nil_r. Qed.

Lemma length_product (n : nat) : length (product [lo; hi] n) = 2 ^ n.
Proof.
  induction n as [|n IH]; [reflexivity|].
  rewrite product_S, length_app, !length_map, IH. simpl. lia.
Qed.

Lemma rect_product (n : nat) : rect n (product [lo; hi] n).
Proof.
  induction n as [|n IH]; [repeat constructor|].
  rewrite product_S. apply Forall_app. split; rewrite Forall_map;
    (eapply Forall_impl; [|exact IH]); simpl; intros; congruence.
Qed.

Lemma product_not_nil (n : nat) : product [lo; hi] n <> [].
Proof.
  intros E. apply (f_equal (@length _)) in E.
  rewrite length_product in E. simpl in E.
  pose proof (Nat.pow_nonzero 2 n). lia.
Qed.

Lemma in_product (n : nat) (v : list A) :
  In v (product [lo; hi] n) <->
  length v = n /\ Forall (fun x => x = lo \/ x = hi) v.
Proof.
  revert v. induction n as [|n IH]; intros v.
  - simpl. split.
    + intros [<-|[]]. split; [reflexivity|constructor].
    + intros [H _]. destruct v; [now left|discriminate].
  - rewrite product_S, in_app_iff, !in_map_iff. split.
    + intros [[w [<- Hw]]|[w [<- Hw]]]; apply IH in Hw as [Hl Hf];
        (split; [simpl; congruence|constructor; auto]).
    + intros [Hl Hf]. destruct v as [|x v]; [discriminate|].
      inversion Hf; subst. simpl in Hl.
      assert (Hv : In v (product [lo; hi] n)) by (apply IH; split; [lia|assumption]).
      match goal with H : x = lo \/ x = hi |- _ => destruct H; subst end;
        [left|right]; exists v; auto.
Qed.
End ProductFacts.

(** ** [itertools.combinations] *)


Lemma binom_gt (n k : nat) : n < k -> binom n k = 0.
Proof.
  revert k. induction n as [|n IH]; intros [|k] H; simpl; try lia.
  rewrite !IH by lia. reflexivity.
Qed.

Lemma binom_diag (n : nat) : binom n n = 1.
Proof.
  induction n as [|n IH]; [reflexivity|].
  simpl. rewrite IH, binom_gt by lia. reflexivity.
Qed.

(** [binom n k] is n! / (k! (n-k)!). *)
Lemma binom_fact (n k : nat) :
  k <= n -> binom n k * (fact k * fact (n - k)) = fact n.
Proof.
  revert k. induction n as [|n IH]; intros [|k] H; try lia.
  - reflexivity.
  - simpl binom. simpl fact. lia.
  - destruct (Nat.eq_dec k n) as [->|Hne].
    + rewrite binom_diag, Nat.sub_diag. simpl. lia.
    + change (binom (S n) (S k)) with (binom n k + binom n (S k)).
      assert (H1 := IH k ltac:(lia)). assert (H2 := IH (S k) ltac:(lia)).
      replace (S n - S k) with (n - k) by lia.
      replace (n - k) with (S (n - S k)) in * by lia.
      change (fact (S n)) with (S n * fact n).
      change (fact (S k)) with (S k * fact k) in *.
      change (fact (S (n - S k))) with (S (n - S k) * fact (n - S k)) in *.
      replace (S n) with (S k + S (n - S k)) at 1 by lia.
      nia.
Qed.


Lemma lex_lt_irrefl (a : list nat) : ~ lex_lt a a.
Proof.
  induction a as [|x a IH]; intros H; inversion H; subst; try lia; auto.
Qed.

Lemma lex_lt_trans (a b c : list nat) : lex_lt a b -> lex_lt b c -> lex_lt a c.
Proof.
  intros Hab. revert c.
  induction Hab as [y b|x y a b Hxy|x a b Hab IH]; intros c Hbc;
    inversion Hbc; subst.
  - apply lex_lt_nil.
  - apply lex_lt_nil.
  - apply lex_lt_head. lia.
  - now apply lex_lt_head.
  - now apply lex_lt_head.
  - apply lex_lt_tail. now apply IH.
Qed.

Section SortedFacts.
Context {A : Type}.
Variable R : A -> A -> Prop.

Lemma StronglySorted_app (l1 l2 : list A) :
  StronglySorted R l1 -> StronglySorted R l2 ->
  (forall a b, In a l1 -> In b l2 -> R a b) ->
  StronglySorted R (l1 ++ l2).
Proof.
  induction 1 as [|x l1 Hs IH Hx]; intros H2 Hc; simpl; [assumption|].
  constructor.
  - apply IH; [assumption|]. intros; apply Hc; simpl; auto.
  - apply Forall_app. split; [assumption|].
    apply Forall_forall. intros b Hb. apply Hc; simpl; auto.
Qed.

Lemma StronglySorted_app_inv (l1 l2 : list A) :
  StronglySorted R (l1 ++ l2) ->
  forall a b, In a l1 -> In b l2 -> R a b.
Proof.
  induction l1 as [|x l1 IH]; simpl; intros Hs a b Ha Hb; [easy|].
  inversion Hs as [|? ? Hs' Hx]; subst. destruct Ha as [<-|Ha].
  - rewrite Forall_forall in Hx. apply Hx, in_or_app. now right.
  - now apply IH.
Qed.

Lemma StronglySorted_NoDup (l : list A) :
  (forall a, ~ R a a) -> StronglySorted R l -> NoDup l.
Proof.
  intros Hirr. induction 1 as [|x l Hs IH Hx]; constructor; [|assumption].
  intros Hin. rewrite Forall_forall in Hx. exact (Hirr x (Hx x Hin)).
Qed.
End SortedFacts.

Section CombinationFacts.
Context {A : Type}.

Lemma length_combinations (l : list A) (r : nat) :
  length (combinations l r) = binom (length l) r.
Proof.
  revert r. induction l as [|x l IH]; intros [|r]; simpl; try reflexivity.
  now rewrite length_app, length_map, !IH.
Qed.

Lemma combinations_nil (l : list A) (r : nat) :
  length l < r -> combinations l r = [].
Proof.
  intros H. apply length_zero_iff_nil.
  rewrite length_combinations. now apply binom_gt.
Qed.


Lemma in_combinations_length (l : list A) (r : nat) (c : list A) :
  In c (combinations l r) -> length c = r.
Proof.
  revert r c. induction l as [|x l IH]; intros [|r] c; simpl;
    try (intros [<-|[]]; reflexivity); try easy.
  rewrite in_app_iff, in_map_iff. intros [[c' [<- Hc']]|Hc].
  - simpl. f_equal. eauto.
  - eauto.
Qed.

Lemma in_combinations_incl (l : list A) (r : nat) (c : list A) :
  In c (combinations l r) -> incl c l.
Proof.
  revert r c. induction l as [|x l IH]; intros [|r] c; simpl;
    try (intros [<-|[]]; apply incl_nil_l); try easy.
  rewrite in_app_iff, in_map_iff. intros [[c' [<- Hc']]|Hc].
  - apply incl_cons; [now left|]. apply incl_tl. eauto.
  - apply incl_tl. eauto.
Qed.

(** A combination keeps the order of the input. *)
Lemma in_combinations_sorted (R : A -> A -> Prop) (l : list A) (r : nat)
      (c : list A) :
  StronglySorted R l -> In c (combinations l r) -> StronglySorted R c.
Proof.
  intros Hs. revert r c. induction Hs as [|x l Hs IH Hx]; intros [|r] c; simpl;
    try (intros [<-|[]]; constructor); try easy.
  rewrite in_app_iff, in_map_iff. intros [[c' [<- Hc']]|Hc].
  - constructor; [eauto|].
    apply Forall_forall. intros y Hy. rewrite Forall_forall in Hx.
    apply Hx. eapply in_combinations_incl; eauto.
  - eauto.
Qed.
End CombinationFacts.

(** Combinations of increasing indices come out in lexicographic order. *)
Lemma combinations_lex_sorted (l : list nat) (r : nat) :
  StronglySorted lt l -> StronglySorted lex_lt (combinations l r).
Proof.
  intros Hs. revert r. induction Hs as [|x l Hs IH Hx]; intros [|r]; simpl;
    try (repeat constructor).
  apply StronglySorted_app.
  - specialize (IH r). induction IH as [|c cs Hcs IHcs Hc]; simpl; constructor.
    + assumption.
    + rewrite Forall_map. eapply Forall_impl; [|exact Hc].
      intros; now apply lex_lt_tail.
  - apply IH.
  - intros a b Ha Hb. apply in_map_iff in Ha as [a' [<- _]].
    pose proof (in_combinations_length _ _ _ Hb) as Hlen.
    destruct b as [|y b]; [discriminate|].
    apply lex_lt_head. rewrite Forall_forall in Hx. apply Hx.
    eapply in_combinations_incl; [exact Hb|now left].
Qed.

Lemma seq_StronglySorted (s m : nat) : StronglySorted lt (seq s m).
Proof.
  revert s. induction m as [|m IH]; intros s; simpl; constructor; [apply IH|].
  apply Forall_forall. intros y Hy. apply in_seq in Hy. lia.
Qed.

(** ** Arithmetic on finite extended reals *)

Section XRealFacts.
Local Open Scope R_scope.

Lemma Rltb_true (x y : R) : Rltb x y = true <-> x < y.
Proof. unfold Rltb. destruct (Rlt_dec x y); intuition congruence. Qed.

Lemma Rltb_false (x y : R) : Rltb x y = false <-> y <= x.
Proof. unfold Rltb. destruct (Rlt_dec x y); split; intros; try easy; lra. Qed.

Lemma Reqb_true (x y : R) : Reqb x y = true <-> x = y.
Proof. unfold Reqb. destruct (Req_dec_T x y); intuition congruence. Qed.

Lemma Reqb_false (x y : R) : Reqb x y = false <-> x <> y.
Proof. unfold Reqb. destruct (Req_dec_T x y); intuition congruence. Qed.

Lemma zero_xreal : zero = Fin 0.
Proof. reflexivity. Qed.

Lemma sumR_acc (v : list R) (a : R) : fold_left Rplus v a = a + sumR v.
Proof.
  unfold sumR. revert a. induction v as [|x v IH]; intros a; simpl.
  - lra.
  - rewrite IH. rewrite (IH (0 + x)). lra.
Qed.

Lemma sumR_cons (x : R) (v : list R) : sumR (x :: v) = x + sumR v.
Proof. unfold sumR at 1. simpl. rewrite sumR_acc. lra. Qed.

Lemma sumsq_cons (x : R) (v : list R) : sumsq (x :: v) = x * x + sumsq v.
Proof. unfold sumsq. simpl. apply sumR_cons. Qed.

Lemma sumsq_nonneg (v : list R) : 0 <= sumsq v.
Proof.
  induction v as [|x v IH]; [unfold sumsq, sumR; simpl; lra|].
  rewrite sumsq_cons. nra.
Qed.

Lemma sumsq_zero (v : list R) : sumsq v = 0 <-> Forall (fun x => x = 0) v.
Proof.
  induction v as [|x v IH].
  - split; [constructor|reflexivity].
  - rewrite sumsq_cons. pose proof (sumsq_nonneg v). split.
    + intros H0. constructor; [nra|]. apply IH. nra.
    + intros HF. inversion HF; subst. apply IH in H3. rewrite H3. lra.
Qed.

Lemma sum_fin (v : list R) : sum (map Fin v) = Fin (sumR v).
Proof.
  unfold sum, sumR. rewrite zero_xreal. generalize 0.
  induction v as [|x v IH]; intros a; simpl; [reflexivity|apply IH].
Qed.

Lemma vecmat_step_fin (a : R) (acc brow : list R) :
  map2 (fun s b => add s (mul (Fin a) b)) (map Fin acc) (map Fin brow) =
  map Fin (map2 (fun s b => s + a * b) acc brow).
Proof.
  revert brow. induction acc as [|s acc IH]; intros [|b brow]; simpl; auto.
  now rewrite IH.
Qed.

Lemma vecmat_fin (a : list R) (B : list (list R)) :
  vecmat (map Fin a) (map (map Fin) B) = map Fin (vecmatR a B).
Proof.
  unfold vecmat, vecmatR.
  replace (repeat zero (length (hd [] (map (map Fin) B))))
    with (map Fin (repeat 0 (length (hd [] B)))).
  2:{ rewrite map_repeat. destruct B; simpl; [reflexivity|now rewrite length_map]. }
  generalize (repeat 0 (length (hd [] B))). revert B.
  induction a as [|x a IH]; intros [|brow B] acc;
    cbn [map combine fold_left fst snd]; auto.
  rewrite vecmat_step_fin. apply IH.
Qed.

Lemma norm_fin (v : list R) : norm (map Fin v) = Fin (R_sqrt.sqrt (sumsq v)).
Proof.
  unfold norm. rewrite map_map.
  replace (map (fun x => mul (Fin x) (Fin x)) v)
    with (map Fin (map (fun x => x * x) v)) by now rewrite map_map.
  rewrite sum_fin. simpl. fold (sumsq v).
  assert (H : Rltb (sumsq v) 0 = false) by (apply Rltb_false, sumsq_nonneg).
  now rewrite H.
Qed.

(** Dividing a finite row by its norm: NaN everywhere for the zero row,
    the unit vector otherwise. *)
Lemma normalize_zero (v : list R) :
  sumsq v = 0 ->
  map (fun x => div x (norm (map Fin v))) (map Fin v) = map (fun _ => NaN) v.
Proof.
  intros H0. rewrite norm_fin, H0, sqrt_0, map_map.
  apply sumsq_zero in H0. apply map_ext_in. intros x Hx.
  rewrite Forall_forall in H0. rewrite (H0 x Hx). simpl.
  assert (E : Reqb 0 0 = true) by now apply Reqb_true.
  now rewrite E.
Qed.

Lemma normalize_nonzero (v : list R) :
  sumsq v <> 0 ->
  map (fun x => div x (norm (map Fin v))) (map Fin v) =
  map Fin (map (fun x => x / R_sqrt.sqrt (sumsq v)) v).
Proof.
  intros H0. rewrite norm_fin, !map_map. apply map_ext. intros x. simpl.
  assert (E : Reqb (R_sqrt.sqrt (sumsq v)) 0 = false).
  { apply Reqb_false. intros E. apply sqrt_eq_0 in E; [auto|apply sumsq_nonneg]. }
  now rewrite E.
Qed.

Lemma sumsq_scale (c : R) (v : list R) :
  sumsq (map (fun x => x * c) v) = sumsq v * (c * c).
Proof.
  induction v as [|x v IH]; [unfold sumsq, sumR; simpl; lra|].
  simpl map. rewrite !sumsq_cons, IH. lra.
Qed.

Lemma sumsq_normalized (v : list R) :
  sumsq v <> 0 -> sumsq (map (fun x => x / R_sqrt.sqrt (sumsq v)) v) = 1.
Proof.
  intros H0. pose proof (sumsq_nonneg v) as Hnn.
  unfold Rdiv. rewrite sumsq_scale.
  rewrite <- Rinv_mult. rewrite sqrt_sqrt by assumption.
  now apply Rinv_r.
Qed.

End XRealFacts.

(** ** The tensors built by [vectors] *)

Section VectorsFacts.
Context {T : Type} `{Sc : Scalar T}.

Lemma rect_map_map {A B : Type} (f : A -> B) (c : nat) (M : list (list A)) :
  rect c M -> rect c (map (map f) M).
Proof.
  unfold rect. rewrite Forall_map. apply Forall_impl. intros row.
  now rewrite length_map.
Qed.

Lemma binary_choices_eq (n : nat) :
  binary_choices n = map (map of_int) (product [0; 1]%Z (2 ^ n)).
Proof.
  unfold binary_choices, vectors.
  apply transpose_involutive with (c := 2 ^ n).
  - intros E. apply map_eq_nil in E. now apply product_not_nil in E.
  - apply rect_map_map, rect_product.
  - pose proof (Nat.pow_nonzero 2 n). lia.
Qed.

Lemma sign_vectors_eq (n : nat) :
  0 < n ->
  transpose zero (vectors n false) = map (map of_int) (product [-1; 1]%Z n).
Proof.
  intros Hn. unfold vectors.
  apply transpose_involutive with (c := n); [|apply rect_map_map, rect_product|assumption].
  intros E. apply map_eq_nil in E. now apply product_not_nil in E.
Qed.

Lemma raw_rows_eq (n : nat) :
  0 < n ->
  raw_rows n =
  map (fun s => vecmat (map of_int s) (map (map of_int) (product [-1; 1]%Z n)))
      (product [0; 1]%Z (2 ^ n)).
Proof.
  intros Hn. unfold raw_rows, matmul.
  rewrite binary_choices_eq, sign_vectors_eq by assumption.
  now rewrite map_map.
Qed.

Lemma normalized_rows_with_nans_eq (n : nat) :
  normalized_rows_with_nans n =
  map (fun row => map (fun x => div x (norm row)) row) (raw_rows n).
Proof. unfold normalized_rows_with_nans. apply map2_map_r. Qed.
End VectorsFacts.

Lemma filter_map_comm {A B : Type} (f : A -> B) (p : B -> bool) (l : list A) :
  filter p (map f l) = map f (filter (fun x => p (f x)) l).
Proof.
  induction l as [|x l IH]; simpl; [reflexivity|].
  destruct (p (f x)); simpl; congruence.
Qed.

(** ** The stages of [candidate_rows] in exact arithmetic *)

Section CandidateStages.
Local Open Scope R_scope.

Lemma length_vecmatR (c : nat) (a : list R) (B : list (list R)) :
  B <> [] -> rect c B -> length (vecmatR a B) = c.
Proof.
  intros HB HR. unfold vecmatR.
  assert (H0 : length (repeat 0 (length (hd [] B))) = c).
  { rewrite repeat_length. destruct B; [easy|]. now inversion HR. }
  revert H0. generalize (repeat 0 (length (hd [] B))).
  clear HB. revert B HR. induction a as [|x a IH]; intros [|brow B] HR acc Hacc;
    cbn [combine fold_left fst snd]; auto.
  inversion HR; subst. apply IH; [assumption|].
  rewrite length_map2. lia.
Qed.

Lemma raw_rows_xreal (n : nat) :
  (0 < n)%nat -> raw_rows n = map (map Fin) (raw_rowsR n).
Proof.
  intros Hn. rewrite raw_rows_eq by assumption. unfold raw_rowsR.
  rewrite map_map. apply map_ext. intros s.
  change (map of_int s) with (map (fun z => Fin (IZR z)) s).
  rewrite <- (map_map IZR Fin s).
  replace (map (map of_int) (product [(-1)%Z; 1%Z] n))
    with (map (map Fin) (map (map IZR) (product [(-1)%Z; 1%Z] n))).
  - apply vecmat_fin.
  - rewrite map_map. apply map_ext. intros v. now rewrite map_map.
Qed.

Lemma rect_raw_rowsR (n : nat) : rect n (raw_rowsR n).
Proof.
  unfold raw_rowsR, rect. rewrite Forall_map. apply Forall_forall. intros s _.
  apply length_vecmatR.
  - intros E. apply map_eq_nil in E. now apply product_not_nil in E.
  - apply rect_map_map, rect_product.
Qed.

Lemma length_unitR (v : list R) : length (unitR v) = length v.
Proof. apply length_map. Qed.

Lemma sumsq_unitR (v : list R) : sumsq v <> 0 -> sumsq (unitR v) = 1.
Proof. apply sumsq_normalized. Qed.

Lemma forallb_isnan_fin (v : list R) :
  v <> [] -> forallb isnan (map Fin v) = false.
Proof. destruct v; [easy|reflexivity]. Qed.

Lemma forallb_isnan_nan (v : list R) :
  forallb isnan (map (fun _ => NaN) v) = true.
Proof. induction v; simpl; auto. Qed.

Lemma normalize_keep (v : list R) :
  v <> [] ->
  negb (forallb isnan (map (fun x => div x (norm (map Fin v))) (map Fin v))) =
  negb (Reqb (sumsq v) 0).
Proof.
  intros Hv. destruct (Req_dec_T (sumsq v) 0) as [E|E].
  - rewrite normalize_zero by assumption. rewrite forallb_isnan_nan.
    apply Reqb_true in E. now rewrite E.
  - rewrite normalize_nonzero by assumption.
    rewrite forallb_isnan_fin.
    + apply Reqb_false in E. now rewrite E.
    + destruct v; [easy|discriminate].
Qed.

Lemma normalized_rows_xreal (n : nat) :
  (0 < n)%nat -> normalized_rows n = map (map Fin) (normalized_rowsR n).
Proof.
  intros Hn. unfold normalized_rows, normalized_rowsR.
  rewrite normalized_rows_with_nans_eq, raw_rows_xreal by assumption.
  rewrite map_map, filter_map_comm, map_map.
  pose proof (rect_raw_rowsR n) as HR. unfold rect in HR.
  induction (raw_rowsR n) as [|v L IH]; [reflexivity|].
  inversion HR as [|? ? Hv HL]. specialize (IH HL).
  cbn [filter].
  rewrite normalize_keep by (destruct v; [simpl in Hv; lia|discriminate]).
  destruct (Reqb (sumsq v) 0) eqn:E; cbn [negb map]; [exact IH|].
  apply Reqb_false in E. f_equal; [|exact IH].
  now apply normalize_nonzero.
Qed.

Lemma normalized_rowsR_unit (n : nat) (u : list R) :
  In u (normalized_rowsR n) -> length u = n /\ sumsq u = 1.
Proof.
  unfold normalized_rowsR. rewrite in_map_iff. intros [v [<- Hv]].
  apply filter_In in Hv as [Hv Hnz].
  apply negb_true_iff, Reqb_false in Hnz.
  split; [|now apply sumsq_unitR].
  rewrite length_unitR.
  exact (proj1 (Forall_forall _ _) (rect_raw_rowsR n) v Hv).
Qed.

End CandidateStages.

(** ** [torch.unique(dim=0)] *)

Section UniqueFacts.
Context {T : Type} `{Sc : Scalar T}.

Lemma insert_row_perm (r : list T) (l : list (list T)) :
  Permutation (insert_row r l) (r :: l).
Proof.
  induction l as [|h t IH]; simpl; [apply Permutation_refl|].
  destruct (row_ltb h r); [|apply Permutation_refl].
  eapply Permutation_trans; [apply perm_skip, IH|apply perm_swap].
Qed.

Lemma sort_rows_perm (l : list (list T)) : Permutation (sort_rows l) l.
Proof.
  induction l as [|r l IH]; simpl; [constructor|].
  eapply Permutation_trans; [apply insert_row_perm|now apply perm_skip].
Qed.

Lemma unique_from_incl (prev : list T) (l : list (list T)) :
  incl (unique_from prev l) l.
Proof.
  revert prev. induction l as [|x t IH]; intros prev; simpl; [apply incl_refl|].
  destruct (row_eqb prev x).
  - apply incl_tl, IH.
  - apply incl_cons; [now left|apply incl_tl, IH].
Qed.

Lemma unique_consecutive_incl (l : list (list T)) :
  incl (unique_consecutive l) l.
Proof.
  destruct l as [|x t]; simpl; [apply incl_refl|].
  apply incl_cons; [now left|apply incl_tl, unique_from_incl].
Qed.

Lemma unique_incl (l : list (list T)) : incl (unique l) l.
Proof.
  intros x Hx. apply unique_consecutive_incl in Hx.
  eapply Permutation_in; [apply sort_rows_perm|exact Hx].
Qed.

End UniqueFacts.

Section RowOrder.
Local Open Scope R_scope.

Lemma lexR_irrefl (a : list R) : ~ lexR a a.
Proof. induction a as [|x a IH]; simpl; [easy|]. intros [H|[_ H]]; [lra|auto]. Qed.

Lemma lexR_trans (a b c : list R) : lexR a b -> lexR b c -> lexR a c.
Proof.
  revert b c. induction a as [|x a IH]; intros [|y b] [|z c]; simpl; try easy.
  intros [H1|[E1 H1]] [H2|[E2 H2]]; try (left; lra).
  right. split; [lra|]. eauto.
Qed.

Lemma lexR_total (a b : list R) :
  length a = length b -> lexR a b \/ a = b \/ lexR b a.
Proof.
  revert b. induction a as [|x a IH]; intros [|y b] Hl; try discriminate.
  - right. now left.
  - simpl in Hl. injection Hl as Hl. simpl.
    destruct (Rtotal_order x y) as [H|[E|H]];
      [left; now left| |right; right; now left].
    subst y. destruct (IH b Hl) as [H|[E|H]].
    + left. right. auto.
    + right. left. now subst b.
    + right. right. right. auto.
Qed.

Lemma row_ltb_fin (a b : list R) :
  row_ltb (map Fin a) (map Fin b) = true <-> lexR a b.
Proof.
  revert b. induction a as [|x a IH]; intros [|y b]; simpl; try easy.
  destruct (Rltb x y) eqn:E1.
  { apply Rltb_true in E1. intuition. }
  apply Rltb_false in E1.
  destruct (Rltb y x) eqn:E2.
  { apply Rltb_true in E2. split; [easy|]. intros [H|[H _]]; lra. }
  apply Rltb_false in E2. rewrite IH. split.
  - intros H. right. split; [lra|assumption].
  - intros [H|[_ H]]; [lra|assumption].
Qed.

Lemma row_ltb_fin_false (a b : list R) :
  row_ltb (map Fin a) (map Fin b) = false <-> ~ lexR a b.
Proof.
  rewrite <- row_ltb_fin. destruct (row_ltb (map Fin a) (map Fin b)); intuition congruence.
Qed.

Lemma row_eqb_fin (a b : list R) :
  row_eqb (map Fin a) (map Fin b) = true <-> a = b.
Proof.
  revert b. induction a as [|x a IH]; intros [|y b]; simpl; try easy.
  rewrite andb_true_iff, IH, Reqb_true. split.
  - intros [-> ->]. reflexivity.
  - intros E. injection E. auto.
Qed.

(** Sorting and merging rows of equal length. *)
Lemma leR_trans (n : nat) (a b c : list R) :
  length a = n -> length b = n -> length c = n ->
  leR a b -> leR b c -> leR a c.
Proof.
  unfold leR. intros Ha Hb Hc Hab Hbc Hca.
  destruct (lexR_total a b ltac:(congruence)) as [H|[->|H]]; [|auto|auto].
  apply Hbc. eapply lexR_trans; eassumption.
Qed.

Lemma insert_row_fin (n : nat) (r : list R) (L : list (list R)) :
  length r = n -> rect n L -> StronglySorted leR L ->
  exists L', insert_row (map Fin r) (map (map Fin) L) = map (map Fin) L' /\
             Permutation L' (r :: L) /\ StronglySorted leR L'.
Proof.
  intros Hr HL HS. induction HS as [|h t HS IH Hh].
  - exists [r]. repeat split; auto. repeat constructor.
  - apply Forall_cons_iff in HL as [Hlh Hlt].
    cbn [map insert_row].
    destruct (row_ltb (map Fin h) (map Fin r)) eqn:E.
    + apply row_ltb_fin in E.
      destruct (IH Hlt) as [t' [Et [Pt St]]].
      exists (h :: t'). rewrite Et. repeat split.
      * eapply Permutation_trans; [apply perm_skip, Pt|apply perm_swap].
      * constructor; [assumption|].
        apply Forall_forall. intros x Hx.
        apply (Permutation_in _ Pt) in Hx. destruct Hx as [<-|Hx].
        -- intros H. apply (@lexR_irrefl h). eapply lexR_trans; eassumption.
        -- rewrite Forall_forall in Hh. now apply Hh.
    + apply row_ltb_fin_false in E.
      exists (r :: h :: t). repeat split; auto.
      constructor; [now constructor|].
      constructor; [exact E|].
      apply Forall_forall. intros x Hx.
      rewrite Forall_forall in Hh, Hlt.
      apply leR_trans with (n := n) (b := h); auto.
Qed.

Lemma sort_rows_fin (n : nat) (L : list (list R)) :
  rect n L ->
  exists L', sort_rows (map (map Fin) L) = map (map Fin) L' /\
             Permutation L' L /\ StronglySorted leR L'.
Proof.
  induction 1 as [|r L Hr HL IH].
  - exists []. repeat split; constructor.
  - destruct IH as [L1 [E1 [P1 S1]]]. cbn [map sort_rows fold_right].
    fold (sort_rows (map (map Fin) L)). rewrite E1.
    assert (HL1 : rect n L1).
    { unfold rect in *. rewrite Forall_forall in *. intros x Hx.
      apply HL. eapply Permutation_in; eassumption. }
    destruct (@insert_row_fin n r L1 Hr HL1 S1) as [L2 [E2 [P2 S2]]].
    exists L2. repeat split; auto.
    eapply Permutation_trans; [exact P2|now apply perm_skip].
Qed.

Lemma unique_from_fin (n : nat) (L : list (list R)) :
  forall prev, length prev = n -> rect n L -> StronglySorted leR (prev :: L) ->
  exists L', unique_from (map Fin prev) (map (map Fin) L) = map (map Fin) L' /\
             incl L' L /\ StronglySorted lexR (prev :: L').
Proof.
  induction L as [|x t IH]; intros prev Hp HL HS.
  - exists []. repeat split; [apply incl_refl|repeat constructor].
  - apply Forall_cons_iff in HL as [Hx Ht].
    apply StronglySorted_inv in HS as [HS' Hprev].
    destruct (IH x Hx Ht HS') as [L' [E [I S]]].
    cbn [map unique_from]. rewrite E.
    destruct (row_eqb (map Fin prev) (map Fin x)) eqn:Eq.
    + apply row_eqb_fin in Eq. subst x.
      exists L'. repeat split; [now apply incl_tl|assumption].
    + assert (Hlt : lexR prev x).
      { apply Forall_cons_iff in Hprev as [Hle _].
        destruct (lexR_total prev x ltac:(congruence)) as [H|[H|H]]; auto.
        - apply row_eqb_fin in H. congruence.
        - now elim Hle. }
      exists (x :: L'). repeat split.
      * apply incl_cons; [now left|now apply incl_tl].
      * constructor; [assumption|]. constructor; [assumption|].
        pose proof (proj2 (StronglySorted_inv S)) as HxL.
        eapply Forall_impl; [|exact HxL]. intros y Hy.
        eapply lexR_trans; eassumption.
Qed.

(** On finite rows of one length, [unique] returns a strictly increasing
    selection of its input. *)
Lemma unique_fin (n : nat) (L : list (list R)) :
  rect n L ->
  exists L', unique (map (map Fin) L) = map (map Fin) L' /\
             incl L' L /\ StronglySorted lexR L' /\ (L <> [] -> L' <> []).
Proof.
  intros HL. destruct (@sort_rows_fin n L HL) as [L1 [E1 [P1 S1]]].
  unfold unique. rewrite E1.
  assert (HL1 : rect n L1).
  { unfold rect in *. rewrite Forall_forall in *. intros x Hx.
    apply HL. eapply Permutation_in; eassumption. }
  destruct L1 as [|x t].
  - exists []. repeat split; [apply incl_nil_l|constructor|].
    intros HN. apply Permutation_nil in P1. congruence.
  - apply Forall_cons_iff in HL1 as [Hx Ht].
    destruct (@unique_from_fin n t x Hx Ht S1) as [L' [E [I S]]].
    exists (x :: L'). cbn [map unique_consecutive]. rewrite E. repeat split.
    + intros y [<-|Hy]; (eapply Permutation_in; [exact P1|]);
        [now left|right; now apply I].
    + assumption.
    + easy.
Qed.

End RowOrder.

(** ** [find_index] and [mapM] *)

Section FindIndexFacts.
Context {A : Type}.

Lemma find_index_map {B : Type} (f : B -> A) (p : A -> bool) (l : list B) :
  find_index p (map f l) = find_index (fun x => p (f x)) l.
Proof. induction l as [|x l IH]; simpl; [reflexivity|]. now rewrite IH. Qed.

Lemma find_index_ext (p q : A -> bool) (l : list A) :
  (forall x, p x = q x) -> find_index p l = find_index q l.
Proof.
  intros H. induction l as [|x l IH]; simpl; [reflexivity|].
  now rewrite H, IH.
Qed.

Lemma find_index_None (p : A -> bool) (l : list A) :
  find_index p l = None <-> Forall (fun x => p x = false) l.
Proof.
  induction l as [|x l IH]; simpl.
  - split; [constructor|reflexivity].
  - destruct (p x) eqn:E.
    + split; [discriminate|]. intros H. apply Forall_cons_iff in H. destruct H; congruence.
    + destruct (find_index p l); simpl.
      * split; [discriminate|]. intros H. apply Forall_cons_iff in H.
        destruct H as [_ H]. apply IH in H. discriminate.
      * split; [|reflexivity]. intros _. constructor; [assumption|now apply IH].
Qed.

Lemma find_index_Some (d : A) (p : A -> bool) (l : list A) (i : nat) :
  find_index p l = Some i ->
  i < length l /\ p (nth i l d) = true /\
  forall j, j < i -> p (nth j l d) = false.
Proof.
  revert i. induction l as [|x l IH]; intros i; simpl; [discriminate|].
  destruct (p x) eqn:E.
  - intros [= <-]. repeat split; [lia|assumption|]. intros j Hj. lia.
  - destruct (find_index p l) as [k|]; simpl; [|discriminate].
    intros [= <-]. destruct (IH k eq_refl) as [Hk [Hp Hlt]].
    repeat split; [lia|assumption|].
    intros [|j] Hj; [assumption|]. apply Hlt. lia.
Qed.
End FindIndexFacts.

Lemma mapM_map_ok {A B C : Type} (f : B -> result C) (g : A -> B) (h : A -> C)
      (l : list A) :
  (forall x, In x l -> f (g x) = Ok (h x)) ->
  mapM f (map g l) = Ok (map h l).
Proof.
  induction l as [|x l IH]; intros H; simpl; [reflexivity|].
  rewrite H by now left. simpl. rewrite IH; [reflexivity|].
  intros y Hy. apply H. now right.
Qed.

Lemma fix_row_sign_zero_row {T : Type} `{Sc : Scalar T} (row : list T) :
  Forall (fun x => eqb x zero = true) row ->
  fix_row_sign row = Raise IndexError.
Proof.
  intros H. unfold fix_row_sign.
  assert (E : find_index (fun x => neb x zero) row = None).
  { apply find_index_None. eapply Forall_impl; [|exact H].
    intros x Hx. unfold neb. now rewrite Hx. }
  now rewrite E.
Qed.

(** The loop body computes what [_run] returns. *)
Lemma search_step_run {T : Type} `{Sc : Scalar T} (rows bv : list (list T))
      (st : SearchState) (combination : list nat) :
  search_step rows bv st combination =
  (p <- _run bv combination rows ;;
   if gtb (fst p) (beta_max st)
   then Ok {| beta_max := fst p; best_A := Some (snd p) |}
   else Ok st).
Proof.
  unfold search_step, _run.
  destruct (index_rows rows combination) as [A|e]; [|reflexivity].
  cbn [bind]. now destruct (beta A bv).
Qed.

(** ** [fix_row_signs] on finite rows *)

Section FixRowSigns.
Local Open Scope R_scope.

Lemma nzR_true (x : R) : nzR x = true <-> x <> 0.
Proof. unfold nzR. rewrite negb_true_iff. apply Reqb_false. Qed.

Lemma nzR_false (x : R) : nzR x = false <-> x = 0.
Proof. unfold nzR. rewrite negb_false_iff. apply Reqb_true. Qed.

Lemma nzR_opp (x : R) : nzR (- x) = nzR x.
Proof.
  destruct (nzR x) eqn:E.
  - apply nzR_true in E. apply nzR_true. lra.
  - apply nzR_false in E. apply nzR_false. lra.
Qed.

Lemma sgnR_cases (x : R) :
  x <> 0 -> (0 < x /\ sgnR x = 1) \/ (x < 0 /\ sgnR x = -1).
Proof.
  intros Hx. unfold sgnR.
  destruct (Rltb 0 x) eqn:E1.
  - apply Rltb_true in E1. now left.
  - apply Rltb_false in E1. destruct (Rltb x 0) eqn:E2.
    + apply Rltb_true in E2. now right.
    + apply Rltb_false in E2. lra.
Qed.

Lemma sign_fin (x : R) : sign (Fin x) = Fin (sgnR x).
Proof.
  simpl. unfold sgnR. destruct (Rltb 0 x); [reflexivity|].
  now destruct (Rltb x 0).
Qed.

Lemma neb_zero_fin (x : R) : neb (Fin x) zero = nzR x.
Proof. reflexivity. Qed.

Lemma fix_row_sign_fin (v : list R) :
  fix_row_sign (map Fin v) =
  match find_index nzR v with
  | Some _ => Ok (map Fin (fix_rowR v))
  | None => Raise IndexError
  end.
Proof.
  unfold fix_row_sign, fix_rowR.
  rewrite find_index_map.
  rewrite (find_index_ext (fun x => neb (Fin x) zero) nzR v neb_zero_fin).
  destruct (find_index nzR v) as [i|]; [|reflexivity].
  rewrite zero_xreal. change (Fin 0) with (Fin 0) at 1.
  rewrite (map_nth Fin v 0 i). rewrite sign_fin.
  now rewrite !map_map.
Qed.

Lemma map_opp_scale (v : list R) : map (fun x => x * -1) v = map Ropp v.
Proof. apply map_ext. intros; lra. Qed.


Lemma nth_map_opp (i : nat) (v : list R) : nth i (map Ropp v) 0 = - nth i v 0.
Proof.
  replace 0 with (- 0) at 1 by lra. apply (map_nth Ropp).
Qed.

(** The canonical row is the row itself or its negation, whichever has a
    positive first non-zero coordinate. *)
Lemma fix_rowR_cases (v : list R) (i : nat) :
  find_index nzR v = Some i ->
  (fix_rowR v = v /\ 0 < nth i v 0) \/
  (fix_rowR v = map Ropp v /\ nth i v 0 < 0).
Proof.
  intros Hi. unfold fix_rowR. rewrite Hi.
  destruct (@find_index_Some R 0 nzR v i Hi) as [_ [Hnz _]].
  apply nzR_true in Hnz.
  destruct (sgnR_cases Hnz) as [[Hpos ->]|[Hneg ->]].
  - left. split; [|assumption].
    rewrite <- (map_id v) at 2. apply map_ext. intros; lra.
  - right. split; [apply map_opp_scale|assumption].
Qed.

Lemma fix_rowR_canon (v : list R) (i : nat) :
  find_index nzR v = Some i -> canonR (fix_rowR v).
Proof.
  intros Hi. destruct (@fix_rowR_cases v i Hi) as [[-> Hpos]|[-> Hneg]].
  - now exists i.
  - exists i. split.
    + rewrite find_index_map.
      now rewrite (find_index_ext (fun x => nzR (- x)) nzR v nzR_opp).
    + rewrite nth_map_opp. lra.
Qed.


Lemma length_fix_rowR (v : list R) : length (fix_rowR v) = length v.
Proof.
  unfold fix_rowR. destruct (find_index nzR v); [apply length_map|reflexivity].
Qed.

Lemma unit_has_nonzero (v : list R) :
  sumsq v = 1 -> exists i, find_index nzR v = Some i.
Proof.
  intros H1. destruct (find_index nzR v) as [i|] eqn:E; [now exists i|].
  exfalso. apply find_index_None in E.
  assert (H0 : sumsq v = 0).
  { apply sumsq_zero. eapply Forall_impl; [|exact E]. intros x. apply nzR_false. }
  lra.
Qed.

End FixRowSigns.

(** ** [candidate_rows] in exact arithmetic *)

Section CandidateRows.
Local Open Scope R_scope.

Lemma vecmatR_zero_steps (k : nat) (B : list (list R)) (acc : list R) :
  rect (length acc) B ->
  fold_left (fun acc p => map2 (fun s b => s + fst p * b) acc (snd p))
            (combine (repeat 0 k) B) acc = acc.
Proof.
  revert B. induction k as [|k IH]; intros [|brow B] HR;
    cbn [repeat combine fold_left fst snd]; auto.
  apply Forall_cons_iff in HR as [Hb HB].
  assert (E : map2 (fun s b => s + 0 * b) acc brow = acc).
  { clear -Hb. revert brow Hb. induction acc as [|s acc IH]; intros [|b brow] Hb;
      simpl in *; try discriminate; auto.
    f_equal; [lra|]. apply IH. lia. }
  rewrite E. now apply IH.
Qed.

Lemma vecmatR_indicator (k : nat) (v0 : list R) (B : list (list R)) :
  rect (length v0) B -> vecmatR (1 :: repeat 0 k) (v0 :: B) = v0.
Proof.
  intros HR. unfold vecmatR. cbn [hd combine fold_left fst snd].
  assert (E : map2 (fun s b => s + 1 * b) (repeat 0 (length v0)) v0 = v0).
  { clear. induction v0 as [|b v IH]; simpl; [reflexivity|].
    f_equal; [lra|exact IH]. }
  rewrite E. now apply vecmatR_zero_steps.
Qed.

Lemma sumsq_sign_vector (p : list Z) :
  p <> [] -> Forall (fun x => x = (-1)%Z \/ x = 1%Z) p -> sumsq (map IZR p) <> 0.
Proof.
  intros Hp HF. destruct p as [|x p]; [easy|].
  apply Forall_cons_iff in HF as [Hx _].
  simpl map. rewrite sumsq_cons. pose proof (sumsq_nonneg (map IZR p)).
  destruct Hx as [-> | ->]; simpl; lra.
Qed.

Lemma raw_rowsR_nonzero (n : nat) :
  (0 < n)%nat -> exists v, In v (raw_rowsR n) /\ sumsq v <> 0.
Proof.
  intros Hn.
  destruct (product [(-1)%Z; 1%Z] n) as [|p0 P] eqn:EP.
  { now apply product_not_nil in EP. }
  assert (Hp0 : In p0 (product [(-1)%Z; 1%Z] n)) by (rewrite EP; now left).
  apply in_product in Hp0 as [Hlen Hpm].
  assert (HrP : rect n (p0 :: P)) by (rewrite <- EP; apply rect_product).
  apply Forall_cons_iff in HrP as [_ HrP].
  exists (map IZR p0). split.
  - unfold raw_rowsR. apply in_map_iff.
    exists (1%Z :: repeat 0%Z (2 ^ n - 1)). split.
    + rewrite EP. cbn [map]. rewrite map_repeat.
      apply vecmatR_indicator. rewrite length_map, Hlen.
      now apply rect_map_map.
    + apply in_product. split.
      * simpl. rewrite repeat_length.
        pose proof (Nat.pow_nonzero 2 n). lia.
      * constructor; [now right|].
        apply Forall_forall. intros x Hx. apply repeat_spec in Hx. now left.
  - apply sumsq_sign_vector; [|assumption].
    destruct p0; [simpl in Hlen; lia|discriminate].
Qed.

Lemma normalized_rowsR_not_nil (n : nat) :
  (0 < n)%nat -> normalized_rowsR n <> [].
Proof.
  intros Hn E. destruct (raw_rowsR_nonzero Hn) as [v [Hv Hnz]].
  assert (Hin : In (unitR v) (normalized_rowsR n)).
  { unfold normalized_rowsR. apply in_map, filter_In. split; [assumption|].
    apply negb_true_iff. now apply Reqb_false. }
  rewrite E in Hin. destruct Hin.
Qed.

Lemma unique_normalized_rows_exact (n : nat) :
  (0 < n)%nat ->
  exists U : list (list R),
    unique_normalized_rows n = map (map Fin) U /\
    U <> [] /\ incl U (normalized_rowsR n).
Proof.
  intros Hn. unfold unique_normalized_rows.
  rewrite normalized_rows_xreal by assumption.
  assert (HN : rect n (normalized_rowsR n)).
  { apply Forall_forall. intros u Hu. now apply normalized_rowsR_unit in Hu. }
  destruct (unique_fin HN) as [U [EU [IU [_ NU]]]].
  exists U. repeat split; auto. apply NU. now apply normalized_rowsR_not_nil.
Qed.

(** The shape of the result: [candidate_rows n] returns normally; its rows
    are finite, strictly increasing in the order of [torch.unique], and each
    one is a row of [normalized_rows] or the negation of one. *)
Lemma candidate_rows_exact (n : nat) :
  (0 < n)%nat ->
  exists C : list (list R),
    candidate_rows n = Ok (map (map Fin) C) /\
    C <> [] /\
    StronglySorted lexR C /\
    forall w, In w C ->
      canonR w /\
      exists u, In u (normalized_rowsR n) /\ (w = u \/ w = map Ropp u).
Proof.
  intros Hn. unfold candidate_rows.
  destruct (unique_normalized_rows_exact Hn) as [U [EU [NU IU]]].
  rewrite EU. unfold fix_row_signs.
  assert (HU : forall u, In u U -> exists i, find_index nzR u = Some i).
  { intros u Hu. apply IU, normalized_rowsR_unit in Hu. now apply unit_has_nonzero. }
  rewrite (@mapM_map_ok _ _ _ fix_row_sign (map Fin) (fun u => map Fin (fix_rowR u))).
  2:{ intros u Hu. rewrite fix_row_sign_fin. destruct (HU u Hu) as [i ->]. reflexivity. }
  cbn [bind].
  rewrite <- (map_map fix_rowR (map Fin)).
  assert (HW : rect n (map fix_rowR U)).
  { unfold rect. rewrite Forall_map. apply Forall_forall. intros u Hu.
    rewrite length_fix_rowR. now apply IU, normalized_rowsR_unit in Hu. }
  destruct (unique_fin HW) as [C [EC [IC [SC NC]]]].
  assert (NW : map fix_rowR U <> []).
  { intros E. apply map_eq_nil in E. contradiction. }
  destruct (map (map Fin) (map fix_rowR U)) as [|w0 W0] eqn:EW.
  { apply map_eq_nil in EW. contradiction. }
  cbn [stack bind]. rewrite EC.
  exists C. repeat split; auto.
  - apply IC, in_map_iff in H as [u [<- Hu]].
    destruct (HU u Hu) as [i Hi]. now apply fix_rowR_canon with (i := i).
  - apply IC, in_map_iff in H as [u [<- Hu]].
    exists u. split; [now apply IU|].
    destruct (HU u Hu) as [i Hi].
    destruct (@fix_rowR_cases u i Hi) as [[E _]|[E _]]; auto.
Qed.


End CandidateRows.

(** ** Deciding the row properties *)

Section RowPropertiesFacts.
Context {T : Type} `{Sc : Scalar T}.

Lemma nan_freeb_spec (row : list T) : nan_freeb row = true -> nan_free row.
Proof.
  unfold nan_freeb, nan_free. rewrite forallb_forall, Forall_forall.
  intros H x Hx. apply negb_true_iff. now apply H.
Qed.

Lemma sign_canonicalb_spec (row : list T) :
  sign_canonicalb row = true -> sign_canonical row.
Proof.
  unfold sign_canonicalb, sign_canonical.
  destruct (find_index (fun x => neb x zero) row) as [k|]; [|discriminate].
  intros H. now exists k.
Qed.

Lemma distinct_up_to_signb_spec (rows : list (list T)) :
  distinct_up_to_signb rows = true -> distinct_up_to_sign rows.
Proof.
  unfold distinct_up_to_signb, distinct_up_to_sign.
  rewrite forallb_forall. intros H i j Hi Hj Hij.
  specialize (H i ltac:(apply in_seq; lia)).
  rewrite forallb_forall in H. specialize (H j ltac:(apply in_seq; lia)).
  apply orb_true_iff in H as [H|H].
  - apply Nat.eqb_eq in H. contradiction.
  - apply andb_true_iff in H as [H1 H2].
    now rewrite negb_true_iff in H1, H2.
Qed.


Lemma normalized_rows_not_all_nan (n : nat) (q : list T) :
  In q (normalized_rows n) -> forallb isnan q = false.
Proof.
  unfold normalized_rows. intros H. apply filter_In in H as [_ H].
  now apply negb_true_iff.
Qed.
End RowPropertiesFacts.

Lemma StronglySorted_nth {A : Type} (R : A -> A -> Prop) (d : A) (l : list A) :
  StronglySorted R l ->
  forall i j, i < j -> j < length l -> R (nth i l d) (nth j l d).
Proof.
  induction 1 as [|x l HS IH Hx]; intros i j Hij Hj; simpl in Hj; [lia|].
  destruct j as [|j]; [lia|]. destruct i as [|i]; simpl.
  - rewrite Forall_forall in Hx. apply Hx, nth_In. lia.
  - apply IH; lia.
Qed.

Section CandidateRowsClaims.
Local Open Scope R_scope.

Lemma canonR_not_opp (a b : list R) : canonR a -> canonR b -> a <> map Ropp b.
Proof.
  intros [i [Hi Hpi]] [j [Hj Hpj]] E. subst a.
  rewrite find_index_map in Hi.
  rewrite (find_index_ext (fun x => nzR (- x)) nzR b nzR_opp) in Hi.
  assert (i = j) by congruence. subst j.
  rewrite nth_map_opp in Hpi. lra.
Qed.

Lemma sign_canonical_fin (w : list R) : canonR w -> sign_canonical (map Fin w).
Proof.
  intros [k [Hk Hpos]]. exists k. split.
  - rewrite find_index_map.
    now rewrite (find_index_ext (fun x => neb (Fin x) zero) nzR w neb_zero_fin).
  - rewrite zero_xreal, (map_nth Fin w 0 k). unfold gtb. simpl.
    now apply Rltb_true.
Qed.



Lemma map_neg_fin (w : list R) : map neg (map Fin w) = map Fin (map Ropp w).
Proof. now rewrite !map_map. Qed.

Lemma row_eqb_fin_false (a b : list R) :
  a <> b -> row_eqb (map Fin a) (map Fin b) = false.
Proof.
  intros H. destruct (row_eqb (map Fin a) (map Fin b)) eqn:E; [|reflexivity].
  now apply row_eqb_fin in E.
Qed.

Lemma nth_map_Fin (i : nat) (C : list (list R)) :
  nth i (map (map Fin) C) [] = map Fin (nth i C []).
Proof. apply (map_nth (map Fin) C [] i). Qed.

Lemma distinct_up_to_sign_fin (C : list (list R)) :
  StronglySorted lexR C -> Forall canonR C ->
  distinct_up_to_sign (map (map Fin) C).
Proof.
  intros HS HC i j Hi Hj Hij. rewrite length_map in Hi, Hj.
  rewrite !nth_map_Fin, map_neg_fin. rewrite Forall_forall in HC. split.
  - apply row_eqb_fin_false. intros E.
    destruct (Nat.lt_total i j) as [H|[H|H]]; [|contradiction|].
    + pose proof (StronglySorted_nth [] HS H Hj) as L.
      rewrite E in L. now apply lexR_irrefl in L.
    + pose proof (StronglySorted_nth [] HS H Hi) as L.
      rewrite E in L. now apply lexR_irrefl in L.
  - apply row_eqb_fin_false. apply canonR_not_opp; apply HC, nth_In; assumption.
Qed.

End CandidateRowsClaims.

Lemma Forall_forallb {A : Type} (p : A -> bool) (l : list A) :
  forallb p l = true <-> Forall (fun x => p x = true) l.
Proof. now rewrite forallb_forall, Forall_forall. Qed.

Section StatementDeciders.
Context {T : Type} `{Sc : Scalar T}.

Lemma zero_rows_filteredb_spec (n : nat) :
  zero_rows_filteredb n = true -> zero_rows_filtered n.
Proof.
  unfold zero_rows_filteredb, zero_rows_filtered.
  rewrite !andb_true_iff, !forallb_forall. intros [[H1 H2] H3]. repeat split.
  - specialize (H1 row H). apply Forall_forallb in H0. rewrite H0 in H1.
    now apply Forall_forallb.
  - intros Hin. apply normalized_rows_not_all_nan in Hin.
    specialize (H1 row H). apply Forall_forallb in H0. rewrite H0 in H1.
    simpl in H1. congruence.
  - intros row Hrow. now apply nan_freeb_spec, H2.
  - intros rows E. rewrite E in H3. apply Forall_forall. intros row Hrow.
    rewrite forallb_forall in H3. now apply nan_freeb_spec, H3.
Qed.

Lemma fix_row_signs_safeb_spec (n : nat) :
  fix_row_signs_safeb n = true -> fix_row_signs_safe n.
Proof.
  unfold fix_row_signs_safeb, fix_row_signs_safe.
  rewrite andb_true_iff, forallb_forall. intros [H1 H2]. split.
  - intros row Hrow. specialize (H1 row Hrow).
    apply andb_true_iff in H1 as [Hx Hf]. split.
    + now apply existsb_exists in Hx.
    + destruct (fix_row_sign row) as [row'|]; [now exists row'|discriminate].
  - destruct (candidate_rows n) as [rows|]; [now exists rows|discriminate].
Qed.

Lemma canonical_resultb_spec (n : nat) :
  canonical_resultb n = true -> canonical_result n.
Proof.
  unfold canonical_resultb, canonical_result. intros H rows E.
  rewrite E in H. apply andb_true_iff in H as [H1 H2]. split.
  - now apply distinct_up_to_signb_spec.
  - apply Forall_forall. intros row Hrow. rewrite forallb_forall in H2.
    now apply sign_canonicalb_spec, H2.
Qed.
End StatementDeciders.

(** ** The candidate rows in exact arithmetic *)

Section CandidateRowsTheorems.
Local Open Scope R_scope.

Lemma small_cases (n : nat) : (1 <= n <= 3)%nat -> n = 1%nat \/ n = 2%nat \/ n = 3%nat.
Proof. lia. Qed.


Lemma fix_row_signs_safe_exact (n : nat) :
  (1 <= n)%nat -> fix_row_signs_safe (Sc := xreal_scalar) n.
Proof.
  intros Hn. assert (Hn' : (0 < n)%nat) by lia. split.
  - intros row Hrow.
    destruct (unique_normalized_rows_exact Hn') as [U [EU [_ IU]]].
    rewrite EU in Hrow. apply in_map_iff in Hrow as [u [<- Hu]].
    apply IU, normalized_rowsR_unit in Hu as [_ Hs].
    destruct (unit_has_nonzero u Hs) as [i Hi]. split.
    + destruct (@find_index_Some R 0 nzR u i Hi) as [Hlt [Hnz _]].
      exists (Fin (nth i u 0)). split.
      * apply in_map, nth_In, Hlt.
      * exact Hnz.
    + rewrite fix_row_sign_fin, Hi. eauto.
  - destruct (candidate_rows_exact Hn') as [C [EC _]]. eauto.
Qed.

Lemma canonical_result_exact (n : nat) :
  (1 <= n)%nat -> canonical_result (Sc := xreal_scalar) n.
Proof.
  intros Hn rows E. assert (Hn' : (0 < n)%nat) by lia.
  destruct (candidate_rows_exact Hn') as [C [EC [_ [SC HC]]]].
  rewrite EC in E. injection E as <-.
  assert (HF : Forall canonR C).
  { apply Forall_forall. intros w Hw. now apply HC. }
  split.
  - now apply distinct_up_to_sign_fin.
  - rewrite Forall_map. eapply Forall_impl; [|exact HF].
    intros w. apply sign_canonical_fin.
Qed.

End CandidateRowsTheorems.

(** ** The evaluation matrix: claim C9 *)

Section HalfSet.

Lemma NoDup_product {A : Type} (lo hi : A) (n : nat) :
  lo <> hi -> NoDup (product [lo; hi] n).
Proof.
  intros Hne. induction n as [|n IH]; [repeat constructor; easy|].
  rewrite product_S.
  assert (Hinj : forall a : A, NoDup (map (cons a) (product [lo; hi] n))).
  { intros a. apply Injective_map_NoDup; [|assumption].
    intros x y E. now injection E. }
  apply NoDup_app; auto.
  intros v H1 H2. apply in_map_iff in H1 as [v1 [<- _]].
  apply in_map_iff in H2 as [v2 [E _]]. congruence.
Qed.

Lemma half_set_eq (n : nat) :
  1 <= n -> half_set n = map (cons (-1)%Z) (sign_vectors (n - 1)).
Proof.
  intros Hn. unfold half_set, sign_vectors.
  destruct n as [|m]; [lia|]. replace (S m - 1) with m by lia.
  rewrite product_S, firstn_app, length_map, length_product.
  rewrite Nat.sub_diag, firstn_O, app_nil_r.
  apply firstn_all2. now rewrite length_map, length_product.
Qed.

Lemma in_sign_vectors (n : nat) (v : list Z) :
  In v (sign_vectors n) <->
  length v = n /\ Forall (fun x => x = (-1)%Z \/ x = 1%Z) v.
Proof. apply in_product. Qed.

Lemma in_half_set (n : nat) (v : list Z) :
  1 <= n -> In v (sign_vectors n) ->
  (In v (half_set n) <-> hd 0%Z v = (-1)%Z).
Proof.
  intros Hn Hv. rewrite half_set_eq by assumption. split.
  - intros H. apply in_map_iff in H as [w [<- _]]. reflexivity.
  - intros Hhd. apply in_sign_vectors in Hv as [Hl HF].
    destruct v as [|x v]; [simpl in Hl; lia|]. simpl in Hhd. subst x.
    apply in_map, in_sign_vectors. apply Forall_cons_iff in HF as [_ HF].
    simpl in Hl. split; [lia|assumption].
Qed.

Lemma opp_sign_vector (n : nat) (v : list Z) :
  In v (sign_vectors n) -> In (map Z.opp v) (sign_vectors n).
Proof.
  rewrite !in_sign_vectors. intros [Hl HF]. split; [now rewrite length_map|].
  rewrite Forall_map. eapply Forall_impl; [|exact HF].
  intros x [-> | ->]; simpl; auto.
Qed.

Lemma half_set_antipodal (n : nat) (v : list Z) :
  1 <= n -> In v (sign_vectors n) ->
  (In v (half_set n) /\ ~ In (map Z.opp v) (half_set n)) \/
  (~ In v (half_set n) /\ In (map Z.opp v) (half_set n)).
Proof.
  intros Hn Hv. pose proof (opp_sign_vector n v Hv) as Hv'.
  rewrite (@in_half_set n v Hn Hv), (@in_half_set n _ Hn Hv').
  apply in_sign_vectors in Hv as [Hl HF].
  destruct v as [|x v]; [simpl in Hl; lia|].
  apply Forall_cons_iff in HF as [[-> | ->] _]; simpl; [left|right]; split; lia.
Qed.

Lemma NoDup_half_set (n : nat) : 1 <= n -> NoDup (half_set n).
Proof.
  intros Hn. rewrite half_set_eq by assumption.
  apply Injective_map_NoDup.
  - intros x y E. now injection E.
  - apply NoDup_product. lia.
Qed.

Lemma length_half_set (n : nat) : 1 <= n -> length (half_set n) = 2 ^ (n - 1).
Proof.
  intros Hn. rewrite half_set_eq by assumption.
  unfold sign_vectors. now rewrite length_map, length_product.
Qed.

End HalfSet.

Section TransposeSlice.
Context {A : Type}.

Lemma transpose_eq (d : A) (c : nat) (M : list (list A)) :
  M <> [] -> rect c M -> transpose d M = map (column d M) (seq 0 c).
Proof.
  intros HM HR. destruct M as [|row M]; [easy|].
  apply Forall_cons_iff in HR as [<- _]. reflexivity.
Qed.

Lemma firstn_map_nth (d : A) (k : nat) (l : list A) :
  k <= length l -> map (fun j => nth j l d) (seq 0 k) = firstn k l.
Proof.
  intros Hk. rewrite <- (map_nth_seq d (firstn k l)).
  rewrite length_firstn, Nat.min_l by assumption.
  apply map_ext_in. intros j Hj. apply in_seq in Hj.
  rewrite nth_firstn. destruct (Nat.ltb_spec j k); [reflexivity|lia].
Qed.

End TransposeSlice.

Section TransposeSliceColumns.
Context {A : Type}.

(** The columns of [M.T[:, :k]] are the first [k] rows of [M]. *)
Lemma transpose_slice (d : A) (c k : nat) (M : list (list A)) :
  M <> [] -> rect c M -> 0 < c -> k <= length M ->
  transpose d (map (firstn k) (transpose d M)) = firstn k M.
Proof.
  intros HM HR Hc Hk.
  assert (HL : length (transpose d M) = c) by now apply length_transpose.
  assert (HRt : rect (length M) (transpose d M)) by apply rect_transpose.
  assert (HMt : transpose d M <> []).
  { intros E. rewrite E in HL. simpl in HL. lia. }
  rewrite (@transpose_eq _ d k (map (firstn k) (transpose d M))).
  - rewrite <- (@firstn_map_nth _ [] k M Hk).
    apply map_ext_in. intros j Hj. apply in_seq in Hj.
    unfold column. rewrite map_map.
    rewrite <- (@transpose_involutive _ d c M HM HR Hc) at 2.
    rewrite (@nth_transpose _ d (length M) (transpose d M) j HMt HRt ltac:(lia)).
    unfold column. apply map_ext. intros row.
    rewrite nth_firstn. destruct (Nat.ltb_spec j k); [reflexivity|lia].
  - intros E. apply map_eq_nil in E. contradiction.
  - unfold rect. rewrite Forall_map. eapply Forall_impl; [|exact HRt].
    intros row Hrow. simpl in Hrow. rewrite length_firstn. lia.
Qed.
End TransposeSliceColumns.

(** C9.  For every n >= 1, the columns of the evaluation matrix
    [vectors(n)[:, :2**(n-1)]] are the first 2^(n-1) sign vectors of the
    enumeration; these are exactly the sign vectors whose first coordinate
    is -1, they are pairwise different, and of each antipodal pair {v, -v}
    exactly one member is among them. *)
Theorem binary_vectors_half_set (T : Type) (Sc : Scalar T) (n : nat) :
  1 <= n ->
  transpose zero (binary_vectors n) = map (map of_int) (half_set n) /\
  length (half_set n) = 2 ^ (n - 1) /\
  NoDup (half_set n) /\
  forall v, In v (sign_vectors n) ->
    (In v (half_set n) <-> hd 0%Z v = (-1)%Z) /\
    ((In v (half_set n) /\ ~ In (map Z.opp v) (half_set n)) \/
     (~ In v (half_set n) /\ In (map Z.opp v) (half_set n))).
Proof.
  intros Hn. repeat split.
  - unfold binary_vectors, vectors, half_set, sign_vectors.
    rewrite <- firstn_map. apply transpose_slice with (c := n).
    + intros E. apply map_eq_nil in E. now apply product_not_nil in E.
    + apply rect_map_map, rect_product.
    + lia.
    + rewrite length_map, length_product.
      apply Nat.pow_le_mono_r; lia.
  - now apply length_half_set.
  - now apply NoDup_half_set.
  - now apply in_half_set.
  - now apply in_half_set.
  - now apply half_set_antipodal.
Qed.

Lemma binary_vectors_half_set_witness :
  1 <= 3 /\
  transpose zero (binary_vectors (Sc := float32) 3) =
  map (map of_int) (half_set 3).
Proof.
  assert (H : 1 <= 3) by lia. split; [exact H|].
  exact (proj1 (binary_vectors_half_set float32 H)).
Defined.

(** ** The enumeration of combinations: claims C2, C7 and C8 *)

(** C2.  For every list of rows and every r, the loop enumerates
    [binom (length rows) r] combinations, the binomial coefficient
    |rows|! / (r! (|rows| - r)!); they are pairwise different, they come in
    lexicographic order, and each one is a strictly increasing r-tuple of
    indices into the rows.  For n = 3 the notebook has 25 candidate rows,
    and r = 3 gives 2300 combinations. *)
Theorem combinations_enumerated :
  (forall (T : Type) (rows : list (list T)) (r : nat),
     let cs := generate_combinations (elements rows) r in
     length cs = binom (length rows) r /\
     (r <= length rows ->
      binom (length rows) r * (fact r * fact (length rows - r)) =
      fact (length rows)) /\
     NoDup cs /\
     StronglySorted lex_lt cs /\
     Forall (fun c => length c = r /\ StronglySorted lt c /\
                      Forall (fun i => i < length rows) c) cs) /\
  (exists rows, candidate_rows (Sc := float32) 3 = Ok rows /\
                length rows = 25 /\
                length (generate_combinations (elements rows) 3) = 2300).
Proof.
  split.
  - intros T rows r cs. subst cs. unfold generate_combinations, elements.
    assert (HS : StronglySorted lex_lt (combinations (seq 0 (length rows)) r))
      by apply combinations_lex_sorted, seq_StronglySorted.
    repeat split.
    + now rewrite length_combinations, length_seq.
    + apply binom_fact.
    + eapply StronglySorted_NoDup; [apply lex_lt_irrefl|exact HS].
    + exact HS.
    + apply Forall_forall. intros c Hc. repeat split.
      * eapply in_combinations_length; eassumption.
      * eapply in_combinations_sorted; [apply seq_StronglySorted|eassumption].
      * apply Forall_forall. intros i Hi.
        apply (in_combinations_incl _ _ _ Hc) in Hi. apply in_seq in Hi. lia.
  - eexists. split; [vm_compute; reflexivity|]. split; vm_compute; reflexivity.
Qed.

Lemma generate_combinations_nil {T : Type} (rows : list (list T)) (r : nat) :
  length rows < r -> generate_combinations (elements rows) r = [].
Proof.
  intros H. unfold generate_combinations, elements.
  apply combinations_nil. now rewrite length_seq.
Qed.

Lemma search_no_combination {T : Type} `{Sc : Scalar T}
      (rows bv : list (list T)) (r : nat) :
  generate_combinations (elements rows) r = [] ->
  search rows bv r = Ok initial_state.
Proof. intros E. unfold search. now rewrite E. Qed.

(** C7.  When r exceeds the number of rows there is no combination: the
    loop body never runs and the search returns its initial state,
    [beta_max = 0] and [best_A = None], without raising. *)
Theorem search_empty (T : Type) (Sc : Scalar T) (rows bv : list (list T)) (r : nat) :
  length rows < r ->
  generate_combinations (elements rows) r = [] /\
  search rows bv r = Ok {| beta_max := zero; best_A := None |}.
Proof.
  intros H. pose proof (generate_combinations_nil rows H) as E.
  split; [exact E|]. now apply search_no_combination.
Qed.

Lemma search_empty_witness :
  length [[Float32.of_Z 1]] < 2 /\
  search (Sc := float32) [[Float32.of_Z 1]] (binary_vectors 1) 2 =
  Ok {| beta_max := zero; best_A := None |}.
Proof.
  assert (H : length [[Float32.of_Z 1]] < 2) by (simpl; lia).
  split; [exact H|].
  exact (proj2 (search_empty float32 _ (binary_vectors 1) H)).
Defined.

(** C8, as stated, fails: with n = 1 there is one candidate row, r = 2 is
    larger, and the notebook runs to the end of the loop and returns the
    initial state instead of rejecting the input. *)
Lemma notebook_accepts_invalid_input :
  invalid_input (Sc := float32) 1 2 /\
  notebook (Sc := float32) 1 2 = Ok initial_state /\
  ~ (forall n r, invalid_input (Sc := float32) n r ->
                 exists e, notebook (Sc := float32) n r = Raise e).
Proof.
  assert (HI : invalid_input (Sc := float32) 1 2).
  { right. right. eexists. split; [vm_compute; reflexivity|]. simpl. lia. }
  assert (HN : notebook (Sc := float32) 1 2 = Ok initial_state)
    by (vm_compute; reflexivity).
  repeat split; try assumption.
  intros H. destruct (H 1 2 HI) as [e He]. rewrite HN in He. discriminate.
Qed.

Lemma candidate_rows_0 (T : Type) (Sc : Scalar T) :
  candidate_rows 0 = Raise RuntimeError.
Proof. reflexivity. Qed.

Lemma search_r_0 (T : Type) (Sc : Scalar T) (rows bv : list (list T)) :
  search rows bv 0 = Raise IndexError.
Proof.
  unfold search, generate_combinations.
  now destruct (elements rows).
Qed.

(** C8, amended.  The notebook does not validate (n, r).  With n = 0 the
    candidate generation itself raises; with r = 0 the first iteration of
    the loop raises, after the candidate rows have been generated; with r
    above the number of candidate rows nothing raises and the initial
    state is returned. *)
Theorem notebook_invalid_input (T : Type) (Sc : Scalar T) (n r : nat) :
  (n = 0 -> notebook n r = Raise RuntimeError) /\
  (forall rows, candidate_rows n = Ok rows ->
     (r = 0 -> notebook n r = Raise IndexError) /\
     (length rows < r -> notebook n r = Ok initial_state)).
Proof.
  split.
  - intros ->. unfold notebook. now rewrite candidate_rows_0.
  - intros rows E. unfold notebook. rewrite E. cbn [bind]. split.
    + intros ->. apply search_r_0.
    + intros H. now apply search_no_combination, generate_combinations_nil.
Qed.

Lemma notebook_invalid_input_witness :
  notebook (Sc := float32) 0 1 = Raise RuntimeError /\
  notebook (Sc := float32) 1 0 = Raise IndexError /\
  notebook (Sc := float32) 1 2 = Ok initial_state.
Proof.
  assert (E : candidate_rows (Sc := float32) 1 = Ok [[Float32.of_Z 1]])
    by (vm_compute; reflexivity).
  split; [|split].
  - exact (proj1 (notebook_invalid_input float32 0 1) eq_refl).
  - exact (proj1 (proj2 (notebook_invalid_input float32 1 0) _ E) eq_refl).
  - apply (proj2 (proj2 (notebook_invalid_input float32 1 2) _ E)). simpl. lia.
Defined.

(** ** Folding a commutative, associative operation *)

Section FoldPermutation.
Context {X : Type}.
Variable f : X -> X -> X.
Variable Q : X -> Prop.
Hypothesis Q_closed : forall a b, Q a -> Q b -> Q (f a b).
Hypothesis f_comm : forall a b, Q a -> Q b -> f a b = f b a.
Hypothesis f_assoc : forall a b c, Q a -> Q b -> Q c -> f (f a b) c = f a (f b c).

Lemma fold_left_perm (l l' : list X) :
  Permutation l l' -> Forall Q l ->
  forall a, Q a -> fold_left f l a = fold_left f l' a.
Proof.
  induction 1 as [|x l l' HP IH|x y l|l l' l'' HP1 IH1 HP2 IH2];
    intros HQ a Ha; simpl.
  - reflexivity.
  - apply Forall_cons_iff in HQ as [Hx HQ]. apply IH; auto.
  - apply Forall_cons_iff in HQ as [Hy HQ].
    apply Forall_cons_iff in HQ as [Hx HQ].
    f_equal. rewrite !f_assoc by assumption. f_equal. now apply f_comm.
  - rewrite IH1 by assumption. apply IH2; [|assumption].
    rewrite Forall_forall in *. intros z Hz. apply HQ.
    eapply Permutation_in; [apply Permutation_sym; exact HP1|exact Hz].
Qed.

(** Folding from any element of a non-empty multiset gives one result. *)
Lemma fold_left_perm_head (x y : X) (l l' : list X) :
  Permutation (x :: l) (y :: l') -> Forall Q (x :: l) ->
  fold_left f l x = fold_left f l' y.
Proof.
  intros HP HQ. apply Forall_cons_iff in HQ as [Hx HQ].
  assert (Hy : In y (x :: l)).
  { eapply Permutation_in; [apply Permutation_sym; exact HP|now left]. }
  destruct Hy as [->|Hy].
  - apply Permutation_cons_inv in HP. now apply fold_left_perm.
  - apply in_split in Hy as [l1 [l2 ->]].
    assert (HQy : Q y).
    { rewrite Forall_forall in HQ. apply HQ, in_or_app. right. now left. }
    assert (HQ12 : Forall Q (l1 ++ l2)).
    { apply Forall_app in HQ as [H1 H2]. apply Forall_cons_iff in H2 as [_ H2].
      apply Forall_app. now split. }
    assert (HP' : Permutation (x :: l1 ++ l2) l').
    { apply Permutation_cons_inv with (a := y).
      eapply Permutation_trans; [|exact HP].
      eapply Permutation_trans; [apply perm_swap|].
      apply perm_skip. apply Permutation_middle. }
    rewrite (@fold_left_perm (l1 ++ y :: l2) (y :: l1 ++ l2)); auto.
    2:{ apply Permutation_sym, Permutation_middle. }
    rewrite <- (@fold_left_perm (x :: l1 ++ l2) l'); auto.
    simpl. f_equal. now apply f_comm.
Qed.
End FoldPermutation.

(** ** [torch.max] along dimension 0 does not depend on the row order *)

Section MaximumOrder.
Context {T : Type} `{Sc : Scalar T}.
Variable P : T -> Prop.
Hypothesis nan_unique :
  forall x y, P x -> P y -> isnan x = true -> isnan y = true -> x = y.
Hypothesis ltb_asym :
  forall x y, P x -> P y -> ltb x y = true -> ltb y x = false.
Hypothesis ltb_trans :
  forall x y z, P x -> P y -> P z ->
    ltb x y = true -> ltb y z = true -> ltb x z = true.
Hypothesis ltb_total :
  forall x y, P x -> P y -> isnan x = false -> isnan y = false ->
    ltb x y = false -> ltb y x = false -> x = y.

Lemma maximum_cases (x y : T) : maximum x y = x \/ maximum x y = y.
Proof.
  unfold maximum. destruct (isnan x); [now left|].
  destruct (isnan y); [now right|]. destruct (ltb x y); auto.
Qed.

Lemma maximum_P (x y : T) : P x -> P y -> P (maximum x y).
Proof. intros Hx Hy. destruct (maximum_cases x y) as [-> | ->]; assumption. Qed.

Lemma maximum_isnan (x y : T) :
  isnan (maximum x y) = isnan x || isnan y.
Proof.
  unfold maximum. destruct (isnan x) eqn:Ex; [now rewrite Ex|].
  destruct (isnan y) eqn:Ey; [now rewrite Ey|].
  destruct (ltb x y); simpl; congruence.
Qed.

Lemma maximum_comm (x y : T) : P x -> P y -> maximum x y = maximum y x.
Proof.
  intros Hx Hy. unfold maximum.
  destruct (isnan x) eqn:Ex, (isnan y) eqn:Ey; auto.
  destruct (ltb x y) eqn:Exy, (ltb y x) eqn:Eyx; auto.
  all: try (rewrite (ltb_asym Hx Hy Exy) in Eyx; discriminate).
  all: symmetry; now apply ltb_total.
Qed.

Lemma maximum_nan_l (x y : T) : isnan x = true -> maximum x y = x.
Proof. intros E. unfold maximum. now rewrite E. Qed.

Lemma maximum_nan_r (x y : T) :
  isnan x = false -> isnan y = true -> maximum x y = y.
Proof. intros Ex Ey. unfold maximum. now rewrite Ex, Ey. Qed.

Lemma maximum_ord (x y : T) :
  isnan x = false -> isnan y = false ->
  maximum x y = if ltb x y then y else x.
Proof. intros Ex Ey. unfold maximum. now rewrite Ex, Ey. Qed.

Lemma maximum_assoc (x y z : T) :
  P x -> P y -> P z ->
  maximum (maximum x y) z = maximum x (maximum y z).
Proof.
  intros Hx Hy Hz.
  destruct (isnan x) eqn:Ex.
  { now rewrite (maximum_nan_l x y Ex), !(maximum_nan_l x _ Ex). }
  destruct (isnan y) eqn:Ey.
  { rewrite (maximum_nan_r x y Ex Ey), (maximum_nan_l y z Ey).
    now rewrite (maximum_nan_r x y Ex Ey). }
  destruct (isnan z) eqn:Ez.
  { rewrite (maximum_nan_r y z Ey Ez), (maximum_nan_r x z Ex Ez).
    apply maximum_nan_r; [|assumption]. now rewrite maximum_isnan, Ex, Ey. }
  rewrite (maximum_ord x y Ex Ey), (maximum_ord y z Ey Ez).
  destruct (ltb x y) eqn:Exy, (ltb y z) eqn:Eyz;
    rewrite ?(maximum_ord x y Ex Ey), ?(maximum_ord y z Ey Ez),
            ?(maximum_ord x z Ex Ez), ?Exy, ?Eyz; try reflexivity.
  - now rewrite (ltb_trans Hx Hy Hz Exy Eyz).
  - destruct (ltb x z) eqn:Exz; [|reflexivity].
    destruct (ltb z y) eqn:Ezy.
    + rewrite (ltb_trans Hx Hz Hy Exz Ezy) in Exy. discriminate.
    + assert (y = z) by now apply ltb_total. subst z. congruence.
Qed.

Lemma map2_maximum_P (a b : list T) :
  rowP P a -> rowP P b -> rowP P (map2 maximum a b).
Proof.
  unfold rowP. intros Ha. revert b.
  induction Ha as [|x a Hx Ha IH]; intros [|y b] Hb; simpl; try constructor.
  - apply Forall_cons_iff in Hb as [Hy _]. now apply maximum_P.
  - apply Forall_cons_iff in Hb as [_ Hb]. now apply IH.
Qed.

Lemma map2_maximum_comm (a b : list T) :
  rowP P a -> rowP P b -> map2 maximum a b = map2 maximum b a.
Proof.
  unfold rowP. intros Ha. revert b.
  induction Ha as [|x a Hx Ha IH]; intros [|y b] Hb; simpl; try reflexivity.
  apply Forall_cons_iff in Hb as [Hy Hb].
  f_equal; [now apply maximum_comm|now apply IH].
Qed.

Lemma map2_maximum_assoc (a b c : list T) :
  rowP P a -> rowP P b -> rowP P c ->
  map2 maximum (map2 maximum a b) c = map2 maximum a (map2 maximum b c).
Proof.
  unfold rowP. intros Ha. revert b c.
  induction Ha as [|x a Hx Ha IH]; intros [|y b] [|z c] Hb Hc; simpl;
    try reflexivity.
  apply Forall_cons_iff in Hb as [Hy Hb].
  apply Forall_cons_iff in Hc as [Hz Hc].
  f_equal; [now apply maximum_assoc|now apply IH].
Qed.

Lemma max_dim0_perm (B B' : list (list T)) :
  Permutation B B' -> Forall (rowP P) B -> max_dim0 B' = max_dim0 B.
Proof.
  intros HP HB. destruct B as [|row rest], B' as [|row' rest'].
  - reflexivity.
  - now apply Permutation_nil in HP.
  - apply Permutation_sym in HP. now apply Permutation_nil in HP.
  - simpl. f_equal. symmetry.
    apply (@fold_left_perm_head _ (map2 maximum) (rowP P) map2_maximum_P
             map2_maximum_comm map2_maximum_assoc row row' rest rest' HP HB).
Qed.
End MaximumOrder.

(** ** Invariance of [beta] under row permutation and row negation *)

Section BetaInvariance.
Context {T : Type} `{Sc : Scalar T}.

(** The order of the elements, on the values that [abs] returns. *)
Variable P : T -> Prop.
Hypothesis abs_P : forall x, P (abs x).
Hypothesis nan_unique :
  forall x y, P x -> P y -> isnan x = true -> isnan y = true -> x = y.
Hypothesis ltb_asym :
  forall x y, P x -> P y -> ltb x y = true -> ltb y x = false.
Hypothesis ltb_trans :
  forall x y z, P x -> P y -> P z ->
    ltb x y = true -> ltb y z = true -> ltb x z = true.
Hypothesis ltb_total :
  forall x y, P x -> P y -> isnan x = false -> isnan y = false ->
    ltb x y = false -> ltb y x = false -> x = y.

(** [rel s s']: the partial sums [s] for a row and [s'] for its negation. *)
Variable rel : T -> T -> Prop.
Hypothesis rel_zero : rel zero zero.
Hypothesis rel_step :
  forall s s' a b, rel s s' -> rel (add s (mul a b)) (add s' (mul (neg a) b)).
Hypothesis rel_abs : forall x y, rel x y -> abs y = abs x.

Lemma beta_permutation (A A' bv : list (list T)) :
  Permutation A A' -> beta A' bv = beta A bv.
Proof.
  intros HP. unfold beta.
  rewrite (@max_dim0_perm T Sc P nan_unique ltb_asym ltb_trans ltb_total
             (map (map abs) (matmul A bv)) (map (map abs) (matmul A' bv))).
  - reflexivity.
  - unfold matmul. now do 2 apply Permutation_map.
  - rewrite Forall_map. apply Forall_forall. intros row _.
    unfold rowP. rewrite Forall_map. apply Forall_forall. intros x _.
    apply abs_P.
Qed.

Lemma vecmat_step_rel (a : T) (acc acc' brow : list T) :
  Forall2 rel acc acc' ->
  Forall2 rel (map2 (fun s b => add s (mul a b)) acc brow)
              (map2 (fun s b => add s (mul (neg a) b)) acc' brow).
Proof.
  intros H. revert brow. induction H as [|s s' acc acc' Hs H IH];
    intros [|b brow]; simpl; constructor; auto.
Qed.

Lemma vecmat_neg_rel (a : list T) (B : list (list T)) :
  Forall2 rel (vecmat a B) (vecmat (map neg a) B).
Proof.
  unfold vecmat.
  assert (H0 : Forall2 rel (repeat zero (length (hd [] B)))
                           (repeat zero (length (hd [] B)))).
  { induction (length (hd [] B)); simpl; constructor; auto. }
  revert H0.
  generalize (repeat zero (length (hd [] B))) at 1 3.
  generalize (repeat zero (length (hd [] B))).
  revert B. induction a as [|x a IH]; intros [|brow B] acc' acc H;
    cbn [map combine fold_left fst snd]; auto.
  apply IH. now apply vecmat_step_rel.
Qed.

Lemma vecmat_neg_abs (a : list T) (B : list (list T)) :
  map abs (vecmat (map neg a) B) = map abs (vecmat a B).
Proof.
  pose proof (vecmat_neg_rel a B) as H.
  induction H as [|s s' l l' Hs H IH]; simpl; [reflexivity|].
  f_equal; [now apply rel_abs|exact IH].
Qed.

Lemma beta_negation (A1 A2 : list (list T)) (a : list T) (bv : list (list T)) :
  beta (A1 ++ map neg a :: A2) bv = beta (A1 ++ a :: A2) bv.
Proof.
  unfold beta, matmul. rewrite !map_app. cbn [map].
  now rewrite vecmat_neg_abs.
Qed.
End BetaInvariance.

(** *** Exact arithmetic *)

Section XRealOrder.
Local Open Scope R_scope.

Ltac xreal_cases :=
  unfold Rltb, Reqb in *;
  repeat match goal with
         | |- context [Rlt_dec ?a ?b] => destruct (Rlt_dec a b)
         | H : context [Rlt_dec ?a ?b] |- _ => destruct (Rlt_dec a b)
         | |- context [Req_dec_T ?a ?b] => destruct (Req_dec_T a b)
         | H : context [Req_dec_T ?a ?b] |- _ => destruct (Req_dec_T a b)
         | b : bool |- _ => destruct b
         end;
  simpl in *; try discriminate; try reflexivity; try lra;
  try (f_equal; lra).

Lemma xreal_nan_unique (x y : xreal) :
  isnan x = true -> isnan y = true -> x = y.
Proof. destruct x, y; simpl; congruence. Qed.

Lemma xltb_asym (x y : xreal) : xltb x y = true -> xltb y x = false.
Proof. destruct x, y; simpl; intros; xreal_cases. Qed.

Lemma xltb_trans (x y z : xreal) :
  xltb x y = true -> xltb y z = true -> xltb x z = true.
Proof. destruct x, y, z; simpl; intros; xreal_cases. Qed.

Lemma xltb_total (x y : xreal) :
  isnan x = false -> isnan y = false ->
  xltb x y = false -> xltb y x = false -> x = y.
Proof. destruct x, y; simpl; intros; xreal_cases. Qed.

Lemma xneg_add (x y : xreal) : xadd (xneg x) (xneg y) = xneg (xadd x y).
Proof. destruct x, y; simpl; xreal_cases. Qed.

Lemma xmul_neg_l (x y : xreal) : xmul (xneg x) y = xneg (xmul x y).
Proof. destruct x, y; simpl; xreal_cases. Qed.

Lemma xabs_neg (x : xreal) : xabs (xneg x) = xabs x.
Proof. destruct x; simpl; try reflexivity. now rewrite Rabs_Ropp. Qed.

Lemma beta_invariant_exact : beta_invariant (Sc := xreal_scalar).
Proof.
  split.
  - intros A A' bv. apply (@beta_permutation xreal xreal_scalar (fun _ => True)).
    + easy.
    + intros x y _ _. apply xreal_nan_unique.
    + intros x y _ _. apply xltb_asym.
    + intros x y z _ _ _. apply xltb_trans.
    + intros x y _ _. apply xltb_total.
  - intros A1 A2 a bv.
    apply (@beta_negation xreal xreal_scalar xreal_opp_rel).
    + unfold xreal_opp_rel. simpl. f_equal. lra.
    + unfold xreal_opp_rel. intros s s' x b ->. simpl.
      now rewrite xmul_neg_l, xneg_add.
    + unfold xreal_opp_rel. intros x y ->. apply xabs_neg.
Qed.

End XRealOrder.

(** *** Binary32 *)

Section Float32Order.

Ltac compare_cases :=
  repeat match goal with
         | |- context [Z.compare ?a ?b] => destruct (Z.compare_spec a b)
         | H : context [Z.compare ?a ?b] |- _ => destruct (Z.compare_spec a b)
         | |- context [Pos.compare_cont Eq ?a ?b] =>
             change (Pos.compare_cont Eq a b) with (Pos.compare a b)
         | H : context [Pos.compare_cont Eq ?a ?b] |- _ =>
             change (Pos.compare_cont Eq a b) with (Pos.compare a b) in H
         | |- context [Pos.compare ?a ?b] => destruct (Pos.compare_spec a b)
         | H : context [Pos.compare ?a ?b] |- _ => destruct (Pos.compare_spec a b)
         end;
  subst; simpl in *; try discriminate; try reflexivity; try lia.

Ltac abs_value H :=
  unfold float32_abs_value in H; simpl in H; try discriminate H;
  try (injection H as ->).

Lemma float32_abs_abs (x : spec_float) : float32_abs_value (SFabs x).
Proof. destruct x; reflexivity. Qed.

Lemma float32_nan_unique (x y : spec_float) :
  Float32.is_nan x = true -> Float32.is_nan y = true -> x = y.
Proof. destruct x, y; simpl; congruence. Qed.

Lemma SFltb_asym (x y : spec_float) :
  float32_abs_value x -> float32_abs_value y ->
  SFltb x y = true -> SFltb y x = false.
Proof.
  intros Hx Hy. destruct x, y; abs_value Hx; abs_value Hy;
    unfold SFltb; simpl; try discriminate; try reflexivity.
  intros H. compare_cases.
Qed.

Lemma SFltb_trans (x y z : spec_float) :
  float32_abs_value x -> float32_abs_value y -> float32_abs_value z ->
  SFltb x y = true -> SFltb y z = true -> SFltb x z = true.
Proof.
  intros Hx Hy Hz. destruct x, y, z; abs_value Hx; abs_value Hy; abs_value Hz;
    unfold SFltb; simpl; try discriminate; try reflexivity.
  intros H1 H2. compare_cases.
Qed.

Lemma SFltb_total (x y : spec_float) :
  float32_abs_value x -> float32_abs_value y ->
  Float32.is_nan x = false -> Float32.is_nan y = false ->
  SFltb x y = false -> SFltb y x = false -> x = y.
Proof.
  intros Hx Hy. destruct x, y; abs_value Hx; abs_value Hy;
    unfold SFltb; simpl; try discriminate; try reflexivity.
  intros _ _ H1 H2. compare_cases.
Qed.

Lemma binary_round_aux_opp (s : bool) (m e : Z) (l : location) :
  binary_round_aux Float32.prec Float32.emax (negb s) m e l =
  SFopp (binary_round_aux Float32.prec Float32.emax s m e l).
Proof.
  unfold binary_round_aux.
  destruct (shr_fexp Float32.prec Float32.emax m e l) as [mrs e'].
  destruct (shr_fexp Float32.prec Float32.emax _ e' loc_Exact) as [mrs' e''].
  destruct (shr_m mrs'); simpl; try reflexivity.
  destruct (Z.leb e'' _); reflexivity.
Qed.

Lemma SFmul_opp_l (x y : spec_float) :
  SFmul Float32.prec Float32.emax (SFopp x) y =
  SFopp (SFmul Float32.prec Float32.emax x y).
Proof.
  destruct x, y; simpl; try reflexivity;
    rewrite <- ?negb_xorb_l; try reflexivity.
  apply binary_round_aux_opp.
Qed.

Lemma binary_normalize_opp (m e : Z) :
  m <> 0%Z ->
  binary_normalize Float32.prec Float32.emax (- m) e false =
  SFopp (binary_normalize Float32.prec Float32.emax m e false).
Proof.
  intros Hm. destruct m as [|p|p]; [easy| |]; simpl; unfold binary_round;
    destruct (shl_align _ _ _) as [mz ez].
  - apply (binary_round_aux_opp false).
  - rewrite <- (binary_round_aux_opp true). reflexivity.
Qed.

Lemma cond_Zopp_negb (s : bool) (z : Z) :
  cond_Zopp (negb s) z = (- cond_Zopp s z)%Z.
Proof. destruct s; simpl; lia. Qed.

Lemma SFadd_opp (x y : spec_float) :
  float32_opp_rel (SFadd Float32.prec Float32.emax x y)
                  (SFadd Float32.prec Float32.emax (SFopp x) (SFopp y)).
Proof.
  unfold float32_opp_rel.
  destruct x as [sx|sx| |sx mx ex], y as [sy|sy| |sy my ey]; simpl;
    try (left; reflexivity);
    try (destruct sx, sy; simpl; auto; fail).
  rewrite !cond_Zopp_negb, <- Z.opp_add_distr.
  set (sum := (cond_Zopp sx _ + cond_Zopp sy _)%Z).
  destruct (Z.eq_dec sum 0) as [E|E].
  - rewrite E. simpl. now right.
  - left. now apply binary_normalize_opp.
Qed.

Lemma SFadd_zeros (x x' q : spec_float) :
  is_zero32 x = true -> is_zero32 x' = true ->
  float32_opp_rel (SFadd Float32.prec Float32.emax x q)
                  (SFadd Float32.prec Float32.emax x' (SFopp q)).
Proof.
  unfold float32_opp_rel.
  destruct x as [sx| | |], x' as [sx'| | |]; try discriminate. intros _ _.
  destruct q as [sq|sq| |sq mq eq]; simpl; try (left; reflexivity).
  destruct sx, sx', sq; simpl; auto.
Qed.

Lemma float32_opp_rel_step (s s' a b : spec_float) :
  float32_opp_rel s s' ->
  float32_opp_rel (add s (mul a b)) (add s' (mul (neg a) b)).
Proof.
  intros H. simpl. rewrite SFmul_opp_l.
  destruct H as [->|[Hz Hz']].
  - apply SFadd_opp.
  - now apply SFadd_zeros.
Qed.

Lemma float32_opp_rel_abs (x y : spec_float) :
  float32_opp_rel x y -> SFabs y = SFabs x.
Proof.
  intros [->|[Hx Hy]].
  - now destruct x.
  - destruct x, y; try discriminate. reflexivity.
Qed.

Lemma beta_invariant_float32 : beta_invariant (Sc := float32).
Proof.
  split.
  - intros A A' bv.
    apply (@beta_permutation spec_float float32 float32_abs_value).
    + apply float32_abs_abs.
    + intros x y _ _. apply float32_nan_unique.
    + apply SFltb_asym.
    + apply SFltb_trans.
    + apply SFltb_total.
  - intros A1 A2 a bv.
    apply (@beta_negation spec_float float32 float32_opp_rel).
    + right. split; reflexivity.
    + apply float32_opp_rel_step.
    + apply float32_opp_rel_abs.
Qed.

End Float32Order.

(** C5.  [beta] does not change when the rows of the matrix are permuted,
    and does not change when one row is negated, for every matrix and
    every evaluation matrix: in exact arithmetic and in binary32. *)
Theorem beta_row_permutation_and_negation :
  beta_invariant (Sc := xreal_scalar) /\ beta_invariant (Sc := float32).
Proof. split; [apply beta_invariant_exact|apply beta_invariant_float32]. Qed.

(** ** [beta] in exact arithmetic *)

Section BetaExact.
Local Open Scope R_scope.

Lemma maximum_fin (a b : R) : maximum (Fin a) (Fin b) = Fin (Rmax a b).
Proof.
  unfold maximum. simpl. unfold Rmax.
  destruct (Rltb a b) eqn:E.
  - apply Rltb_true in E. destruct (Rle_dec a b); [reflexivity|lra].
  - apply Rltb_false in E. destruct (Rle_dec a b); [f_equal; lra|reflexivity].
Qed.

Lemma map2_maximum_fin (a b : list R) :
  map2 maximum (map Fin a) (map Fin b) = map Fin (map2 Rmax a b).
Proof.
  revert b. induction a as [|x a IH]; intros [|y b]; simpl; auto.
  now rewrite maximum_fin, IH.
Qed.

Lemma max_dim0_fin (B : list (list R)) :
  B <> [] -> max_dim0 (map (map Fin) B) = Ok (map Fin (max_dim0R B)).
Proof.
  destruct B as [|row rest]; [easy|]. intros _. simpl. f_equal.
  revert row. induction rest as [|r rest IH]; intros row; simpl; [reflexivity|].
  rewrite map2_maximum_fin. apply IH.
Qed.

Lemma matmul_fin (A bv : list (list R)) :
  matmul (map (map Fin) A) (map (map Fin) bv) =
  map (map Fin) (map (fun a => vecmatR a bv) A).
Proof.
  unfold matmul. rewrite !map_map. apply map_ext. intros a. apply vecmat_fin.
Qed.

Lemma map_abs_fin (B : list (list R)) :
  map (map abs) (map (map Fin) B) = map (map Fin) (map (map Rabs) B).
Proof.
  rewrite !map_map. apply map_ext. intros row. now rewrite !map_map.
Qed.

Lemma mean_fin (v : list R) :
  v <> [] -> mean (map Fin v) = Fin (meanR v).
Proof.
  intros Hv. unfold mean, meanR. rewrite sum_fin, length_map. simpl.
  assert (E : Reqb (IZR (Z.of_nat (length v))) 0 = false).
  { apply Reqb_false. apply not_0_IZR. destruct v; [easy|]. simpl length. lia. }
  now rewrite E.
Qed.

Lemma beta_fin (A bv : list (list R)) :
  A <> [] ->
  max_dim0R (map (map Rabs) (map (fun a => vecmatR a bv) A)) <> [] ->
  beta (map (map Fin) A) (map (map Fin) bv) = Ok (Fin (betaR A bv)).
Proof.
  intros HA Hm. unfold beta. rewrite matmul_fin, map_abs_fin.
  rewrite max_dim0_fin.
  - cbn [bind]. now rewrite mean_fin.
  - intros E. apply map_eq_nil in E. apply map_eq_nil in E. contradiction.
Qed.

Lemma transpose_map {A B : Type} (f : A -> B) (d : A) (M : list (list A)) :
  transpose (f d) (map (map f) M) = map (map f) (transpose d M).
Proof.
  destruct M as [|row M]; [reflexivity|].
  unfold transpose. cbn [map]. rewrite length_map, map_map.
  apply map_ext. intros j. unfold column.
  change (map f row :: map (map f) M) with (map (map f) (row :: M)).
  rewrite !map_map. apply map_ext. intros r. apply map_nth.
Qed.

Lemma binary_vectors_xreal (n : nat) :
  binary_vectors n = map (map Fin) (binary_vectorsR n).
Proof.
  unfold binary_vectors, binary_vectorsR, vectors.
  replace (map (map of_int) (product [(-1)%Z; 1%Z] n))
    with (map (map Fin) (map (map IZR) (product [(-1)%Z; 1%Z] n))).
  2:{ rewrite map_map. apply map_ext. intros v. now rewrite map_map. }
  rewrite zero_xreal, transpose_map, !map_map.
  apply map_ext. intros row. now rewrite firstn_map.
Qed.

End BetaExact.

(** ** Positivity of [beta] on non-zero rows *)

Section BetaPositive.
Local Open Scope R_scope.

Lemma dotR_cons (x y : R) (a b : list R) :
  dotR (x :: a) (y :: b) = x * y + dotR a b.
Proof. unfold dotR. simpl. apply sumR_cons. Qed.

Lemma dotR_nil_l (b : list R) : dotR [] b = 0.
Proof. reflexivity. Qed.

Lemma dotR_nil_r (a : list R) : dotR a [] = 0.
Proof. destruct a; reflexivity. Qed.

Lemma nth_map2 {A B C : Type} (f : A -> B -> C) (da : A) (db : B) (dc : C)
      (a : list A) (b : list B) (j : nat) :
  (j < length a)%nat -> (j < length b)%nat ->
  nth j (map2 f a b) dc = f (nth j a da) (nth j b db).
Proof.
  revert a b. induction j as [|j IH]; intros [|x a] [|y b] Ha Hb;
    simpl in *; try lia; auto.
  apply IH; lia.
Qed.

(** Entry [j] of a row of the product is the dot product with column [j]. *)
Lemma vecmatR_fold_nth (c j : nat) (a : list R) (B : list (list R)) (acc : list R) :
  rect c B -> length acc = c -> (j < c)%nat ->
  nth j (fold_left (fun acc p => map2 (fun s b => s + fst p * b) acc (snd p))
                   (combine a B) acc) 0 =
  nth j acc 0 + dotR a (column 0 B j).
Proof.
  revert B acc. induction a as [|x a IH]; intros [|brow B] acc HR Hacc Hj;
    cbn [combine fold_left fst snd column map].
  - rewrite dotR_nil_l. lra.
  - rewrite dotR_nil_l. lra.
  - rewrite dotR_nil_r. lra.
  - apply Forall_cons_iff in HR as [Hb HR].
    fold (column 0 B j). rewrite dotR_cons.
    rewrite IH; [|assumption|rewrite length_map2; lia|assumption].
    rewrite (@nth_map2 _ _ _ (fun s b => s + x * b) 0 0 0) by lia.
    lra.
Qed.

Lemma vecmatR_nth (c j : nat) (a : list R) (B : list (list R)) :
  B <> [] -> rect c B -> (j < c)%nat ->
  nth j (vecmatR a B) 0 = dotR a (column 0 B j).
Proof.
  intros HB HR Hj. unfold vecmatR.
  assert (Hc : length (hd [] B) = c).
  { destruct B; [easy|]. now apply Forall_cons_iff in HR as [? _]. }
  rewrite (@vecmatR_fold_nth c j); auto.
  - rewrite Hc, nth_repeat. lra.
  - now rewrite repeat_length.
Qed.

(** A non-zero row has a non-zero dot product with some sign vector whose
    first coordinate is -1. *)
Lemma exists_sign (a : list R) (c : R) :
  c <> 0 \/ Exists (fun x => x <> 0) a ->
  exists v, In v (sign_vectors (length a)) /\ c + dotR a (map IZR v) <> 0.
Proof.
  revert c. induction a as [|x a IH]; intros c H.
  - exists []. split; [now left|]. rewrite dotR_nil_l.
    destruct H as [H|H]; [lra|inversion H].
  - assert (Hs : exists s : Z, (s = -1 \/ s = 1)%Z /\
                   (c + x * IZR s <> 0 \/ Exists (fun x => x <> 0) a)).
    { destruct H as [H|H].
      - destruct (Req_dec_T (c + x * -1) 0) as [E|E].
        + exists 1%Z. split; [now right|]. left. lra.
        + exists (-1)%Z. split; [now left|]. now left.
      - apply Exists_cons in H as [H|H].
        + destruct (Req_dec_T (c + x * -1) 0) as [E|E].
          * exists 1%Z. split; [now right|]. left. lra.
          * exists (-1)%Z. split; [now left|]. now left.
        + exists 1%Z. split; [now right|]. now right. }
    destruct Hs as [s [Hs Hc]].
    destruct (IH (c + x * IZR s) Hc) as [v [Hv Hne]].
    exists (s :: v). split.
    + unfold sign_vectors in *. cbn [length]. rewrite product_S.
      apply in_or_app. destruct Hs as [-> | ->]; [left|right]; now apply in_map.
    + cbn [map]. rewrite dotR_cons. lra.
Qed.

Lemma exists_half_set (n : nat) (a : list R) :
  length a = n -> Exists (fun x => x <> 0) a ->
  exists v, In v (half_set n) /\ dotR a (map IZR v) <> 0.
Proof.
  intros Hl Ha. destruct a as [|x a]; [inversion Ha|].
  simpl in Hl. subst n.
  rewrite half_set_eq by lia. replace (S (length a) - 1)%nat with (length a) by lia.
  destruct (@exists_sign a (x * -1)) as [v [Hv Hne]].
  - apply Exists_cons in Ha as [Ha|Ha]; [left; lra|now right].
  - exists ((-1)%Z :: v). split; [now apply in_map|].
    cbn [map]. rewrite dotR_cons. exact Hne.
Qed.

Lemma rect_binary_vectorsR (n : nat) :
  (1 <= n)%nat -> rect (2 ^ (n - 1)) (binary_vectorsR n).
Proof.
  intros Hn. unfold binary_vectorsR, rect. rewrite Forall_map.
  pose proof (rect_transpose 0 (map (map IZR) (product [(-1)%Z; 1%Z] n))) as HR.
  rewrite length_map, length_product in HR.
  eapply Forall_impl; [|exact HR]. intros row Hrow. simpl in Hrow.
  rewrite length_firstn, Hrow. apply Nat.min_l.
  apply Nat.pow_le_mono_r; lia.
Qed.

Lemma binary_vectorsR_not_nil (n : nat) :
  (1 <= n)%nat -> binary_vectorsR n <> [].
Proof.
  intros Hn E. unfold binary_vectorsR in E. apply map_eq_nil in E.
  assert (H : length (transpose 0 (map (map IZR) (product [(-1)%Z; 1%Z] n))) = n).
  { apply length_transpose.
    - intros E'. apply map_eq_nil in E'. now apply product_not_nil in E'.
    - apply rect_map_map, rect_product. }
  rewrite E in H. simpl in H. lia.
Qed.

(** Column [j] of the evaluation matrix is the [j]-th vector of the half set. *)
Lemma column_binary_vectorsR (n j : nat) :
  (1 <= n)%nat -> (j < 2 ^ (n - 1))%nat ->
  column 0 (binary_vectorsR n) j = map IZR (nth j (half_set n) []).
Proof.
  intros Hn Hj.
  rewrite <- (@nth_transpose _ 0 (2 ^ (n - 1)) (binary_vectorsR n) j);
    [|now apply binary_vectorsR_not_nil|now apply rect_binary_vectorsR|assumption].
  unfold binary_vectorsR.
  rewrite (@transpose_slice _ 0 n).
  - unfold half_set, sign_vectors. rewrite firstn_map.
    apply (map_nth (map IZR) _ [] j).
  - intros E. apply map_eq_nil in E. now apply product_not_nil in E.
  - apply rect_map_map, rect_product.
  - lia.
  - rewrite length_map, length_product. apply Nat.pow_le_mono_r; lia.
Qed.

Lemma nth_map_Rabs (j : nat) (l : list R) :
  nth j (map Rabs l) 0 = Rabs (nth j l 0).
Proof. rewrite <- (map_nth Rabs l 0 j). now rewrite Rabs_R0. Qed.

Lemma fold_max_ge (k : nat) (rest : list (list R)) :
  forall row, length row = k -> rect k rest ->
    length (fold_left (map2 Rmax) rest row) = k /\
    forall j, (j < k)%nat ->
      nth j row 0 <= nth j (fold_left (map2 Rmax) rest row) 0.
Proof.
  induction rest as [|r rest IH]; intros row Hrow HR; simpl.
  - split; [assumption|]. intros; lra.
  - apply Forall_cons_iff in HR as [Hr HR].
    destruct (IH (map2 Rmax row r)) as [Hl Hge]; [rewrite length_map2; lia|assumption|].
    split; [assumption|]. intros j Hj.
    eapply Rle_trans; [|apply Hge, Hj].
    rewrite (@nth_map2 _ _ _ Rmax 0 0 0) by lia. apply Rmax_l.
Qed.

Lemma sumR_nonneg (v : list R) : Forall (fun x => 0 <= x) v -> 0 <= sumR v.
Proof.
  induction 1 as [|x v Hx Hv IH]; [unfold sumR; simpl; lra|].
  rewrite sumR_cons. lra.
Qed.

Lemma sumR_pos (v : list R) :
  Forall (fun x => 0 <= x) v -> Exists (fun x => 0 < x) v -> 0 < sumR v.
Proof.
  intros HF HE. induction HE as [x v Hx|x v HE IH];
    apply Forall_cons_iff in HF as [Hx0 HF]; rewrite sumR_cons.
  - pose proof (sumR_nonneg HF). lra.
  - specialize (IH HF). lra.
Qed.


End BetaPositive.

(** ** The search loop *)

Lemma index_rows_select {T : Type} (rows : list (list T)) (comb : list nat) :
  comb <> [] -> Forall (fun i => i < length rows) comb ->
  index_rows rows comb = Ok (select rows comb).
Proof.
  intros Hc HF. unfold index_rows, select. destruct comb as [|i0 comb0]; [easy|].
  clear Hc. induction HF as [|i comb Hi HF IH]; [reflexivity|].
  cbn [mapM map]. rewrite (nth_error_nth' rows [] Hi). cbn [bind].
  now rewrite IH.
Qed.

Section SearchLoop.
Context {T : Type} `{Sc : Scalar T}.

(** The order of the elements, on the values that [beta] returns. *)
Variable P : T -> Prop.
Hypothesis ltb_asym :
  forall x y, P x -> P y -> ltb x y = true -> ltb y x = false.
Hypothesis ltb_trans :
  forall x y z, P x -> P y -> P z ->
    ltb x y = true -> ltb y z = true -> ltb x z = true.
Hypothesis ltb_total :
  forall x y, P x -> P y -> isnan x = false -> isnan y = false ->
    ltb x y = false -> ltb y x = false -> x = y.
Hypothesis ltb_eqb : forall x y, ltb x y = true -> eqb x y = false.

Variables rows bv : list (list T).

Lemma search_step_scored (m0 : T) (B0 : option (list (list T)))
      (comb : list nat) :
  scored P rows bv comb ->
  search_step rows bv {| beta_max := m0; best_A := B0 |} comb =
  Ok (if ltb m0 (score rows bv comb)
      then {| beta_max := score rows bv comb;
              best_A := Some (select rows comb) |}
      else {| beta_max := m0; best_A := B0 |}).
Proof.
  intros [HI [HB _]]. unfold search_step. rewrite HI. cbn [bind]. rewrite HB.
  cbn [bind beta_max]. unfold gtb. now destruct (ltb m0 (score rows bv comb)).
Qed.

Lemma ltb_le_lt (x y z : T) :
  P x -> P y -> P z -> isnan x = false -> isnan z = false ->
  ltb y x = false -> ltb y z = true -> ltb x z = true.
Proof.
  intros Hx Hy Hz Nx Nz Hyx Hyz.
  destruct (ltb x z) eqn:Exz; [reflexivity|].
  destruct (ltb z x) eqn:Ezx.
  - rewrite (ltb_trans Hy Hz Hx Hyz Ezx) in Hyx. discriminate.
  - assert (x = z) by now apply ltb_total. subst z. congruence.
Qed.

(** The loop invariant: either no combination beat the running maximum,
    or the state holds the first combination attaining the largest
    objective. *)
Lemma search_loop (l : list (list nat)) :
  Forall (scored P rows bv) l ->
  forall (m0 : T) (B0 : option (list (list T))),
    P m0 -> isnan m0 = false ->
    (foldM (search_step rows bv) l {| beta_max := m0; best_A := B0 |} =
     Ok {| beta_max := m0; best_A := B0 |} /\
     forall comb, In comb l -> ltb m0 (score rows bv comb) = false) \/
    (exists pre comb post,
       l = pre ++ comb :: post /\
       foldM (search_step rows bv) l {| beta_max := m0; best_A := B0 |} =
       Ok {| beta_max := score rows bv comb;
             best_A := Some (select rows comb) |} /\
       ltb m0 (score rows bv comb) = true /\
       (forall c, In c pre ->
          ltb (score rows bv c) (score rows bv comb) = true) /\
       (forall c, In c post ->
          ltb (score rows bv comb) (score rows bv c) = false)).
Proof.
  induction 1 as [|c l Hc Hl IH]; intros m0 B0 Pm Nm.
  - left. split; [reflexivity|]. intros comb [].
  - cbn [foldM]. rewrite (search_step_scored m0 B0 Hc). cbn [bind].
    destruct Hc as [_ [_ [Pc Nc]]].
    destruct (ltb m0 (score rows bv c)) eqn:E.
    + right.
      destruct (IH (score rows bv c) (Some (select rows c)) Pc Nc)
        as [[HF Hle]|[pre [comb [post [-> [HF [Hlt [Hpre Hpost]]]]]]]].
      * exists [], c, l.
        split; [reflexivity|]. split; [exact HF|]. split; [exact E|].
        split; [intros x []|exact Hle].
      * assert (Pcomb : P (score rows bv comb)).
        { rewrite Forall_forall in Hl. apply Hl. apply in_or_app. right. now left. }
        exists (c :: pre), comb, post.
        split; [reflexivity|]. split; [exact HF|].
        split; [now apply (ltb_trans Pm Pc Pcomb)|].
        split; [|exact Hpost].
        intros x [<-|Hx]; [assumption|now apply Hpre].
    + destruct (IH m0 B0 Pm Nm)
        as [[HF Hle]|[pre [comb [post [-> [HF [Hlt [Hpre Hpost]]]]]]]].
      * left. split; [assumption|]. intros x [<-|Hx]; [assumption|now apply Hle].
      * assert (Hcomb : scored P rows bv comb).
        { rewrite Forall_forall in Hl. apply Hl. apply in_or_app. right. now left. }
        destruct Hcomb as [_ [_ [Pcomb Ncomb]]].
        right. exists (c :: pre), comb, post.
        split; [reflexivity|]. split; [exact HF|]. split; [exact Hlt|].
        split; [|exact Hpost].
        intros x [<-|Hx]; [|now apply Hpre].
        now apply (@ltb_le_lt (score rows bv c) m0 (score rows bv comb)).
Qed.

(** With an initial maximum of 0 and a positive objective somewhere, the
    loop returns the first maximizer. *)
Lemma search_first_maximizer_gen (r : nat) :
  P zero -> isnan zero = false ->
  1 <= r <= length rows ->
  Forall (scored P rows bv) (generate_combinations (elements rows) r) ->
  Exists (fun comb => ltb zero (score rows bv comb) = true)
         (generate_combinations (elements rows) r) ->
  returns_first_maximizer rows bv r.
Proof.
  intros Pz Nz Hr Hsc Hpos. unfold returns_first_maximizer, search.
  assert (Hsorted : StronglySorted lex_lt (generate_combinations (elements rows) r)).
  { apply combinations_lex_sorted, seq_StronglySorted. }
  set (cs := generate_combinations (elements rows) r) in *.
  destruct (search_loop Hsc None Pz Nz)
    as [[_ Hle]|[pre [comb [post [Ecs [HF [Hlt [Hpre Hpost]]]]]]]].
  { exfalso. apply Exists_exists in Hpos as [c [Hc Hc0]].
    rewrite (Hle c Hc) in Hc0. discriminate. }
  assert (Hall : forall c, In c cs -> (scored P rows bv) c) by now apply Forall_forall.
  assert (Hin : In comb cs).
  { rewrite Ecs. apply in_or_app. right. now left. }
  destruct (Hall comb Hin) as [HI [HB [Pcomb Ncomb]]].
  exists comb, (score rows bv comb).
  split; [exact Hin|]. split; [exact HI|]. split; [exact HB|].
  split; [exact HF|].
  intros comb' Hc'. destruct (Hall comb' Hc') as [HI' [HB' [P' N']]].
  exists (score rows bv comb').
  split; [exact HI'|]. split; [exact HB'|]. split; [exact N'|]. split.
  - rewrite Ecs in Hc'. apply in_app_or in Hc' as [Hc'|[<-|Hc']].
    + now apply ltb_asym, Hpre.
    + destruct (ltb (score rows bv comb) (score rows bv comb)) eqn:E; [|reflexivity].
      now rewrite (ltb_asym Pcomb Pcomb E) in E.
    + now apply Hpost.
  - intros Eb. rewrite Ecs in Hc'. apply in_app_or in Hc' as [Hc'|[<-|Hc']].
    + rewrite (ltb_eqb _ _ (Hpre comb' Hc')) in Eb. discriminate.
    + now left.
    + right. rewrite Ecs in Hsorted.
      replace (pre ++ comb :: post) with ((pre ++ [comb]) ++ post) in Hsorted
        by now rewrite <- app_assoc.
      apply (@StronglySorted_app_inv _ lex_lt (pre ++ [comb]) post Hsorted).
      * apply in_or_app. right. now left.
      * exact Hc'.
Qed.

End SearchLoop.

Lemma combinations_in_range {T : Type} (rows : list (list T)) (r : nat)
      (comb : list nat) :
  1 <= r -> In comb (generate_combinations (elements rows) r) ->
  comb <> [] /\ Forall (fun i => i < length rows) comb.
Proof.
  intros Hr Hc. unfold generate_combinations, elements in Hc. split.
  - apply in_combinations_length in Hc. intros ->. simpl in Hc. lia.
  - apply Forall_forall. intros i Hi.
    apply (in_combinations_incl _ _ _ Hc) in Hi. apply in_seq in Hi. lia.
Qed.

Section SearchExact.
Local Open Scope R_scope.

Lemma select_fin (C : list (list R)) (comb : list nat) :
  select (map (map Fin) C) comb = map (map Fin) (select C comb).
Proof.
  unfold select. rewrite map_map. apply map_ext. intros i. apply nth_map_Fin.
Qed.












End SearchExact.

Section SearchBinary32.

Lemma SFltb_SFeqb (x y : spec_float) : SFltb x y = true -> SFeqb x y = false.
Proof. unfold SFltb, SFeqb. now destruct (SFcompare x y) as [[| |]|]. Qed.

Lemma float32_abs_valueb_spec (x : spec_float) :
  float32_abs_valueb x = true -> float32_abs_value x.
Proof.
  unfold float32_abs_value. destruct x as [s|s| |s m e]; simpl;
    try reflexivity; destruct s; simpl; congruence.
Qed.

Lemma float32_scores_ok_spec (rows bv : list (list spec_float)) (r : nat) :
  1 <= r -> float32_scores_ok rows bv r = true ->
  Forall (scored float32_abs_value rows bv)
         (generate_combinations (elements rows) r) /\
  Exists (fun comb => ltb zero (score rows bv comb) = true)
         (generate_combinations (elements rows) r).
Proof.
  intros Hr H. unfold float32_scores_ok in H.
  apply andb_true_iff in H as [H1 H2]. split.
  - apply Forall_forall. intros comb Hc.
    rewrite forallb_forall in H1. specialize (H1 comb Hc).
    destruct (@combinations_in_range _ _ r comb Hr Hc) as [Hne HF].
    unfold scored, score.
    destruct (beta (select rows comb) bv) as [b|]; [|discriminate].
    apply andb_true_iff in H1 as [Hb Hn]. repeat split.
    + now apply index_rows_select.
    + now apply float32_abs_valueb_spec.
    + now apply negb_true_iff.
  - apply existsb_exists in H2 as [comb [Hc Hpos]].
    apply Exists_exists. now exists comb.
Qed.

Lemma search_first_maximizer_checked (rows bv : list (list spec_float)) (r : nat) :
  1 <= r <= length rows -> float32_scores_ok rows bv r = true ->
  returns_first_maximizer rows bv r.
Proof.
  intros Hr H. destruct (@float32_scores_ok_spec rows bv r) as [Hsc Hpos];
    [lia|assumption|].
  apply (@search_first_maximizer_gen spec_float float32 float32_abs_value);
    auto.
  - apply SFltb_asym.
  - apply SFltb_trans.
  - apply SFltb_total.
  - apply SFltb_SFeqb.
  - reflexivity.
Qed.

End SearchBinary32.

Lemma beta_row_permutation_and_negation_witness :
  Permutation [[Float32.of_Z 1; Float32.of_Z 2]; [Float32.of_Z 3; Float32.of_Z (-4)]]
              [[Float32.of_Z 3; Float32.of_Z (-4)]; [Float32.of_Z 1; Float32.of_Z 2]] /\
  beta [[Float32.of_Z 3; Float32.of_Z (-4)]; [Float32.of_Z 1; Float32.of_Z 2]]
       (binary_vectors 2) =
  beta [[Float32.of_Z 1; Float32.of_Z 2]; [Float32.of_Z 3; Float32.of_Z (-4)]]
       (binary_vectors 2) /\
  beta [map neg [Float32.of_Z 1; Float32.of_Z 2]; [Float32.of_Z 3; Float32.of_Z (-4)]]
       (binary_vectors 2) =
  beta [[Float32.of_Z 1; Float32.of_Z 2]; [Float32.of_Z 3; Float32.of_Z (-4)]]
       (binary_vectors 2).
Proof.
  assert (HP : Permutation
                 [[Float32.of_Z 1; Float32.of_Z 2]; [Float32.of_Z 3; Float32.of_Z (-4)]]
                 [[Float32.of_Z 3; Float32.of_Z (-4)]; [Float32.of_Z 1; Float32.of_Z 2]])
    by apply perm_swap.
  split; [exact HP|]. split.
  - exact (proj1 (proj2 beta_row_permutation_and_negation) _ _ (binary_vectors 2) HP).
  - exact (proj2 (proj2 beta_row_permutation_and_negation) []
             [[Float32.of_Z 3; Float32.of_Z (-4)]]
             [Float32.of_Z 1; Float32.of_Z 2] (binary_vectors 2)).
Defined.

(** * Further properties of the notebook *)

(** ** The entries of [vectors] *)

Section ProductIndex.
Context {A : Type}.
Variables lo hi : A.

Lemma testbit_below (j k : nat) : j < 2 ^ k -> Nat.testbit j k = false.
Proof.
  intros Hj. apply Nat.testbit_unique with (l := j) (h := 0); [assumption|].
  simpl. lia.
Qed.

Lemma testbit_top (j k : nat) :
  2 ^ k <= j -> j < 2 ^ S k -> Nat.testbit j k = true.
Proof.
  intros Hlo Hhi. apply Nat.testbit_unique with (l := j - 2 ^ k) (h := 0).
  - rewrite Nat.pow_succ_r' in Hhi. lia.
  - simpl. lia.
Qed.

Lemma testbit_sub_top (j k m : nat) :
  2 ^ k <= j -> j < 2 ^ S k -> m < k ->
  Nat.testbit (j - 2 ^ k) m = Nat.testbit j m.
Proof.
  intros Hlo Hhi Hm. rewrite <- (Nat.mod_pow2_bits_low j k m Hm).
  f_equal. rewrite Nat.pow_succ_r' in Hhi.
  apply Nat.mod_unique with (q := 1); lia.
Qed.

(** Tuple [j] of [itertools.product([lo, hi], repeat=n)] spells [j] in
    binary, the most significant digit first. *)
Lemma nth_product (n : nat) (d : A) :
  forall i j, i < n -> j < 2 ^ n ->
    nth i (nth j (product [lo; hi] n) []) d =
    if Nat.testbit j (n - 1 - i) then hi else lo.
Proof.
  induction n as [|n IH]; intros i j Hi Hj; [lia|].
  rewrite product_S.
  destruct (Nat.lt_ge_cases j (2 ^ n)) as [Hlt|Hge].
  - rewrite app_nth1 by now rewrite length_map, length_product.
    rewrite (nth_indep _ [] (lo :: [])) by now rewrite length_map, length_product.
    rewrite (map_nth (cons lo)).
    destruct i as [|i].
    + simpl. replace (n - 0 - 0) with n by lia.
      now rewrite testbit_below.
    + cbn [nth]. replace (S n - 1 - S i) with (n - 1 - i) by lia.
      apply IH; lia.
  - rewrite app_nth2 by now rewrite length_map, length_product.
    rewrite length_map, length_product.
    assert (Hj' : j - 2 ^ n < 2 ^ n) by (rewrite Nat.pow_succ_r' in Hj; lia).
    rewrite (nth_indep _ [] (hi :: [])) by now rewrite length_map, length_product.
    rewrite (map_nth (cons hi)).
    destruct i as [|i].
    + simpl nth. replace (S n - 1 - 0) with n by lia.
      now rewrite testbit_top.
    + cbn [nth]. replace (S n - 1 - S i) with (n - 1 - i) by lia.
      rewrite IH by lia. now rewrite testbit_sub_top by lia.
Qed.
End ProductIndex.

Section VectorsEntries.
Context {T : Type} `{Sc : Scalar T}.

Lemma nth_transposed_product (lo hi : Z) (n i j : nat) :
  i < n -> j < 2 ^ n ->
  nth j (nth i (transpose zero (map (map of_int) (product [lo; hi] n))) []) zero =
  of_int (if Nat.testbit j (n - 1 - i) then hi else lo).
Proof.
  intros Hi Hj.
  assert (HN : map (map of_int) (product [lo; hi] n) <> []).
  { intros E. apply map_eq_nil in E. now apply product_not_nil in E. }
  assert (HR : rect n (map (map (@of_int T Sc)) (product [lo; hi] n)))
    by apply rect_map_map, rect_product.
  rewrite (nth_transpose zero HN HR Hi), nth_column.
  rewrite (nth_indep _ [] (map of_int []))
    by now rewrite length_map, length_product.
  rewrite (map_nth (map of_int)).
  rewrite (nth_indep _ zero (of_int lo)).
  - rewrite (map_nth of_int). f_equal. now apply nth_product.
  - rewrite length_map.
    assert (Hin : In (nth j (product [lo; hi] n) []) (product [lo; hi] n))
      by (apply nth_In; now rewrite length_product).
    apply in_product in Hin as [-> _]. exact Hi.
Qed.

Lemma shape_vectors (n : nat) (binary : bool) :
  1 <= n -> length (vectors n binary) = n /\ rect (2 ^ n) (vectors n binary).
Proof.
  intros Hn. unfold vectors. destruct binary.
  - split.
    + apply length_transpose; [|apply rect_map_map, rect_product].
      intros E. apply map_eq_nil in E. now apply product_not_nil in E.
    + rewrite <- (length_product 0%Z 1%Z n), <- (length_map (map (@of_int T Sc))).
      apply rect_transpose.
  - split.
    + apply length_transpose; [|apply rect_map_map, rect_product].
      intros E. apply map_eq_nil in E. now apply product_not_nil in E.
    + rewrite <- (length_product (-1)%Z 1%Z n), <- (length_map (map (@of_int T Sc))).
      apply rect_transpose.
Qed.
End VectorsEntries.

(** X1.  [vectors(n)] and [vectors(n, binary=True)] have n rows and 2^n
    columns, and column j spells j in binary, the most significant digit in
    row 0: the entry in row i is the digit of weight 2^(n-1-i) of j in the
    binary tensor, and +1 or -1 according to that digit in the sign
    tensor. *)
Theorem vectors_entries (T : Type) (Sc : Scalar T) (n i j : nat) :
  i < n -> j < 2 ^ n ->
  (forall binary, length (vectors n binary) = n /\
                  rect (2 ^ n) (vectors n binary)) /\
  nth j (nth i (vectors n true) []) zero =
    of_int (if Nat.testbit j (n - 1 - i) then 1 else 0)%Z /\
  nth j (nth i (vectors n false) []) zero =
    of_int (if Nat.testbit j (n - 1 - i) then 1 else -1)%Z.
Proof.
  intros Hi Hj. split; [|split].
  - intros binary. apply shape_vectors. lia.
  - now apply nth_transposed_product.
  - now apply nth_transposed_product.
Qed.

Lemma vectors_entries_witness :
  1 < 3 /\ 5 < 2 ^ 3 /\
  nth 5 (nth 1 (vectors (Sc := float32) 3 true) []) zero = of_int 0%Z /\
  nth 5 (nth 1 (vectors (Sc := float32) 3 false) []) zero = of_int (-1)%Z.
Proof.
  assert (Hi : 1 < 3) by lia.
  assert (Hj : 5 < 2 ^ 3) by (simpl; lia).
  split; [exact Hi|]. split; [exact Hj|].
  exact (proj2 (vectors_entries float32 Hi Hj)).
Defined.

(** ** Errors of [fix_row_signs] *)

Lemma Forall2_in_right {A B : Type} (R : A -> B -> Prop) (l : list A) (l' : list B)
      (y : B) :
  Forall2 R l l' -> In y l' -> exists x, In x l /\ R x y.
Proof.
  induction 1 as [|x y' l l' HR HF IH]; intros Hy; [destruct Hy|].
  destruct Hy as [<-|Hy].
  - exists x. split; [now left|assumption].
  - destruct (IH Hy) as [x' [Hx' HR']]. exists x'. split; [now right|assumption].
Qed.

Section FixRowSignsErrors.
Context {T : Type} `{Sc : Scalar T}.

Lemma fix_row_sign_cases (row : list T) :
  fix_row_sign row = Raise IndexError \/
  exists row', fix_row_sign row = Ok row' /\ length row' = length row.
Proof.
  unfold fix_row_sign. destruct (find_index (fun x => neb x zero) row) as [k|].
  - right. eexists. split; [reflexivity|apply length_map].
  - now left.
Qed.

Lemma fix_row_sign_nonzero_row (row : list T) :
  Exists (fun x => neb x zero = true) row ->
  exists row', fix_row_sign row = Ok row' /\ length row' = length row.
Proof.
  intros HE. destruct (fix_row_sign_cases row) as [E|H]; [|exact H].
  exfalso. unfold fix_row_sign in E.
  destruct (find_index (fun x => neb x zero) row) as [k|] eqn:Ek; [discriminate|].
  apply find_index_None in Ek. apply Exists_exists in HE as [x [Hx Hnz]].
  rewrite Forall_forall in Ek. rewrite (Ek x Hx) in Hnz. discriminate.
Qed.

Lemma mapM_fix_row_sign_zero_row (tensor : list (list T)) :
  Exists (Forall (fun x => eqb x zero = true)) tensor ->
  mapM fix_row_sign tensor = Raise IndexError.
Proof.
  induction tensor as [|row t IH]; intros HE; [inversion HE|].
  cbn [mapM]. apply Exists_cons in HE as [H|H].
  - now rewrite (fix_row_sign_zero_row H).
  - destruct (fix_row_sign_cases row) as [->|[row' [-> _]]]; [reflexivity|].
    cbn [bind]. now rewrite (IH H).
Qed.

Lemma mapM_fix_row_sign_nonzero_rows (tensor : list (list T)) :
  Forall (Exists (fun x => neb x zero = true)) tensor ->
  exists l, mapM fix_row_sign tensor = Ok l /\
            Forall2 (fun row row' => fix_row_sign row = Ok row') tensor l.
Proof.
  induction 1 as [|row t Hrow Ht [l [El Fl]]].
  - exists []. split; [reflexivity|constructor].
  - destruct (fix_row_sign_nonzero_row Hrow) as [row' [E _]].
    exists (row' :: l). cbn [mapM]. rewrite E. cbn [bind]. rewrite El.
    split; [reflexivity|now constructor].
Qed.

Lemma length_unique_from (prev : list T) (l : list (list T)) :
  length (unique_from prev l) <= length l.
Proof.
  revert prev. induction l as [|x t IH]; intros prev; simpl; [lia|].
  destruct (row_eqb prev x); simpl; specialize (IH x); lia.
Qed.

Lemma length_unique (l : list (list T)) : length (unique l) <= length l.
Proof.
  unfold unique. rewrite <- (Permutation_length (sort_rows_perm l)).
  destruct (sort_rows l) as [|x t]; simpl; [lia|].
  pose proof (length_unique_from x t). lia.
Qed.

Lemma unique_not_nil (l : list (list T)) : l <> [] -> unique l <> [].
Proof.
  intros Hl. unfold unique. destruct (sort_rows l) as [|x t] eqn:E; [|easy].
  pose proof (Permutation_length (sort_rows_perm l)) as HL.
  rewrite E in HL. destruct l; [easy|discriminate].
Qed.
End FixRowSignsErrors.

(** X2.  [fix_row_signs] raises [RuntimeError] on a tensor without rows
    (from [torch.stack]) and [IndexError] on a tensor with a row of zeros
    (the lookup of the first non-zero index).  On every other tensor it
    returns: the result is not empty, has at most as many rows as the
    input, and each of its rows is the product of an input row with the
    sign of the first non-zero entry of that row. *)
Theorem fix_row_signs_errors (T : Type) (Sc : Scalar T) (tensor : list (list T)) :
  (tensor = [] -> fix_row_signs tensor = Raise RuntimeError) /\
  (Exists (Forall (fun x => eqb x zero = true)) tensor ->
   fix_row_signs tensor = Raise IndexError) /\
  (tensor <> [] -> Forall (Exists (fun x => neb x zero = true)) tensor ->
   exists rows,
     fix_row_signs tensor = Ok rows /\
     rows <> [] /\ length rows <= length tensor /\
     forall row', In row' rows ->
       exists row, In row tensor /\ fix_row_sign row = Ok row').
Proof.
  split; [|split].
  - intros ->. reflexivity.
  - intros HE. unfold fix_row_signs. now rewrite mapM_fix_row_sign_zero_row.
  - intros HN HF. unfold fix_row_signs.
    destruct (mapM_fix_row_sign_nonzero_rows HF) as [l [El Fl]].
    rewrite El. cbn [bind].
    assert (Hl : l <> []).
    { intros ->. inversion Fl. subst. contradiction. }
    destruct l as [|r0 l0] eqn:El0; [contradiction|]. cbn [stack bind].
    rewrite <- El0 in *. exists (unique l). split; [reflexivity|].
    split; [now apply unique_not_nil|]. split.
    + rewrite (Forall2_length Fl). apply length_unique.
    + intros row' Hrow'. apply unique_incl in Hrow'.
      destruct (@Forall2_in_right _ _ _ _ _ row' Fl Hrow') as [row [Hrow E]]; eauto.
Qed.

Lemma fix_row_signs_errors_witness :
  fix_row_signs (Sc := float32) [] = Raise RuntimeError /\
  fix_row_signs (Sc := float32)
    [[Float32.of_Z 1; Float32.of_Z 2]; [Float32.of_Z 0; Float32.of_Z 0]] =
  Raise IndexError /\
  exists rows,
    fix_row_signs (Sc := float32)
      [[Float32.of_Z 0; Float32.of_Z (-2)]; [Float32.of_Z 0; Float32.of_Z 2]] =
    Ok rows /\ rows <> [] /\ length rows <= 2.
Proof.
  split; [|split].
  - exact (proj1 (fix_row_signs_errors float32 []) eq_refl).
  - apply (proj1 (proj2 (fix_row_signs_errors float32 _))).
    apply Exists_cons_tl, Exists_cons_hd.
    repeat constructor.
  - destruct (proj2 (proj2 (fix_row_signs_errors float32
        [[Float32.of_Z 0; Float32.of_Z (-2)]; [Float32.of_Z 0; Float32.of_Z 2]])))
      as [rows [E [HN [HL _]]]].
    + discriminate.
    + constructor; [|constructor; [|constructor]];
        apply Exists_cons_tl, Exists_cons_hd; reflexivity.
    + exists rows. split; [exact E|]. split; [exact HN|exact HL].
Defined.

(** ** [beta], [_run] and the bounds of the row index *)

Section RunFacts.
Context {T : Type} `{Sc : Scalar T}.

Lemma beta_returns (A bv : list (list T)) :
  A <> [] -> exists b, beta A bv = Ok b.
Proof.
  intros HA. destruct A as [|a A]; [easy|].
  unfold beta, matmul. cbn [map max_dim0 bind]. eauto.
Qed.

Lemma index_rows_out_of_range (rows : list (list T)) (comb : list nat) :
  Exists (fun i => length rows <= i) comb ->
  index_rows rows comb = Raise IndexError.
Proof.
  intros HE. unfold index_rows. destruct comb as [|i0 comb0] eqn:E; [reflexivity|].
  rewrite <- E in *. clear E i0 comb0.
  induction HE as [i comb Hi|i comb HE IH]; cbn [mapM].
  - apply nth_error_None in Hi. now rewrite Hi.
  - destruct (nth_error rows i); [|reflexivity].
    cbn [bind]. now rewrite IH.
Qed.

Lemma length_select (rows : list (list T)) (comb : list nat) :
  length (select rows comb) = length comb.
Proof. apply length_map. Qed.

Lemma select_all (rows : list (list T)) : select rows (elements rows) = rows.
Proof. apply map_nth_seq. Qed.
End RunFacts.

Lemma combinations_all {A : Type} (l : list A) : combinations l (length l) = [l].
Proof.
  induction l as [|x l IH]; [reflexivity|].
  cbn [length combinations]. rewrite IH.
  now rewrite (@combinations_nil _ l (S (length l))) by lia.
Qed.

(** X3.  [_run(combination, rows)] raises [IndexError] on the empty tuple
    and on a tuple with an index that is not below the number of rows.  On
    a non-empty tuple of indices in range it returns the pair of
    [beta(A)] and [A], where [A] has one row per index: row k of [A] is
    the row of [rows] at the k-th index.  Indices are natural numbers:
    the negative indices of Python are outside the model. *)
Theorem run_index_bounds (T : Type) (Sc : Scalar T) (n c : nat)
        (bv rows : list (list T)) (combination : list nat) :
  compatible n c rows bv ->
  (combination = [] -> _run bv combination rows = Raise IndexError) /\
  (Exists (fun i => length rows <= i) combination ->
   _run bv combination rows = Raise IndexError) /\
  (combination <> [] -> Forall (fun i => i < length rows) combination ->
   exists value_A A,
     _run bv combination rows = Ok (value_A, A) /\
     beta A bv = Ok value_A /\
     length A = length combination /\
     forall k, k < length combination ->
       nth_error A k = nth_error rows (nth k combination 0)).
Proof.
  intros _. split; [|split].
  - intros ->. reflexivity.
  - intros HE. unfold _run. now rewrite index_rows_out_of_range.
  - intros HN HF. unfold _run. rewrite (@index_rows_select _ rows combination HN HF). cbn [bind].
    assert (HS : select rows combination <> []).
    { intros E. apply map_eq_nil in E. contradiction. }
    destruct (beta_returns bv HS) as [b Eb]. rewrite Eb. cbn [bind].
    exists b, (select rows combination).
    split; [reflexivity|]. split; [exact Eb|]. split; [apply length_select|].
    intros k Hk. unfold select.
    rewrite nth_error_map, (nth_error_nth' combination 0 Hk). cbn [option_map].
    symmetry. apply nth_error_nth'.
    rewrite Forall_forall in HF. apply HF. now apply nth_In.
Qed.

Lemma run_index_bounds_witness :
  compatible 1 1 [[Float32.of_Z 3]; [Float32.of_Z 5]] (binary_vectors 1) /\
  _run (Sc := float32) (binary_vectors 1) [] [[Float32.of_Z 3]; [Float32.of_Z 5]] =
  Raise IndexError /\
  _run (Sc := float32) (binary_vectors 1) [0; 2] [[Float32.of_Z 3]; [Float32.of_Z 5]] =
  Raise IndexError /\
  exists value_A A,
    _run (Sc := float32) (binary_vectors 1) [1; 0] [[Float32.of_Z 3]; [Float32.of_Z 5]] =
    Ok (value_A, A) /\ length A = 2.
Proof.
  assert (HC : compatible 1 1 [[Float32.of_Z 3]; [Float32.of_Z 5]]
                 (binary_vectors (Sc := float32) 1)).
  { split; [lia|]. split; [repeat constructor|].
    split; [reflexivity|repeat constructor]. }
  split; [exact HC|]. split; [|split].
  - exact (proj1 (run_index_bounds float32 [] HC) eq_refl).
  - apply (proj1 (proj2 (run_index_bounds float32 [0; 2] HC))).
    apply Exists_cons_tl, Exists_cons_hd. simpl. lia.
  - destruct (proj2 (proj2 (run_index_bounds float32 [1; 0] HC)))
      as [v [A [E [_ [HL _]]]]].
    + discriminate.
    + repeat constructor.
    + exists v, A. split; [exact E|exact HL].
Defined.

(** ** The search loop on arbitrary rows *)

Section SearchAnyRows.
Context {T : Type} `{Sc : Scalar T}.

Hypothesis ltb_asym : forall x y : T, ltb x y = true -> ltb y x = false.
Hypothesis ltb_trans :
  forall x y z : T, ltb x y = true -> ltb y z = true -> ltb x z = true.
Hypothesis ltb_not_nan : forall x y : T, ltb x y = true -> isnan y = false.

Variables rows bv : list (list T).

Lemma ltb_irrefl (x : T) : ltb x x = false.
Proof.
  destruct (ltb x x) eqn:E; [|reflexivity].
  now rewrite (ltb_asym _ _ E) in E.
Qed.

(** The running maximum never decreases, and after a combination has been
    visited its objective is not above the running maximum. *)
Lemma search_loop_any (l : list (list nat)) :
  Forall (fun comb => comb <> [] /\ Forall (fun i => i < length rows) comb) l ->
  forall st : SearchState,
  exists st',
    foldM (search_step rows bv) l st = Ok st' /\
    (beta_max st' = beta_max st \/ ltb (beta_max st) (beta_max st') = true) /\
    (forall comb, In comb l ->
       exists b, beta (select rows comb) bv = Ok b /\
                 ltb (beta_max st') b = false) /\
    (st' = st \/
     exists comb,
       In comb l /\
       best_A st' = Some (select rows comb) /\
       beta (select rows comb) bv = Ok (beta_max st') /\
       ltb (beta_max st) (beta_max st') = true).
Proof.
  induction 1 as [|c l [Hc1 Hc2] Hl IH]; intros st.
  - exists st. split; [reflexivity|]. split; [now left|].
    split; [intros comb []|now left].
  - cbn [foldM]. unfold search_step at 1.
    rewrite (@index_rows_select _ rows c Hc1 Hc2). cbn [bind].
    assert (HS : select rows c <> []).
    { intros E. apply map_eq_nil in E. contradiction. }
    destruct (beta_returns bv HS) as [b Eb]. rewrite Eb. cbn [bind].
    unfold gtb. destruct (ltb (beta_max st) b) eqn:E; cbn [bind].
    + destruct (IH {| beta_max := b; best_A := Some (select rows c) |})
        as [st' [HF [Hmono [Hub Hst]]]].
      cbn [beta_max] in *.
      assert (Hlt : ltb (beta_max st) (beta_max st') = true).
      { destruct Hmono as [->|Hmono]; [exact E|].
        exact (ltb_trans _ _ _ E Hmono). }
      exists st'. split; [exact HF|]. split; [now right|]. split.
      * intros comb [<-|Hcomb]; [|now apply Hub].
        exists b. split; [exact Eb|].
        destruct Hmono as [->|Hmono]; [apply ltb_irrefl|now apply ltb_asym].
      * right. destruct Hst as [->|[comb [Hin [HA [HB _]]]]].
        -- exists c. split; [now left|]. cbn [best_A beta_max].
           split; [reflexivity|]. split; [exact Eb|exact E].
        -- exists comb. split; [now right|]. split; [exact HA|].
           split; [exact HB|exact Hlt].
    + destruct (IH st) as [st' [HF [Hmono [Hub Hst]]]].
      exists st'. split; [exact HF|]. split; [exact Hmono|]. split.
      * intros comb [<-|Hcomb]; [|now apply Hub].
        exists b. split; [exact Eb|].
        destruct Hmono as [->|Hmono]; [exact E|].
        destruct (ltb (beta_max st') b) eqn:E'; [|reflexivity].
        now rewrite (ltb_trans _ _ _ Hmono E') in E.
      * destruct Hst as [->|[comb [Hin [HA [HB Hlt]]]]]; [now left|].
        right. exists comb. split; [now right|]. auto.
Qed.

Lemma search_outcome_any (r : nat) : 1 <= r -> search_outcome rows bv r.
Proof.
  intros Hr. unfold search_outcome, search.
  destruct (@search_loop_any (generate_combinations (elements rows) r))
    with (st := initial_state) as [st [HF [_ [Hub Hst]]]].
  { apply Forall_forall. intros comb Hcomb.
    now apply (@combinations_in_range T rows r comb). }
  exists st. split; [exact HF|]. split; [exact Hub|].
  destruct Hst as [->|[comb [Hin [HA [HB Hlt]]]]]; [now left|].
  right. exists comb. split; [exact Hin|]. split; [exact HA|].
  split; [exact HB|]. cbn [initial_state beta_max] in Hlt.
  split; [exact Hlt|]. exact (ltb_not_nan _ _ Hlt).
Qed.
End SearchAnyRows.

(** ** The order of binary32 on all values *)

Section Float32OrderAll.

Ltac order_cases :=
  repeat match goal with
         | |- context [Z.compare ?a ?b] => destruct (Z.compare_spec a b)
         | H : context [Z.compare ?a ?b] |- _ => destruct (Z.compare_spec a b)
         | |- context [Pos.compare_cont Eq ?a ?b] =>
             change (Pos.compare_cont Eq a b) with (Pos.compare a b)
         | H : context [Pos.compare_cont Eq ?a ?b] |- _ =>
             change (Pos.compare_cont Eq a b) with (Pos.compare a b) in H
         | |- context [Pos.compare ?a ?b] => destruct (Pos.compare_spec a b)
         | H : context [Pos.compare ?a ?b] |- _ => destruct (Pos.compare_spec a b)
         end;
  subst; simpl in *; try discriminate; try reflexivity; try lia.

Lemma SFltb_asym_all (x y : spec_float) : SFltb x y = true -> SFltb y x = false.
Proof.
  destruct x as [[]| [] | |[] m e], y as [[]|[]| |[] m' e'];
    unfold SFltb; simpl; try discriminate; try reflexivity;
    intros H; order_cases.
Qed.

Lemma SFltb_trans_all (x y z : spec_float) :
  SFltb x y = true -> SFltb y z = true -> SFltb x z = true.
Proof.
  destruct x as [[]| [] | |[] m e], y as [[]|[]| |[] m' e'], z as [[]|[]| |[] m'' e''];
    unfold SFltb; simpl; try discriminate; try reflexivity;
    intros H1 H2; order_cases.
Qed.

Lemma SFltb_not_nan (x y : spec_float) :
  SFltb x y = true -> Float32.is_nan y = false.
Proof.
  destruct x as [[]| [] | |[] m e], y as [[]|[]| |[] m' e'];
    unfold SFltb; simpl; try discriminate; reflexivity.
Qed.

End Float32OrderAll.

Lemma xltb_not_nan (x y : xreal) : xltb x y = true -> xisnan y = false.
Proof. destruct x, y; simpl; try discriminate; reflexivity. Qed.

(** X4.  For r >= 1 the search loop raises no exception, whatever the
    entries of the rows are (zeros, infinities and NaN included).  In the
    state it returns, [beta_max] is not below the objective of any
    enumerated combination; and either the state is still the initial one
    ([beta_max = 0], [best_A = None]), or [best_A] is the matrix of an
    enumerated combination, [beta_max] is the objective of that matrix, and
    [beta_max] is greater than 0 and is not NaN.  This holds in exact
    arithmetic and in binary32. *)
Theorem search_any_rows (n c r : nat) :
  1 <= r ->
  (forall rows bv : list (list xreal),
     compatible n c rows bv -> search_outcome rows bv r) /\
  (forall rows bv : list (list spec_float),
     compatible n c rows bv -> search_outcome rows bv r).
Proof.
  intros Hr. split; intros rows bv _.
  - apply (@search_outcome_any xreal xreal_scalar xltb_asym xltb_trans
             xltb_not_nan rows bv r Hr).
  - apply (@search_outcome_any spec_float float32 SFltb_asym_all SFltb_trans_all
             SFltb_not_nan rows bv r Hr).
Qed.

Lemma search_any_rows_witness :
  1 <= 1 /\
  compatible 1 1 [[S754_nan]; [Float32.of_Z 0]; [Float32.of_Z 2]]
             (binary_vectors 1) /\
  search_outcome (Sc := float32)
    [[S754_nan]; [Float32.of_Z 0]; [Float32.of_Z 2]] (binary_vectors 1) 1.
Proof.
  assert (Hr : 1 <= 1) by lia.
  assert (HC : compatible 1 1 [[S754_nan]; [Float32.of_Z 0]; [Float32.of_Z 2]]
                 (binary_vectors (Sc := float32) 1)).
  { split; [lia|]. split; [repeat constructor|].
    split; [reflexivity|repeat constructor]. }
  split; [exact Hr|]. split; [exact HC|].
  exact (proj2 (@search_any_rows 1 1 1 Hr) _ _ HC).
Defined.

(** X5.  With r equal to the number of rows there is one combination, all
    the indices in order, and the loop evaluates one matrix, the rows
    themselves: the search returns them with their objective if it is
    greater than 0, and the initial state otherwise. *)
Theorem search_all_rows (T : Type) (Sc : Scalar T) (n c : nat)
        (rows bv : list (list T)) :
  compatible n c rows bv -> rows <> [] ->
  generate_combinations (elements rows) (length rows) = [elements rows] /\
  exists b,
    beta rows bv = Ok b /\
    search rows bv (length rows) =
    Ok (if gtb b zero
        then {| beta_max := b; best_A := Some rows |}
        else initial_state).
Proof.
  intros _ HN.
  assert (E : generate_combinations (elements rows) (length rows) = [elements rows]).
  { unfold generate_combinations, elements.
    pose proof (combinations_all (seq 0 (length rows))) as H.
    now rewrite length_seq in H. }
  split; [exact E|].
  destruct (beta_returns bv HN) as [b Eb]. exists b. split; [exact Eb|].
  unfold search. rewrite E. cbn [foldM]. unfold search_step.
  rewrite (@index_rows_select _ rows (elements rows)).
  - cbn [bind]. rewrite select_all, Eb. cbn [bind initial_state beta_max].
    now destruct (gtb b zero).
  - unfold elements. destruct rows; [contradiction|discriminate].
  - apply Forall_forall. intros i Hi. apply in_seq in Hi. lia.
Qed.

Lemma search_all_rows_witness :
  compatible 1 1 [[Float32.of_Z 3]; [Float32.of_Z (-5)]] (binary_vectors 1) /\
  search (Sc := float32) [[Float32.of_Z 3]; [Float32.of_Z (-5)]] (binary_vectors 1) 2 =
  Ok {| beta_max := Float32.of_Z 5;
        best_A := Some [[Float32.of_Z 3]; [Float32.of_Z (-5)]] |}.
Proof.
  assert (HC : compatible 1 1 [[Float32.of_Z 3]; [Float32.of_Z (-5)]]
                 (binary_vectors (Sc := float32) 1)).
  { split; [lia|]. split; [repeat constructor|].
    split; [reflexivity|repeat constructor]. }
  split; [exact HC|].
  destruct (proj2 (search_all_rows float32 HC ltac:(discriminate)))
    as [b [Eb ES]].
  vm_compute in Eb. injection Eb as <-. exact ES.
Defined.

(** ** The shape of the candidate rows *)

Lemma mapM_ok_Forall2 {A B : Type} (f : A -> result B) (l : list A) (l' : list B) :
  mapM f l = Ok l' -> Forall2 (fun x y => f x = Ok y) l l'.
Proof.
  revert l'. induction l as [|x l IH]; intros l'; cbn [mapM].
  - intros [= <-]. constructor.
  - destruct (f x) as [y|e] eqn:Ex; [|discriminate]. cbn [bind].
    destruct (mapM f l) as [ys|e]; [|discriminate]. cbn [bind].
    intros [= <-]. constructor; [exact Ex|now apply IH].
Qed.

Section CandidateShape.
Context {T : Type} `{Sc : Scalar T}.

Lemma length_vecmat (c : nat) (a : list T) (B : list (list T)) :
  B <> [] -> rect c B -> length (vecmat a B) = c.
Proof.
  intros HB HR. unfold vecmat.
  assert (Hacc : length (repeat zero (length (hd [] B))) = c).
  { rewrite repeat_length. destruct B as [|b B]; [easy|].
    now apply Forall_cons_iff in HR as [? _]. }
  clear HB. revert Hacc. generalize (repeat zero (length (hd [] B))).
  revert B HR. induction a as [|x a IH]; intros [|b B] HR acc Hacc;
    cbn [combine fold_left]; auto.
  apply Forall_cons_iff in HR as [Hb HR].
  apply IH; [exact HR|]. cbn [fst snd]. rewrite length_map2. lia.
Qed.

Lemma length_raw_rows (n : nat) : 1 <= n -> length (raw_rows n) = 2 ^ (2 ^ n).
Proof.
  intros Hn. rewrite raw_rows_eq by lia. now rewrite length_map, length_product.
Qed.

Lemma rect_raw_rows (n : nat) : 1 <= n -> rect n (raw_rows n).
Proof.
  intros Hn. rewrite raw_rows_eq by lia. unfold rect. rewrite Forall_map.
  apply Forall_forall. intros s _. apply length_vecmat.
  - intros E. apply map_eq_nil in E. now apply product_not_nil in E.
  - apply rect_map_map, rect_product.
Qed.

Lemma rect_normalized_rows (n : nat) : 1 <= n -> rect n (normalized_rows n).
Proof.
  intros Hn. unfold normalized_rows, rect.
  apply Forall_forall. intros q Hq. apply filter_In in Hq as [Hq _].
  rewrite normalized_rows_with_nans_eq in Hq.
  apply in_map_iff in Hq as [row [<- Hrow]]. rewrite length_map.
  pose proof (rect_raw_rows Hn) as HR. unfold rect in HR.
  rewrite Forall_forall in HR. now apply HR.
Qed.

Lemma length_normalized_rows (n : nat) :
  1 <= n -> length (normalized_rows n) <= 2 ^ (2 ^ n).
Proof.
  intros Hn. unfold normalized_rows.
  eapply Nat.le_trans; [apply filter_length_le|].
  rewrite normalized_rows_with_nans_eq, length_map.
  now rewrite length_raw_rows.
Qed.

Lemma fix_row_signs_ok (tensor rows : list (list T)) :
  fix_row_signs tensor = Ok rows ->
  exists l, Forall2 (fun row row' => fix_row_sign row = Ok row') tensor l /\
            l <> [] /\ rows = unique l.
Proof.
  unfold fix_row_signs. destruct (mapM fix_row_sign tensor) as [l|e] eqn:E;
    [|discriminate].
  cbn [bind]. destruct l as [|r0 l0] eqn:El; [discriminate|]. cbn [stack bind].
  intros [= <-]. exists (r0 :: l0). split; [|split; [easy|reflexivity]].
  now apply mapM_ok_Forall2.
Qed.
End CandidateShape.

(** X6.  For n >= 1, [candidate_rows(n)] builds one raw row for each of
    the 2^(2^n) subsets of the sign vectors, each of length n.  If it
    returns, the result has at least one row and at most 2^(2^n) rows, and
    every row has length n. *)
Theorem candidate_rows_shape (T : Type) (Sc : Scalar T) (n : nat) :
  1 <= n ->
  length (raw_rows n) = 2 ^ (2 ^ n) /\
  rect n (raw_rows n) /\
  forall rows, candidate_rows n = Ok rows ->
    rows <> [] /\ length rows <= 2 ^ (2 ^ n) /\ rect n rows.
Proof.
  intros Hn. split; [now apply length_raw_rows|].
  split; [now apply rect_raw_rows|].
  intros rows E. unfold candidate_rows in E.
  apply fix_row_signs_ok in E as [l [Fl [Hl ->]]].
  split; [now apply unique_not_nil|]. split.
  - eapply Nat.le_trans; [apply length_unique|].
    rewrite <- (Forall2_length Fl). unfold unique_normalized_rows.
    eapply Nat.le_trans; [apply length_unique|].
    now apply length_normalized_rows.
  - apply Forall_forall. intros row' Hrow'. apply unique_incl in Hrow'.
    destruct (@Forall2_in_right _ _ _ _ _ row' Fl Hrow') as [row [Hrow E]].
    destruct (fix_row_sign_cases row) as [E'|[row2 [E' HL]]]; [congruence|].
    rewrite E in E'. injection E' as <-. rewrite HL.
    apply unique_incl in Hrow.
    pose proof (rect_normalized_rows Hn) as HR. unfold rect in HR.
    rewrite Forall_forall in HR. now apply HR.
Qed.

Lemma candidate_rows_shape_witness :
  1 <= 2 /\
  length (raw_rows (Sc := float32) 2) = 16 /\
  forall rows, candidate_rows (Sc := float32) 2 = Ok rows ->
    rows <> [] /\ length rows <= 16 /\ rect 2 rows.
Proof.
  assert (Hn : 1 <= 2) by lia. split; [exact Hn|]. split.
  - exact (proj1 (candidate_rows_shape float32 Hn)).
  - exact (proj2 (proj2 (candidate_rows_shape float32 Hn))).
Defined.

(** ** [beta] in exact arithmetic, column by column *)

Section BetaColumns.
Local Open Scope R_scope.

Lemma fold_Rmax_ge_init (l : list R) (x : R) : x <= fold_left Rmax l x.
Proof.
  revert x. induction l as [|y l IH]; intros x; simpl; [lra|].
  eapply Rle_trans; [apply (Rmax_l x y)|apply IH].
Qed.

Lemma fold_Rmax_ge (l : list R) (x y : R) : In y l -> y <= fold_left Rmax l x.
Proof.
  revert x. induction l as [|z l IH]; intros x Hy; [destruct Hy|].
  simpl. destruct Hy as [->|Hy]; [|now apply IH].
  eapply Rle_trans; [apply (Rmax_r x y)|apply fold_Rmax_ge_init].
Qed.

Lemma fold_Rmax_in (l : list R) (x : R) :
  fold_left Rmax l x = x \/ In (fold_left Rmax l x) l.
Proof.
  revert x. induction l as [|y l IH]; intros x; simpl; [now left|].
  destruct (IH (Rmax x y)) as [E|H]; [|now right; right].
  rewrite E. unfold Rmax. destruct (Rle_dec x y); [right|]; now left.
Qed.

(** The maximum over the rows is attained, and bounds every row. *)
Lemma rowsmaxR_ge (f : list R -> R) (A : list (list R)) (a : list R) :
  In a A -> f a <= rowsmaxR f A.
Proof.
  destruct A as [|a0 rest]; [intros []|]. intros [<-|Ha]; simpl.
  - apply fold_Rmax_ge_init.
  - apply fold_Rmax_ge. now apply in_map.
Qed.

Lemma rowsmaxR_in (f : list R -> R) (A : list (list R)) :
  A <> [] -> exists a, In a A /\ rowsmaxR f A = f a.
Proof.
  destruct A as [|a0 rest]; [easy|]. intros _. simpl.
  destruct (fold_Rmax_in (map f rest) (f a0)) as [E|H].
  - exists a0. split; [now left|exact E].
  - apply in_map_iff in H as [a [E Ha]]. exists a. split; [now right|now rewrite E].
Qed.

Lemma rowsmaxR_incl (f : list R -> R) (A A' : list (list R)) :
  A <> [] -> incl A A' -> rowsmaxR f A <= rowsmaxR f A'.
Proof.
  intros HA HI. destruct (rowsmaxR_in f HA) as [a [Ha ->]].
  apply rowsmaxR_ge. now apply HI.
Qed.


Lemma nth_fold_map2_Rmax (c j : nat) (rest : list (list R)) :
  forall row, length row = c -> rect c rest -> (j < c)%nat ->
    nth j (fold_left (map2 Rmax) rest row) 0 =
    fold_left Rmax (map (fun r => nth j r 0) rest) (nth j row 0).
Proof.
  induction rest as [|r rest IH]; intros row Hrow HR Hj; [reflexivity|].
  apply Forall_cons_iff in HR as [Hr HR]. cbn [fold_left map].
  rewrite IH; [|rewrite length_map2; lia|assumption|assumption].
  now rewrite (@nth_map2 _ _ _ Rmax 0 0 0) by lia.
Qed.

Lemma length_fold_map2_Rmax (c : nat) (rest : list (list R)) :
  forall row, length row = c -> rect c rest ->
    length (fold_left (map2 Rmax) rest row) = c.
Proof.
  intros row Hrow HR. now destruct (@fold_max_ge c rest row Hrow HR).
Qed.

Lemma length_max_dim0R (c : nat) (A bv : list (list R)) :
  A <> [] -> bv <> [] -> rect c bv ->
  length (max_dim0R (map (map Rabs) (map (fun a => vecmatR a bv) A))) = c.
Proof.
  intros HA Hbv HR. destruct A as [|a0 rest]; [easy|]. cbn [map max_dim0R].
  apply length_fold_map2_Rmax.
  - rewrite length_map. now apply length_vecmatR.
  - unfold rect. rewrite !Forall_map. apply Forall_forall. intros a _.
    rewrite length_map. now apply length_vecmatR.
Qed.

Lemma nth_max_dim0R (c j : nat) (A bv : list (list R)) :
  A <> [] -> bv <> [] -> rect c bv -> (j < c)%nat ->
  nth j (max_dim0R (map (map Rabs) (map (fun a => vecmatR a bv) A))) 0 =
  colmaxR A bv j.
Proof.
  intros HA Hbv HR Hj. destruct A as [|a0 rest]; [easy|].
  cbn [map max_dim0R]. unfold colmaxR, vecmaxR, rowsmaxR.
  rewrite (@nth_fold_map2_Rmax c j).
  - rewrite nth_map_Rabs, (@vecmatR_nth c j) by assumption.
    f_equal. rewrite !map_map. apply map_ext. intros a.
    now rewrite nth_map_Rabs, (@vecmatR_nth c j) by assumption.
  - rewrite length_map. now apply length_vecmatR.
  - unfold rect. rewrite !Forall_map. apply Forall_forall. intros a _.
    rewrite length_map. now apply length_vecmatR.
  - assumption.
Qed.

Lemma max_dim0R_columns (c : nat) (A bv : list (list R)) :
  A <> [] -> bv <> [] -> rect c bv ->
  max_dim0R (map (map Rabs) (map (fun a => vecmatR a bv) A)) =
  map (colmaxR A bv) (seq 0 c).
Proof.
  intros HA Hbv HR. apply nth_ext with (d := 0) (d' := 0).
  - rewrite length_map, length_seq. now apply length_max_dim0R.
  - intros j Hj. rewrite (@length_max_dim0R c) in Hj by assumption.
    rewrite (@nth_max_dim0R c j) by assumption.
    rewrite (nth_indep _ 0 (colmaxR A bv 0)) by now rewrite length_map, length_seq.
    rewrite (map_nth (colmaxR A bv) (seq 0 c) 0%nat j).
    now rewrite seq_nth.
Qed.

(** [beta] is the mean over the columns of the largest absolute dot
    product of a row with the column. *)
Lemma betaR_columns (c : nat) (A bv : list (list R)) :
  A <> [] -> bv <> [] -> rect c bv ->
  betaR A bv = sumR (map (colmaxR A bv) (seq 0 c)) / IZR (Z.of_nat c).
Proof.
  intros HA Hbv HR. unfold betaR, meanR.
  rewrite (@max_dim0R_columns c) by assumption.
  now rewrite length_map, length_seq.
Qed.

Lemma beta_exact (c : nat) (A bv : list (list R)) :
  A <> [] -> bv <> [] -> rect c bv -> (1 <= c)%nat ->
  beta (map (map Fin) A) (map (map Fin) bv) = Ok (Fin (betaR A bv)).
Proof.
  intros HA Hbv HR Hc. apply beta_fin; [assumption|].
  intros E. apply (f_equal (@length R)) in E.
  rewrite (@length_max_dim0R c) in E by assumption. simpl in E. lia.
Qed.

Lemma colmaxR_nonneg (A bv : list (list R)) (j : nat) :
  A <> [] -> 0 <= colmaxR A bv j.
Proof.
  intros HA. unfold colmaxR, vecmaxR.
  destruct (rowsmaxR_in (fun a => Rabs (dotR a (column 0 bv j))) HA) as [a [_ ->]].
  apply Rabs_pos.
Qed.

Lemma sumR_le (A : Type) (f g : A -> R) (l : list A) :
  (forall x, In x l -> f x <= g x) -> sumR (map f l) <= sumR (map g l).
Proof.
  induction l as [|x l IH]; intros H; [unfold sumR; simpl; lra|].
  cbn [map]. rewrite !sumR_cons.
  specialize (H x (or_introl eq_refl)) as Hx.
  assert (Hl : sumR (map f l) <= sumR (map g l)).
  { apply IH. intros y Hy. apply H. now right. }
  lra.
Qed.

Lemma betaR_nonneg (c : nat) (A bv : list (list R)) :
  A <> [] -> bv <> [] -> rect c bv -> (1 <= c)%nat -> 0 <= betaR A bv.
Proof.
  intros HA Hbv HR Hc. rewrite (@betaR_columns c) by assumption.
  apply Rmult_le_pos.
  - apply sumR_nonneg. rewrite Forall_map. apply Forall_forall.
    intros j _. now apply colmaxR_nonneg.
  - apply Rlt_le, Rinv_0_lt_compat, IZR_lt. lia.
Qed.

Lemma betaR_incl (c : nat) (A A' bv : list (list R)) :
  A <> [] -> incl A A' -> bv <> [] -> rect c bv -> (1 <= c)%nat ->
  betaR A bv <= betaR A' bv.
Proof.
  intros HA HI Hbv HR Hc.
  assert (HA' : A' <> []).
  { destruct A as [|a A]; [easy|]. intros ->. apply (HI a). now left. }
  rewrite !(@betaR_columns c) by assumption.
  apply Rmult_le_compat_r.
  - apply Rlt_le, Rinv_0_lt_compat, IZR_lt. lia.
  - apply sumR_le. intros j _. unfold colmaxR, vecmaxR. now apply rowsmaxR_incl.
Qed.
End BetaColumns.

(** X7.  In exact arithmetic [beta] is never negative, and it does not
    decrease when rows are added: if every row of [A] is a row of [A'],
    then [beta(A) <= beta(A')], for any evaluation matrix with at least one
    column. *)
Theorem beta_monotone (n c : nat) (A A' bv : list (list R)) :
  compatible n c A' bv -> 1 <= c -> A <> [] -> incl A A' ->
  exists b b',
    beta (map (map Fin) A) (map (map Fin) bv) = Ok (Fin b) /\
    beta (map (map Fin) A') (map (map Fin) bv) = Ok (Fin b') /\
    (0 <= b <= b')%R.
Proof.
  intros [Hn [HRA [Hlen HRb]]] Hc HA HI.
  assert (Hbv : bv <> []) by (intros ->; simpl in Hlen; lia).
  assert (HA' : A' <> []).
  { destruct A as [|a A0]; [easy|]. intros ->. apply (HI a). now left. }
  exists (betaR A bv), (betaR A' bv).
  split; [now apply beta_exact with (c := c)|].
  split; [now apply beta_exact with (c := c)|].
  split; [now apply betaR_nonneg with (c := c)|now apply betaR_incl with (c := c)].
Qed.

Lemma beta_monotone_witness :
  compatible 2 2 [[1; 2]; [3; -4]]%R [[1; 1]; [1; -1]]%R /\
  exists b b',
    beta (map (map Fin) [[3; -4]]%R) (map (map Fin) [[1; 1]; [1; -1]]%R) =
    Ok (Fin b) /\
    beta (map (map Fin) [[1; 2]; [3; -4]]%R) (map (map Fin) [[1; 1]; [1; -1]]%R) =
    Ok (Fin b') /\
    (0 <= b <= b')%R.
Proof.
  assert (HC : compatible 2 2 [[1; 2]; [3; -4]]%R [[1; 1]; [1; -1]]%R).
  { split; [lia|]. split; [repeat constructor|].
    split; [reflexivity|repeat constructor]. }
  split; [exact HC|].
  apply (@beta_monotone 2 2 [[3; -4]]%R _ _ HC).
  - lia.
  - discriminate.
  - intros a [<-|[]]. right. now left.
Defined.

(** ** [beta] on the sign vectors and on their first half *)

Section BetaSignVectors.
Local Open Scope R_scope.







Lemma map_nth_list {A B : Type} (g : A -> B) (d : A) (l : list A) :
  map (fun j => g (nth j l d)) (seq 0 (length l)) = map g l.
Proof.
  rewrite <- (map_map (fun j => nth j l d) g). now rewrite map_nth_seq.
Qed.





Lemma betaR_half_set (n : nat) (A : list (list R)) :
  (1 <= n)%nat -> A <> [] ->
  betaR A (binary_vectorsR n) =
  sumR (map (fun v => vecmaxR A (map IZR v)) (half_set n)) /
  IZR (Z.of_nat (2 ^ (n - 1))).
Proof.
  intros Hn HA.
  rewrite (@betaR_columns (2 ^ (n - 1)) A (binary_vectorsR n) HA
             (binary_vectorsR_not_nil Hn) (rect_binary_vectorsR Hn)).
  f_equal. f_equal. rewrite <- (length_half_set Hn).
  rewrite <- (map_nth_list (fun v => vecmaxR A (map IZR v)) [] (half_set n)).
  apply map_ext_in. intros j Hj. apply in_seq in Hj. unfold colmaxR.
  rewrite column_binary_vectorsR; [reflexivity|assumption|].
  rewrite <- (length_half_set Hn). lia.
Qed.



Lemma dotR_zero_l (a v : list R) : Forall (fun x => x = 0) a -> dotR a v = 0.
Proof.
  intros Ha. revert v. induction Ha as [|x a -> Ha IH]; intros [|y v];
    rewrite ?dotR_nil_l, ?dotR_nil_r, ?dotR_cons; try lra.
  rewrite IH. lra.
Qed.
End BetaSignVectors.

Section BetaTheorems.
Local Open Scope R_scope.

Lemma sumR_zero (A : Type) (f : A -> R) (l : list A) :
  (forall x, In x l -> f x = 0) -> sumR (map f l) = 0.
Proof.
  induction l as [|x l IH]; intros H; [reflexivity|].
  cbn [map]. rewrite sumR_cons, (H x) by now left.
  rewrite IH; [lra|]. intros y Hy. apply H. now right.
Qed.

Lemma betaR_zero_matrix (n : nat) (A : list (list R)) :
  (1 <= n)%nat -> A <> [] -> Forall (Forall (fun x => x = 0)) A ->
  betaR A (binary_vectorsR n) = 0.
Proof.
  intros Hn HA HZ. rewrite betaR_half_set by assumption.
  rewrite sumR_zero; [unfold Rdiv; lra|].
  intros v _. unfold vecmaxR.
  destruct (rowsmaxR_in (fun a => Rabs (dotR a (map IZR v))) HA) as [a [Ha ->]].
  rewrite Forall_forall in HZ. rewrite (dotR_zero_l _ (HZ a Ha)).
  apply Rabs_R0.
Qed.

Lemma betaR_nonzero_matrix (n : nat) (A : list (list R)) :
  (1 <= n)%nat -> rect n A -> Exists (Exists (fun x => x <> 0)) A ->
  0 < betaR A (binary_vectorsR n).
Proof.
  intros Hn HR HE.
  assert (HA : A <> []) by (intros ->; inversion HE).
  rewrite betaR_half_set by assumption.
  apply Rdiv_lt_0_compat.
  2:{ apply IZR_lt. pose proof (Nat.pow_nonzero 2 (n - 1)). lia. }
  apply Exists_exists in HE as [a [Ha Hnz]].
  assert (Hla : length a = n).
  { unfold rect in HR. rewrite Forall_forall in HR. now apply HR. }
  destruct (@exists_half_set n a Hla Hnz) as [v [Hv Hne]].
  apply sumR_pos.
  - rewrite Forall_map. apply Forall_forall. intros w _.
    unfold vecmaxR.
    destruct (rowsmaxR_in (fun a => Rabs (dotR a (map IZR w))) HA) as [a' [_ ->]].
    apply Rabs_pos.
  - apply Exists_exists. exists (vecmaxR A (map IZR v)). split.
    + apply in_map_iff. now exists v.
    + eapply Rlt_le_trans; [apply Rabs_pos_lt, Hne|].
      unfold vecmaxR.
      now apply (rowsmaxR_ge (fun a => Rabs (dotR a (map IZR v)))).
Qed.






End BetaTheorems.



(** X9.  In exact arithmetic [beta] of a matrix with n >= 1 columns over
    the evaluation matrix is 0 if every entry of the matrix is 0, and is
    greater than 0 if some entry is not 0.  So the initial [beta_max = 0]
    of the search is below the objective of every matrix except the zero
    matrix. *)
Theorem beta_zero_matrix (n : nat) (A : list (list R)) :
  1 <= n -> A <> [] -> rect n A ->
  exists b,
    beta (map (map Fin) A) (binary_vectors n) = Ok (Fin b) /\
    (Forall (Forall (fun x => x = 0%R)) A -> b = 0%R) /\
    (Exists (Exists (fun x => x <> 0%R)) A -> (0 < b)%R).
Proof.
  intros Hn HA HR. exists (betaR A (binary_vectorsR n)). split; [|split].
  - rewrite binary_vectors_xreal.
    apply beta_exact with (c := 2 ^ (n - 1)).
    + assumption.
    + now apply binary_vectorsR_not_nil.
    + now apply rect_binary_vectorsR.
    + pose proof (Nat.pow_nonzero 2 (n - 1)). lia.
  - now apply betaR_zero_matrix.
  - now apply betaR_nonzero_matrix.
Qed.

Lemma beta_zero_matrix_witness :
  1 <= 2 /\ rect 2 [[0; 0]; [0; 5]]%R /\
  exists b,
    beta (map (map Fin) [[0; 0]; [0; 5]]%R) (binary_vectors 2) = Ok (Fin b) /\
    (0 < b)%R.
Proof.
  assert (Hn : 1 <= 2) by lia.
  assert (HR : rect 2 [[0; 0]; [0; 5]]%R) by repeat constructor.
  split; [exact Hn|]. split; [exact HR|].
  destruct (@beta_zero_matrix 2 [[0; 0]; [0; 5]]%R Hn ltac:(discriminate) HR)
    as [b [E [_ Hpos]]].
  exists b. split; [exact E|]. apply Hpos.
  apply Exists_cons_tl, Exists_cons_hd, Exists_cons_tl, Exists_cons_hd. lra.
Defined.



(** ** [fix_row_signs] on finite rows: one row of each sign pair *)

Section FixRowSignsExact.
Local Open Scope R_scope.

Lemma xeqb_eq (x y : xreal) : xeqb x y = true -> x = y.
Proof.
  destruct x as [|s|a], y as [|s'|b]; simpl; try discriminate.
  - intros H. apply eqb_prop in H. now subst.
  - intros H. apply Reqb_true in H. now subst.
Qed.

Lemma row_eqb_eq (a b : list xreal) : row_eqb a b = true -> a = b.
Proof.
  revert b. induction a as [|x a IH]; intros [|y b]; simpl; try discriminate;
    [reflexivity|].
  intros H. apply andb_true_iff in H as [H1 H2].
  apply xeqb_eq in H1. apply IH in H2. now subst.
Qed.

(** In exact arithmetic [torch.unique] loses no row. *)
Lemma unique_from_complete (prev : list xreal) (l : list (list xreal)) (x : list xreal) :
  In x l -> x = prev \/ In x (unique_from prev l).
Proof.
  revert prev. induction l as [|h t IH]; intros prev Hx; [destruct Hx|].
  cbn [unique_from]. destruct (row_eqb prev h) eqn:E.
  - apply row_eqb_eq in E. subst h. destruct Hx as [->|Hx]; [now left|].
    now apply IH.
  - destruct Hx as [->|Hx]; [right; now left|].
    destruct (IH h Hx) as [->|H]; right; [now left|now right].
Qed.

Lemma unique_complete (l : list (list xreal)) (x : list xreal) :
  In x l -> In x (unique l).
Proof.
  intros Hx. unfold unique.
  apply (Permutation_in _ (Permutation_sym (sort_rows_perm l))) in Hx.
  destruct (sort_rows l) as [|h t]; [destruct Hx|].
  cbn [unique_consecutive]. destruct Hx as [->|Hx]; [now left|].
  destruct (unique_from_complete h t x Hx) as [->|H]; [now left|now right].
Qed.

Lemma map_Fin_inj (a b : list R) : map Fin a = map Fin b -> a = b.
Proof.
  revert b. induction a as [|x a IH]; intros [|y b]; simpl; try discriminate;
    [reflexivity|].
  intros [= -> H]. f_equal. now apply IH.
Qed.

Lemma in_map_Fin (w : list R) (C : list (list R)) :
  In (map Fin w) (map (map Fin) C) -> In w C.
Proof.
  intros H. apply in_map_iff in H as [w' [E Hw']].
  apply map_Fin_inj in E. now subst.
Qed.

Lemma lexR_asym (a b : list R) : lexR a b -> ~ lexR b a.
Proof. intros H1 H2. apply (@lexR_irrefl a). eapply lexR_trans; eassumption. Qed.

Lemma unique_fin_complete (n : nat) (L : list (list R)) :
  rect n L ->
  exists L', unique (map (map Fin) L) = map (map Fin) L' /\
             incl L' L /\ incl L L' /\ StronglySorted lexR L'.
Proof.
  intros HL. destruct (unique_fin HL) as [L' [E [I [S _]]]].
  exists L'. split; [exact E|]. split; [exact I|]. split; [|exact S].
  intros x Hx. apply in_map_Fin. rewrite <- E.
  apply unique_complete. now apply in_map.
Qed.

(** A strictly increasing tensor is a fixed point of [torch.unique]. *)
Lemma insert_row_below (r : list R) (L : list (list R)) :
  Forall (lexR r) L ->
  insert_row (map Fin r) (map (map Fin) L) = map (map Fin) (r :: L).
Proof.
  intros H. destruct L as [|h t]; [reflexivity|].
  apply Forall_cons_iff in H as [Hh _]. cbn [map insert_row].
  assert (E : row_ltb (map Fin h) (map Fin r) = false).
  { apply row_ltb_fin_false. now apply lexR_asym. }
  now rewrite E.
Qed.

Lemma sort_rows_sorted (L : list (list R)) :
  StronglySorted lexR L -> sort_rows (map (map Fin) L) = map (map Fin) L.
Proof.
  induction 1 as [|r L HS IH Hr]; [reflexivity|].
  cbn [map sort_rows fold_right]. fold (sort_rows (map (map Fin) L)).
  rewrite IH. now apply insert_row_below.
Qed.

Lemma unique_from_sorted (L : list (list R)) :
  forall prev, StronglySorted lexR (prev :: L) ->
    unique_from (map Fin prev) (map (map Fin) L) = map (map Fin) L.
Proof.
  induction L as [|x L IH]; intros prev HS; [reflexivity|].
  apply StronglySorted_inv in HS as [HS Hprev].
  apply Forall_cons_iff in Hprev as [Hlt _].
  cbn [map unique_from].
  assert (E : row_eqb (map Fin prev) (map Fin x) = false).
  { apply row_eqb_fin_false. intros ->. now apply lexR_irrefl in Hlt. }
  rewrite E. f_equal. now apply IH.
Qed.

Lemma unique_sorted (L : list (list R)) :
  StronglySorted lexR L -> unique (map (map Fin) L) = map (map Fin) L.
Proof.
  intros HS. unfold unique. rewrite sort_rows_sorted by assumption.
  destruct L as [|x L]; [reflexivity|].
  cbn [map unique_consecutive]. f_equal. now apply unique_from_sorted.
Qed.

Lemma fix_rowR_fixed (w : list R) : canonR w -> fix_rowR w = w.
Proof.
  intros [i [Hi Hpos]].
  destruct (@fix_rowR_cases w i Hi) as [[E _]|[_ Hneg]]; [exact E|lra].
Qed.

Lemma sorted_row_ltb (C : list (list R)) :
  StronglySorted lexR C ->
  StronglySorted (fun a b => row_ltb a b = true) (map (map Fin) C).
Proof.
  induction 1 as [|w C HS IH Hw]; [constructor|].
  cbn [map]. constructor; [exact IH|].
  rewrite Forall_map. eapply Forall_impl; [|exact Hw].
  intros v Hv. now apply row_ltb_fin.
Qed.

Lemma mapM_fix_row_sign_fin (L : list (list R)) :
  Forall (Exists (fun x => x <> 0)) L ->
  mapM fix_row_sign (map (map Fin) L) = Ok (map (map Fin) (map fix_rowR L)).
Proof.
  intros HF. rewrite (map_map fix_rowR (map Fin)).
  apply (@mapM_map_ok _ _ _ fix_row_sign (map Fin) (fun u => map Fin (fix_rowR u))).
  intros u Hu. rewrite fix_row_sign_fin.
  destruct (find_index nzR u) as [i|] eqn:Ei; [reflexivity|].
  exfalso. apply find_index_None in Ei.
  rewrite Forall_forall in HF. specialize (HF u Hu).
  apply Exists_exists in HF as [x [Hx Hnz]].
  rewrite Forall_forall in Ei. apply Ei, nzR_false in Hx. contradiction.
Qed.

Lemma fix_row_signs_fin (n : nat) (L : list (list R)) :
  L <> [] -> rect n L -> Forall (Exists (fun x => x <> 0)) L ->
  exists C,
    fix_row_signs (map (map Fin) L) = Ok (map (map Fin) C) /\
    C <> [] /\ rect n C /\ StronglySorted lexR C /\ Forall canonR C /\
    (forall w, In w C -> exists v, In v L /\ (w = v \/ w = map Ropp v)) /\
    (forall v, In v L -> In v C \/ In (map Ropp v) C).
Proof.
  intros HN HR HF. unfold fix_row_signs.
  rewrite mapM_fix_row_sign_fin by assumption. cbn [bind].
  assert (HW : rect n (map fix_rowR L)).
  { unfold rect. rewrite Forall_map. eapply Forall_impl; [|exact HR].
    intros v Hv. simpl in Hv. now rewrite length_fix_rowR. }
  destruct (unique_fin_complete HW) as [C [EC [IC [IC' SC]]]].
  assert (HI : forall v, In v L -> exists i, find_index nzR v = Some i).
  { intros v Hv. destruct (find_index nzR v) as [i|] eqn:Ei; [now exists i|].
    exfalso. apply find_index_None in Ei.
    rewrite Forall_forall in HF. specialize (HF v Hv).
    apply Exists_exists in HF as [x [Hx Hnz]].
    rewrite Forall_forall in Ei. apply Ei, nzR_false in Hx. contradiction. }
  destruct (map (map Fin) (map fix_rowR L)) as [|w0 W0] eqn:EW.
  { apply map_eq_nil in EW. apply map_eq_nil in EW. contradiction. }
  cbn [stack bind]. rewrite EC. exists C.
  split; [reflexivity|]. split.
  { destruct L as [|v0 L0]; [contradiction|]. intros ->.
    apply (IC' (fix_rowR v0)). now left. }
  split.
  { unfold rect in *. rewrite Forall_forall in *. intros w Hw. now apply HW, IC. }
  split; [exact SC|]. split; [|split].
  - apply Forall_forall. intros w Hw. apply IC, in_map_iff in Hw as [v [<- Hv]].
    destruct (HI v Hv) as [i Hi]. now apply fix_rowR_canon with (i := i).
  - intros w Hw. apply IC, in_map_iff in Hw as [v [<- Hv]].
    exists v. split; [exact Hv|].
    destruct (HI v Hv) as [i Hi].
    destruct (@fix_rowR_cases v i Hi) as [[E _]|[E _]]; auto.
  - intros v Hv. assert (Hw : In (fix_rowR v) C) by now apply IC', in_map.
    destruct (HI v Hv) as [i Hi].
    destruct (@fix_rowR_cases v i Hi) as [[E _]|[E _]]; rewrite E in Hw; auto.
Qed.

Lemma one_of_each_sign_pair_intro (L C : list (list R)) :
  StronglySorted lexR C -> Forall canonR C ->
  (forall w, In w C -> exists v, In v L /\ (w = v \/ w = map Ropp v)) ->
  (forall v, In v L -> In v C \/ In (map Ropp v) C) ->
  one_of_each_sign_pair L C.
Proof.
  intros SC HC Hsound Hcomplete. unfold one_of_each_sign_pair.
  split; [now apply sorted_row_ltb|].
  split.
  { rewrite Forall_map. eapply Forall_impl; [|exact HC].
    intros w. apply sign_canonical_fin. }
  split; [now apply distinct_up_to_sign_fin|].
  split; [exact Hsound|].
  intros v Hv. split; [now apply Hcomplete|].
  intros [H1 H2]. rewrite Forall_forall in HC.
  now apply (@canonR_not_opp (map Ropp v) v (HC _ H2) (HC _ H1)).
Qed.
End FixRowSignsExact.

(** X11.  On a tensor of finite rows of one length, each with a non-zero
    entry, [fix_row_signs] in exact arithmetic keeps exactly one row of
    each pair of a row and its negation: every row of the result is a row
    of the input or the negation of one; of each input row, the row or its
    negation is in the result, and not both; every row of the result has
    its first non-zero entry positive; and the result is strictly
    increasing in the order of [torch.unique], so no row occurs twice. *)
Theorem fix_row_signs_one_of_each_pair (n : nat) (L : list (list R)) :
  L <> [] -> rect n L -> Forall (Exists (fun x => x <> 0%R)) L ->
  exists C,
    fix_row_signs (map (map Fin) L) = Ok (map (map Fin) C) /\
    one_of_each_sign_pair L C.
Proof.
  intros HN HR HF.
  destruct (fix_row_signs_fin HN HR HF) as [C [E [_ [_ [SC [HC [Hs Hc]]]]]]].
  exists C. split; [exact E|]. now apply one_of_each_sign_pair_intro.
Qed.

Lemma fix_row_signs_one_of_each_pair_witness :
  rect 2 [[0; -2]; [1; 3]; [0; 2]]%R /\
  exists C,
    fix_row_signs (map (map Fin) [[0; -2]; [1; 3]; [0; 2]]%R) =
    Ok (map (map Fin) C) /\
    one_of_each_sign_pair [[0; -2]; [1; 3]; [0; 2]]%R C.
Proof.
  assert (HR : rect 2 [[0; -2]; [1; 3]; [0; 2]]%R) by repeat constructor.
  split; [exact HR|].
  apply (@fix_row_signs_one_of_each_pair 2 [[0; -2]; [1; 3]; [0; 2]]%R);
    [discriminate|exact HR|].
  constructor; [|constructor; [|constructor; [|constructor]]].
  - apply Exists_cons_tl, Exists_cons_hd. lra.
  - apply Exists_cons_hd. lra.
  - apply Exists_cons_tl, Exists_cons_hd. lra.
Defined.

(** X12.  [fix_row_signs] is idempotent in exact arithmetic: applied to
    its own result on finite rows, it returns that result unchanged. *)
Theorem fix_row_signs_idempotent (n : nat) (L : list (list R))
        (rows : list (list xreal)) :
  rect n L ->
  fix_row_signs (map (map Fin) L) = Ok rows ->
  fix_row_signs rows = Ok rows.
Proof.
  intros HR E.
  assert (HN : L <> []) by (intros ->; discriminate E).
  assert (HF : Forall (Exists (fun x => x <> 0%R)) L).
  { apply Forall_forall. intros v Hv.
    destruct (find_index nzR v) as [i|] eqn:Ei.
    - destruct (@find_index_Some R 0%R nzR v i Ei) as [Hi [Hnz _]].
      apply Exists_exists. exists (nth i v 0%R). split; [now apply nth_In|].
      now apply nzR_true.
    - exfalso. unfold fix_row_signs in E.
      rewrite mapM_fix_row_sign_zero_row in E; [discriminate|].
      apply Exists_exists. exists (map Fin v). split; [now apply in_map|].
      rewrite Forall_map. apply find_index_None in Ei.
      eapply Forall_impl; [|exact Ei]. intros x Hx.
      apply nzR_false in Hx. subst x. simpl. now apply Reqb_true. }
  destruct (fix_row_signs_fin HN HR HF) as [C [EC [NC [_ [SC [HC _]]]]]].
  rewrite EC in E. injection E as <-.
  unfold fix_row_signs. rewrite mapM_fix_row_sign_fin.
  - cbn [bind].
    replace (map fix_rowR C) with C.
    2:{ rewrite <- (map_id C) at 1. apply map_ext_in. intros w Hw.
        symmetry. apply fix_rowR_fixed.
        rewrite Forall_forall in HC. now apply HC. }
    destruct C as [|w0 C0] eqn:EC0; [contradiction|]. rewrite <- EC0 in *.
    replace (stack (map (map Fin) C)) with (Ok (map (map Fin) C))
      by (rewrite EC0; reflexivity).
    cbn [bind]. now rewrite unique_sorted.
  - eapply Forall_impl; [|exact HC]. intros w [i [Hi Hpos]].
    apply Exists_exists. exists (nth i w 0%R).
    destruct (@find_index_Some R 0%R nzR w i Hi) as [Hlen [Hnz _]].
    split; [now apply nth_In|now apply nzR_true].
Qed.

Lemma fix_row_signs_idempotent_witness :
  rect 1 [[-2]; [2]]%R /\
  fix_row_signs (map (map Fin) [[-2]; [2]]%R) = Ok [[Fin 2]] /\
  fix_row_signs [[Fin 2]] = Ok [[Fin 2]].
Proof.
  assert (HR : rect 1 [[-2]; [2]]%R) by repeat constructor.
  assert (E : fix_row_signs (map (map Fin) [[-2]; [2]]%R) = Ok [[Fin 2]]).
  { unfold fix_row_signs. cbn [map mapM].
    change [Fin (-2)] with (map Fin [(-2)%R]).
    change [Fin 2] with (map Fin [2%R]).
    rewrite !fix_row_sign_fin. unfold fix_rowR. cbn [find_index nzR].
    assert (N1 : Reqb (-2) 0 = false) by (apply Reqb_false; lra).
    assert (N2 : Reqb 2 0 = false) by (apply Reqb_false; lra).
    unfold nzR. rewrite N1, N2. cbn [negb nth map bind stack].
    unfold sgnR.
    assert (L1 : Rltb 0 (-2) = false) by (apply Rltb_false; lra).
    assert (L2 : Rltb (-2) 0 = true) by (apply Rltb_true; lra).
    assert (L3 : Rltb 0 2 = true) by (apply Rltb_true; lra).
    rewrite L1, L2, L3.
    replace (-2 * -1)%R with 2%R by lra. replace (2 * 1)%R with 2%R by lra.
    unfold unique. cbn [sort_rows fold_right insert_row row_ltb ltb xreal_scalar xltb].
    assert (L4 : Rltb 2 2 = false) by (apply Rltb_false; lra).
    rewrite L4. cbn [unique_consecutive unique_from row_eqb eqb xreal_scalar xeqb].
    assert (E2 : Reqb 2 2 = true) by now apply Reqb_true.
    rewrite E2. reflexivity. }
  split; [exact HR|]. split; [exact E|].
  exact (@fix_row_signs_idempotent 1 _ _ HR E).
Defined.

(** ** The candidate rows are the subset sums, up to sign and scale *)

Section SubsetSums.
Local Open Scope R_scope.

Lemma map2_add_IZR (acc brow : list Z) :
  map2 (fun s b => s + 1 * b) (map IZR acc) (map IZR brow) =
  map IZR (map2 Z.add acc brow).
Proof.
  revert brow. induction acc as [|x acc IH]; intros [|y brow]; simpl; auto.
  rewrite IH, plus_IZR. f_equal. lra.
Qed.

Lemma map2_add_zero (acc brow : list R) :
  length brow = length acc -> map2 (fun s b => s + 0 * b) acc brow = acc.
Proof.
  revert brow. induction acc as [|x acc IH]; intros [|y brow] H;
    simpl in *; try discriminate; auto.
  f_equal; [lra|]. apply IH. lia.
Qed.

(** A row of [binary_choices @ vectors(n).T] is the sum of the chosen
    vectors. *)
Lemma vecmatR_chosen (s : list Z) (vs : list (list Z)) :
  forall acc : list Z,
    Forall (fun x => x = 0%Z \/ x = 1%Z) s -> rect (length acc) vs ->
    fold_left (fun acc p => map2 (fun s b => s + fst p * b) acc (snd p))
              (combine (map IZR s) (map (map IZR) vs)) (map IZR acc) =
    map IZR (fold_left (map2 Z.add) (chosen s vs) acc).
Proof.
  revert vs. induction s as [|x s IH]; intros [|v vs] acc Hs HR;
    cbn [map combine fold_left]; try reflexivity.
  apply Forall_cons_iff in Hs as [Hx Hs]. apply Forall_cons_iff in HR as [Hv HR].
  unfold chosen. cbn [combine filter fst snd].
  destruct Hx as [-> | ->]; cbn [Z.eqb Pos.eqb map fold_left].
  - rewrite map2_add_zero by now rewrite !length_map.
    now apply IH.
  - rewrite map2_add_IZR. apply IH; [assumption|].
    cbn [snd]. rewrite length_map2, Hv, Nat.min_id. exact HR.
Qed.

Lemma raw_rowsR_subset_sums (n : nat) :
  (1 <= n)%nat ->
  raw_rowsR n = map (fun s => map IZR (subset_sum n s)) (product [0; 1]%Z (2 ^ n)).
Proof.
  intros Hn. unfold raw_rowsR. apply map_ext_in. intros s Hs.
  apply in_product in Hs as [_ Hs].
  unfold vecmatR, subset_sum, vector_sum.
  assert (HP : rect n (product [(-1)%Z; 1%Z] n)) by apply rect_product.
  assert (E : length (hd [] (map (map IZR) (product [(-1)%Z; 1%Z] n))) = n).
  { pose proof (@product_not_nil Z (-1)%Z 1%Z n) as HN.
    destruct (product [(-1)%Z; 1%Z] n) as [|v vs]; [contradiction|].
    apply Forall_cons_iff in HP as [Hv _]. simpl. now rewrite length_map. }
  rewrite E. replace (repeat 0 n) with (map IZR (repeat 0%Z n))
    by now rewrite map_repeat.
  apply vecmatR_chosen; [assumption|]. now rewrite repeat_length.
Qed.

Lemma sumsq_IZR_nonzero (w : list Z) :
  sumsq (map IZR w) <> 0 <-> Exists (fun z => z <> 0%Z) w.
Proof.
  rewrite sumsq_zero, Forall_map. split.
  - intros H. induction w as [|z w IH]; [elim H; constructor|].
    destruct (Z.eq_dec z 0) as [->|Hz]; [|now left].
    right. apply IH. intros HF. apply H. now constructor.
  - intros HE HF. apply Exists_exists in HE as [z [Hz Hnz]].
    rewrite Forall_forall in HF. apply Hnz, eq_IZR. now apply HF.
Qed.

Lemma unitR_nonzero (v : list R) :
  sumsq v <> 0 -> Exists (fun x => x <> 0) (unitR v).
Proof.
  intros H. pose proof (@sumsq_unitR v H) as H1.
  destruct (@unit_has_nonzero (unitR v) H1) as [i Hi].
  destruct (@find_index_Some R 0 nzR (unitR v) i Hi) as [Hlen [Hnz _]].
  apply Exists_exists. exists (nth i (unitR v) 0).
  split; [now apply nth_In|now apply nzR_true].
Qed.
(** The returned rows cover the unit vectors of the non-zero subset sums,
    up to sign, and contain nothing else. *)
Lemma candidate_rows_cover (n : nat) :
  (1 <= n)%nat ->
  exists C,
    candidate_rows n = Ok (map (map Fin) C) /\
    C <> [] /\ rect n C /\ StronglySorted lexR C /\ Forall canonR C /\
    (forall s, In s (product [0; 1]%Z (2 ^ n)) ->
       Exists (fun z => z <> 0%Z) (subset_sum n s) ->
       In (unitR (map IZR (subset_sum n s))) C \/
       In (map Ropp (unitR (map IZR (subset_sum n s)))) C) /\
    (forall w, In w C ->
       exists s, In s (product [0; 1]%Z (2 ^ n)) /\
                 Exists (fun z => z <> 0%Z) (subset_sum n s) /\
                 (w = unitR (map IZR (subset_sum n s)) \/
                  w = map Ropp (unitR (map IZR (subset_sum n s))))).
Proof.
  intros Hn. assert (Hn' : (0 < n)%nat) by lia.
  assert (HN : rect n (normalized_rowsR n)).
  { apply Forall_forall. intros u Hu. now apply normalized_rowsR_unit in Hu. }
  destruct (unique_fin_complete HN) as [U [EU [IU [IU' _]]]].
  assert (HU : U <> []).
  { pose proof (normalized_rowsR_not_nil Hn') as HNN.
    destruct (normalized_rowsR n) as [|u0 N0]; [contradiction|].
    intros ->. apply (IU' u0). now left. }
  assert (HRU : rect n U).
  { unfold rect in *. rewrite Forall_forall in *. intros u Hu. now apply HN, IU. }
  assert (HFU : Forall (Exists (fun x => x <> 0)) U).
  { apply Forall_forall. intros u Hu. apply IU in Hu.
    unfold normalized_rowsR in Hu. apply in_map_iff in Hu as [v [<- Hv]].
    apply filter_In in Hv as [_ Hv]. apply negb_true_iff, Reqb_false in Hv.
    now apply unitR_nonzero. }
  destruct (fix_row_signs_fin HU HRU HFU) as [C [EC [NC [RC [SC [HC [Hs Hc]]]]]]].
  exists C. split; [|split; [exact NC|split; [exact RC|split; [exact SC|split; [exact HC|split]]]]].
  - unfold candidate_rows, unique_normalized_rows.
    now rewrite normalized_rows_xreal, EU by assumption.
  - intros s Hs' Hnz. apply Hc, IU'. unfold normalized_rowsR.
    apply in_map, filter_In. split.
    + rewrite raw_rowsR_subset_sums by assumption.
      apply in_map_iff. now exists s.
    + apply negb_true_iff, Reqb_false. now apply sumsq_IZR_nonzero.
  - intros w Hw. destruct (Hs w Hw) as [u [Hu E]].
    apply IU in Hu. unfold normalized_rowsR in Hu.
    apply in_map_iff in Hu as [v [<- Hv]].
    apply filter_In in Hv as [Hv Hnz]. apply negb_true_iff, Reqb_false in Hnz.
    rewrite raw_rowsR_subset_sums in Hv by assumption.
    apply in_map_iff in Hv as [s [<- Hs']].
    exists s. split; [exact Hs'|]. split; [now apply sumsq_IZR_nonzero|exact E].
Qed.
End SubsetSums.


(** X13.  In exact arithmetic [candidate_rows(n)] returns, up to sign,
    the unit vectors of all non-zero subset sums of the sign vectors and
    nothing else: for every 0/1 selector of the 2^n sign vectors whose
    chosen vectors do not add up to zero, the sum divided by its norm, or
    the negation of that, is a returned row; and every returned row is of
    that form.  The raw rows are the subset sums themselves, in exact
    arithmetic for every n and in binary32 for n = 1, 2, 3. *)
Theorem candidate_rows_subset_sums (n : nat) :
  1 <= n ->
  raw_rows n =
    map (fun s => map Fin (map IZR (subset_sum n s))) (product [0; 1]%Z (2 ^ n)) /\
  (n <= 3 ->
   raw_rows (Sc := float32) n =
     map (fun s => map of_int (subset_sum n s)) (product [0; 1]%Z (2 ^ n))) /\
  exists C,
    candidate_rows n = Ok (map (map Fin) C) /\
    (forall s, In s (product [0; 1]%Z (2 ^ n)) ->
       Exists (fun z => z <> 0%Z) (subset_sum n s) ->
       In (unitR (map IZR (subset_sum n s))) C \/
       In (map Ropp (unitR (map IZR (subset_sum n s)))) C) /\
    (forall w, In w C ->
       exists s, In s (product [0; 1]%Z (2 ^ n)) /\
                 Exists (fun z => z <> 0%Z) (subset_sum n s) /\
                 (w = unitR (map IZR (subset_sum n s)) \/
                  w = map Ropp (unitR (map IZR (subset_sum n s))))).
Proof.
  intros Hn. split.
  { rewrite raw_rows_xreal, raw_rowsR_subset_sums by lia.
    now rewrite map_map. }
  split.
  { intros Hn3.
    destruct (@small_cases n ltac:(lia)) as [->|[->| ->]]; vm_compute; reflexivity. }
  destruct (candidate_rows_cover Hn) as [C [E [_ [_ [_ [_ [Hc Hs]]]]]]].
  exists C. split; [exact E|]. split; [exact Hc|exact Hs].
Qed.

Lemma candidate_rows_subset_sums_witness :
  1 <= 2 /\
  In [1; 1; 0; 1]%Z (product [0; 1]%Z (2 ^ 2)) /\
  subset_sum 2 [1; 1; 0; 1]%Z = [-1; 1]%Z /\
  exists C,
    candidate_rows (Sc := xreal_scalar) 2 = Ok (map (map Fin) C) /\
    (In (unitR (map IZR (subset_sum 2 [1; 1; 0; 1]%Z))) C \/
     In (map Ropp (unitR (map IZR (subset_sum 2 [1; 1; 0; 1]%Z)))) C).
Proof.
  assert (Hn : 1 <= 2) by lia.
  assert (Hs : In [1; 1; 0; 1]%Z (product [0; 1]%Z (2 ^ 2))).
  { vm_compute. do 13 right. now left. }
  split; [exact Hn|]. split; [exact Hs|]. split; [reflexivity|].
  destruct (proj2 (proj2 (candidate_rows_subset_sums Hn))) as [C [E [Hc _]]].
  exists C. split; [exact E|].
  apply (Hc _ Hs). apply Exists_cons_hd. discriminate.
Defined.

(** ** NaN entries *)

Section NanPropagation.
Context {T : Type} `{Sc : Scalar T}.

Hypothesis add_nan_l : forall x y : T, isnan x = true -> isnan (add x y) = true.
Hypothesis add_nan_r : forall x y : T, isnan y = true -> isnan (add x y) = true.
Hypothesis mul_nan_l : forall x y : T, isnan x = true -> isnan (mul x y) = true.
Hypothesis abs_nan : forall x : T, isnan x = true -> isnan (abs x) = true.
Hypothesis div_nan_l : forall x y : T, isnan x = true -> isnan (div x y) = true.

Lemma vecmat_step_nan_acc (x : T) (acc brow : list T) :
  Forall (fun s => isnan s = true) acc ->
  Forall (fun s => isnan s = true) (map2 (fun s b => add s (mul x b)) acc brow).
Proof.
  intros H. revert brow. induction H as [|s acc Hs H IH]; intros [|b brow];
    simpl; constructor; auto.
Qed.

Lemma vecmat_step_nan_entry (x : T) (acc brow : list T) :
  isnan x = true ->
  Forall (fun s => isnan s = true) (map2 (fun s b => add s (mul x b)) acc brow).
Proof.
  intros Hx. revert brow. induction acc as [|s acc IH]; intros [|b brow];
    simpl; constructor; auto.
Qed.

Lemma vecmat_fold_nan_acc (c : nat) (a : list T) (B : list (list T)) :
  forall acc, rect c B -> length acc = c ->
    Forall (fun s => isnan s = true) acc ->
    Forall (fun s => isnan s = true)
      (fold_left (fun acc p => map2 (fun s b => add s (mul (fst p) b)) acc (snd p))
                 (combine a B) acc).
Proof.
  revert B. induction a as [|x a IH]; intros [|brow B] acc HR Hl Hacc;
    cbn [combine fold_left]; auto.
  apply Forall_cons_iff in HR as [Hb HR]. cbn [fst snd].
  apply IH; [assumption|rewrite length_map2; lia|].
  now apply vecmat_step_nan_acc.
Qed.

Lemma vecmat_fold_nan_entry (c : nat) (a : list T) (B : list (list T)) :
  forall acc, rect c B -> length acc = c -> length a <= length B ->
    Exists (fun x => isnan x = true) a ->
    Forall (fun s => isnan s = true)
      (fold_left (fun acc p => map2 (fun s b => add s (mul (fst p) b)) acc (snd p))
                 (combine a B) acc).
Proof.
  revert B. induction a as [|x a IH]; intros B acc HR Hl Hlen HE; [inversion HE|].
  destruct B as [|brow B]; [simpl in Hlen; lia|].
  apply Forall_cons_iff in HR as [Hb HR]. cbn [combine fold_left fst snd].
  apply Exists_cons in HE as [Hx|HE].
  - apply vecmat_fold_nan_acc with (c := c);
      [assumption|rewrite length_map2; lia|].
    now apply vecmat_step_nan_entry.
  - apply IH; [assumption|rewrite length_map2; lia| |assumption].
    simpl in Hlen. lia.
Qed.

Lemma vecmat_nan_entry (c : nat) (a : list T) (B : list (list T)) :
  B <> [] -> rect c B -> length a <= length B ->
  Exists (fun x => isnan x = true) a ->
  Forall (fun s => isnan s = true) (vecmat a B).
Proof.
  intros HB HR Hlen HE. unfold vecmat.
  apply vecmat_fold_nan_entry with (c := c); try assumption.
  rewrite repeat_length. destruct B as [|b B]; [easy|].
  now apply Forall_cons_iff in HR as [? _].
Qed.

Lemma map2_maximum_nan_l (a b : list T) :
  length a = length b -> Forall (fun s => isnan s = true) a ->
  Forall (fun s => isnan s = true) (map2 maximum a b).
Proof.
  intros Hl Ha. revert b Hl. induction Ha as [|x a Hx Ha IH]; intros [|y b] Hl;
    simpl in *; try discriminate; constructor.
  - now rewrite maximum_isnan, Hx.
  - apply IH. lia.
Qed.

Lemma map2_maximum_nan_r (a b : list T) :
  length a = length b -> Forall (fun s => isnan s = true) b ->
  Forall (fun s => isnan s = true) (map2 maximum a b).
Proof.
  intros Hl Hb. revert a Hl. induction Hb as [|y b Hy Hb IH]; intros [|x a] Hl;
    simpl in *; try discriminate; constructor.
  - rewrite maximum_isnan, Hy. apply orb_true_r.
  - apply IH. lia.
Qed.

Lemma fold_maximum_nan_acc (c : nat) (rest : list (list T)) :
  forall row, length row = c -> rect c rest ->
    Forall (fun s => isnan s = true) row ->
    Forall (fun s => isnan s = true) (fold_left (map2 maximum) rest row) /\
    length (fold_left (map2 maximum) rest row) = c.
Proof.
  induction rest as [|r rest IH]; intros row Hl HR Hrow; [now split|].
  apply Forall_cons_iff in HR as [Hr HR]. cbn [fold_left].
  apply IH; [rewrite length_map2; lia|assumption|].
  apply map2_maximum_nan_l; [congruence|assumption].
Qed.

Lemma fold_maximum_nan_row (c : nat) (rest : list (list T)) :
  forall row, length row = c -> rect c rest ->
    Exists (Forall (fun s => isnan s = true)) rest ->
    Forall (fun s => isnan s = true) (fold_left (map2 maximum) rest row) /\
    length (fold_left (map2 maximum) rest row) = c.
Proof.
  induction rest as [|r rest IH]; intros row Hl HR HE; [inversion HE|].
  apply Forall_cons_iff in HR as [Hr HR]. cbn [fold_left].
  apply Exists_cons in HE as [Hnan|HE].
  - apply fold_maximum_nan_acc; [rewrite length_map2; lia|assumption|].
    apply map2_maximum_nan_r; [congruence|assumption].
  - apply IH; [rewrite length_map2; lia|assumption|assumption].
Qed.

Lemma sum_nan (v : list T) :
  v <> [] -> Forall (fun s => isnan s = true) v -> isnan (sum v) = true.
Proof.
  intros Hv HF. unfold sum. destruct v as [|x v]; [easy|].
  apply Forall_cons_iff in HF as [Hx HF]. cbn [fold_left].
  assert (H0 : isnan (add zero x) = true) by now apply add_nan_r.
  clear Hv. revert H0. generalize (add zero x).
  induction HF as [|y v Hy HF IH]; intros acc Hacc; [exact Hacc|].
  cbn [fold_left]. apply IH. now apply add_nan_l.
Qed.

Lemma nan_objective_gen (n c : nat) : 1 <= c -> nan_objective n c.
Proof.
  intros Hc A bv [Hn [HRA [Hlen HRb]]] HE.
  assert (Hbv : bv <> []) by (intros ->; simpl in Hlen; lia).
  assert (HA : A <> []) by (intros ->; inversion HE).
  set (B := map (map abs) (matmul A bv)).
  assert (HB : rect c B).
  { unfold B, matmul, rect. rewrite !Forall_map. apply Forall_forall.
    intros a _. rewrite length_map. now apply length_vecmat. }
  assert (HBE : Exists (Forall (fun s => isnan s = true)) B).
  { unfold B, matmul. rewrite map_map. apply Exists_exists in HE as [a [Ha Hnan]].
    apply Exists_exists. exists (map abs (vecmat a bv)). split.
    - apply in_map_iff. now exists a.
    - rewrite Forall_map.
      assert (Hla : length a = n).
      { unfold rect in HRA. rewrite Forall_forall in HRA. now apply HRA. }
      eapply Forall_impl; [|apply vecmat_nan_entry with (c := c); try eassumption; lia].
      intros x. apply abs_nan. }
  assert (HM : exists m, max_dim0 B = Ok m /\
                         Forall (fun s => isnan s = true) m /\ length m = c).
  { destruct B as [|row rest]; [inversion HBE|].
    apply Forall_cons_iff in HB as [Hrow HB].
    exists (fold_left (map2 maximum) rest row). split; [reflexivity|].
    apply Exists_cons in HBE as [Hnan|HBE'].
    - now apply fold_maximum_nan_acc.
    - now apply fold_maximum_nan_row. }
  destruct HM as [m [Em [Hm Hlm]]].
  exists (mean m). split.
  - unfold beta. fold B. now rewrite Em.
  - unfold mean. apply div_nan_l, sum_nan; [|assumption].
    intros ->. simpl in Hlm. lia.
Qed.
End NanPropagation.

(** X14.  A NaN entry in the matrix makes the whole objective NaN: for
    every matrix with a NaN entry and every evaluation matrix with at
    least one column, [beta] returns NaN, in exact arithmetic and in
    binary32. *)
Theorem beta_nan_entry (n c : nat) :
  1 <= c ->
  nan_objective (Sc := xreal_scalar) n c /\ nan_objective (Sc := float32) n c.
Proof.
  intros Hc. split.
  - apply (@nan_objective_gen xreal xreal_scalar); try assumption.
    + intros [] y; simpl; congruence.
    + intros [| |] [] ; simpl; try congruence; try discriminate.
    + intros [] y; simpl; congruence.
    + intros []; simpl; congruence.
    + intros [] y; simpl; congruence.
  - apply (@nan_objective_gen spec_float float32); try assumption.
    + intros [] y; simpl; try discriminate. reflexivity.
    + intros [] []; simpl; try discriminate; reflexivity.
    + intros [] y; simpl; try discriminate. reflexivity.
    + intros []; simpl; try discriminate. reflexivity.
    + intros [] y; simpl; try discriminate. reflexivity.
Qed.

Lemma beta_nan_entry_witness :
  1 <= 1 /\
  exists b,
    beta (Sc := float32) [[Float32.of_Z 3]; [S754_nan]] (binary_vectors 1) = Ok b /\
    isnan b = true.
Proof.
  assert (Hc : 1 <= 1) by lia. split; [exact Hc|].
  apply (proj2 (@beta_nan_entry 1 1 Hc)).
  - split; [lia|]. split; [repeat constructor|].
    split; [reflexivity|repeat constructor].
  - apply Exists_cons_tl, Exists_cons_hd, Exists_cons_hd. reflexivity.
Defined.

(** ** The enumeration is exhaustive *)

Lemma combinations_0 {A : Type} (l : list A) : combinations l 0 = [[]].
Proof. now destruct l. Qed.

Lemma in_combinations_seq (m : nat) :
  forall (a : nat) (c : list nat),
    StronglySorted lt c -> Forall (fun i => a <= i < a + m) c ->
    In c (combinations (seq a m) (length c)).
Proof.
  induction m as [|m IH]; intros a c HS HF.
  - destruct c as [|x c]; [now left|].
    apply Forall_cons_iff in HF as [Hx _]. lia.
  - destruct c as [|x c]; [rewrite combinations_0; now left|].
    apply StronglySorted_inv in HS as [HS Hx].
    apply Forall_cons_iff in HF as [Hxr HF].
    cbn [seq length combinations]. apply in_or_app.
    destruct (Nat.eq_dec x a) as [->|Hne].
    + left. apply in_map. apply IH; [assumption|].
      rewrite Forall_forall in *. intros i Hi.
      specialize (Hx i Hi). specialize (HF i Hi). lia.
    + right. apply (IH (S a) (x :: c)).
      * now constructor.
      * constructor; [lia|].
        rewrite Forall_forall in *. intros i Hi.
        specialize (Hx i Hi). specialize (HF i Hi). lia.
Qed.

(** Every list of different numbers can be put in increasing order. *)
Lemma insert_sorted (x : nat) (c : list nat) :
  StronglySorted lt c -> ~ In x c ->
  exists c', Permutation (x :: c) c' /\ StronglySorted lt c'.
Proof.
  induction 1 as [|y c HS IH Hy]; intros Hx.
  - exists [x]. split; [apply Permutation_refl|repeat constructor].
  - destruct (Nat.lt_total x y) as [Hlt|[->|Hgt]].
    + exists (x :: y :: c). split; [apply Permutation_refl|].
      constructor; [now constructor|].
      constructor; [assumption|].
      eapply Forall_impl; [|exact Hy]. intros z Hz. simpl in Hz. lia.
    + elim Hx. now left.
    + destruct IH as [c' [P S]]; [intros H; apply Hx; now right|].
      exists (y :: c'). split.
      * eapply Permutation_trans; [apply perm_swap|now apply perm_skip].
      * constructor; [assumption|].
        apply Forall_forall. intros z Hz.
        apply (Permutation_in _ (Permutation_sym P)) in Hz.
        destruct Hz as [<-|Hz]; [assumption|].
        rewrite Forall_forall in Hy. now apply Hy.
Qed.

Lemma sorted_permutation (l : list nat) :
  NoDup l -> exists c, Permutation l c /\ StronglySorted lt c.
Proof.
  induction 1 as [|x l Hx HN [c [P S]]].
  - exists []. split; constructor.
  - destruct (@insert_sorted x c S) as [c' [P' S']].
    + intros H. apply Hx. now apply (Permutation_in _ (Permutation_sym P)).
    + exists c'. split; [|assumption].
      eapply Permutation_trans; [apply perm_skip, P|exact P'].
Qed.

(** X15.  The enumeration is exhaustive: every strictly increasing tuple
    of row indices is among the combinations of its length. *)
Theorem combinations_exhaustive (T : Type) (rows : list (list T)) (c : list nat) :
  StronglySorted lt c -> Forall (fun i => i < length rows) c ->
  In c (generate_combinations (elements rows) (length c)).
Proof.
  intros HS HF. unfold generate_combinations, elements.
  apply in_combinations_seq; [assumption|].
  eapply Forall_impl; [|exact HF]. intros i Hi. simpl in Hi. lia.
Qed.

Lemma combinations_exhaustive_witness :
  StronglySorted lt [0; 2] /\
  In [0; 2] (generate_combinations
               (elements [[Float32.of_Z 1]; [Float32.of_Z 2]; [Float32.of_Z 3]]) 2).
Proof.
  assert (HS : StronglySorted lt [0; 2]) by (repeat constructor; lia).
  split; [exact HS|].
  apply (@combinations_exhaustive _
           [[Float32.of_Z 1]; [Float32.of_Z 2]; [Float32.of_Z 3]] [0; 2] HS).
  repeat constructor; simpl; lia.
Defined.

Section SearchBounds.
Context {T : Type} `{Sc : Scalar T}.
Hypothesis beta_perm :
  forall A A' bv : list (list T), Permutation A A' -> beta A' bv = beta A bv.
Hypothesis beta_neg :
  forall (A1 A2 : list (list T)) (a : list T) (bv : list (list T)),
    beta (A1 ++ map neg a :: A2) bv = beta (A1 ++ a :: A2) bv.

Lemma beta_negate_rows_app (bv : list (list T)) (signs : list bool) :
  forall A A1 : list (list T),
    beta (A1 ++ negate_rows signs A) bv = beta (A1 ++ firstn (length signs) A) bv.
Proof.
  unfold negate_rows.
  induction signs as [|s signs IH]; intros [|a A] A1; cbn [map2 length firstn];
    try reflexivity.
  replace (A1 ++ (if s then map neg a else a) ::
                 map2 (fun (s0 : bool) a0 => if s0 then map neg a0 else a0) signs A)
    with ((A1 ++ [if s then map neg a else a]) ++
          map2 (fun (s0 : bool) a0 => if s0 then map neg a0 else a0) signs A)
    by now rewrite <- app_assoc.
  rewrite IH, <- app_assoc. cbn [app].
  destruct s; [apply beta_neg|reflexivity].
Qed.

Lemma beta_negate_rows (bv : list (list T)) (signs : list bool) (A : list (list T)) :
  length signs = length A -> beta (negate_rows signs A) bv = beta A bv.
Proof.
  intros Hl. pose proof (beta_negate_rows_app bv signs A []) as H.
  cbn [app] in H. now rewrite H, Hl, firstn_all.
Qed.

Lemma bounds_every_choice_gen (rows bv : list (list T)) (r : nat) :
  search_outcome rows bv r -> bounds_every_choice rows bv r.
Proof.
  intros [st [ES [Hub _]]] idx signs HN Hlen Hsigns HF.
  destruct (sorted_permutation HN) as [c [P S]].
  assert (Hc : In c (generate_combinations (elements rows) r)).
  { rewrite <- Hlen, (Permutation_length P).
    unfold generate_combinations, elements.
    apply in_combinations_seq; [assumption|].
    apply Forall_forall. intros i Hi. rewrite Forall_forall in HF.
    apply (Permutation_in _ (Permutation_sym P)), HF in Hi. lia. }
  destruct (Hub c Hc) as [b [Eb Hle]].
  exists st, b. split; [exact ES|]. split; [|exact Hle].
  rewrite beta_negate_rows by (unfold select; rewrite length_map; congruence).
  rewrite <- Eb. symmetry. apply beta_perm.
  unfold select. now apply Permutation_map.
Qed.
End SearchBounds.

(** X16.  The search is exhaustive up to the order and the signs of the
    rows: for r >= 1, the [beta_max] it returns is not below the objective
    of the matrix made of any r different rows of [rows], taken in any
    order and with any of them negated.  This holds in exact arithmetic and
    in binary32, whatever the rows contain. *)
Theorem search_bounds_every_choice (n c r : nat) :
  1 <= r ->
  (forall rows bv : list (list xreal),
     compatible n c rows bv -> bounds_every_choice rows bv r) /\
  (forall rows bv : list (list spec_float),
     compatible n c rows bv -> bounds_every_choice rows bv r).
Proof.
  intros Hr. split; intros rows bv _.
  - apply bounds_every_choice_gen;
      [apply (proj1 beta_invariant_exact)|apply (proj2 beta_invariant_exact)|].
    apply (@search_outcome_any xreal xreal_scalar xltb_asym xltb_trans
             xltb_not_nan rows bv r Hr).
  - apply bounds_every_choice_gen;
      [apply (proj1 beta_invariant_float32)|apply (proj2 beta_invariant_float32)|].
    apply (@search_outcome_any spec_float float32 SFltb_asym_all SFltb_trans_all
             SFltb_not_nan rows bv r Hr).
Qed.

Lemma search_bounds_every_choice_witness :
  1 <= 2 /\
  exists st b,
    search (Sc := float32)
      [[Float32.of_Z 1]; [Float32.of_Z (-4)]; [Float32.of_Z 2]] (binary_vectors 1) 2 =
    Ok st /\
    beta (negate_rows [true; false]
            (select [[Float32.of_Z 1]; [Float32.of_Z (-4)]; [Float32.of_Z 2]] [2; 0]))
         (binary_vectors 1) = Ok b /\
    ltb (beta_max st) b = false.
Proof.
  assert (Hr : 1 <= 2) by lia. split; [exact Hr|].
  apply (proj2 (@search_bounds_every_choice 1 1 2 Hr)
           [[Float32.of_Z 1]; [Float32.of_Z (-4)]; [Float32.of_Z 2]]
           (binary_vectors 1)).
  - split; [lia|]. split; [repeat constructor|].
    split; [reflexivity|repeat constructor].
  - repeat constructor; simpl; intuition discriminate.
  - reflexivity.
  - reflexivity.
  - repeat constructor; simpl; lia.
Defined.

(** ** The sign of [beta] in binary32 *)

Section BetaSignBinary32.

Lemma binary_round_aux_abs_value (m e : Z) (l : location) :
  float32_abs_value (binary_round_aux Float32.prec Float32.emax false m e l).
Proof.
  unfold float32_abs_value, binary_round_aux.
  destruct (shr_fexp Float32.prec Float32.emax m e l) as [mrs e'].
  destruct (shr_fexp Float32.prec Float32.emax _ e' loc_Exact) as [mrs' e''].
  destruct (shr_m mrs'); simpl; try reflexivity.
  destruct (Z.leb e'' _); reflexivity.
Qed.

Lemma binary_round_abs_value (m : positive) (e : Z) :
  float32_abs_value (binary_round Float32.prec Float32.emax false m e).
Proof.
  unfold binary_round. destruct (shl_align _ _ _) as [mz ez].
  apply binary_round_aux_abs_value.
Qed.

Lemma binary_normalize_abs_value (m e : Z) :
  (0 <= m)%Z ->
  float32_abs_value (binary_normalize Float32.prec Float32.emax m e false).
Proof.
  intros Hm. destruct m as [|p|p]; [reflexivity| |lia].
  apply binary_round_abs_value.
Qed.

Lemma SFadd_abs_value (x y : spec_float) :
  float32_abs_value x -> float32_abs_value y ->
  float32_abs_value (SFadd Float32.prec Float32.emax x y).
Proof.
  unfold float32_abs_value.
  destruct x as [[]|[]| |[] mx ex], y as [[]|[]| |[] my ey];
    simpl; intros Hx Hy; try discriminate; try reflexivity.
  apply binary_round_abs_value.
Qed.

Lemma SFdiv_abs_value (x y : spec_float) :
  float32_abs_value x -> float32_abs_value y ->
  float32_abs_value (SFdiv Float32.prec Float32.emax x y).
Proof.
  unfold float32_abs_value.
  destruct x as [[]|[]| |[] mx ex], y as [[]|[]| |[] my ey];
    simpl; intros Hx Hy; try discriminate; try reflexivity.
  destruct (SFdiv_core_binary _ _ _ _ _ _) as [[mz ez] lz].
  apply binary_round_aux_abs_value.
Qed.

Lemma sum_abs_value (v : list spec_float) :
  Forall float32_abs_value v -> float32_abs_value (sum v).
Proof.
  intros HF. unfold sum.
  assert (H0 : float32_abs_value (zero (Sc := float32))) by reflexivity.
  revert H0. generalize (zero (Sc := float32)).
  induction HF as [|x v Hx HF IH]; intros acc Hacc; [exact Hacc|].
  cbn [fold_left]. apply IH. now apply SFadd_abs_value.
Qed.

Lemma map2_maximum_abs_value (a b : list spec_float) :
  Forall float32_abs_value a -> Forall float32_abs_value b ->
  Forall float32_abs_value (map2 maximum a b).
Proof.
  intros Ha. revert b. induction Ha as [|x a Hx Ha IH]; intros [|y b] Hb;
    simpl; try constructor.
  - apply Forall_cons_iff in Hb as [Hy _].
    destruct (maximum_cases x y) as [-> | ->]; assumption.
  - apply Forall_cons_iff in Hb as [_ Hb]. now apply IH.
Qed.

Lemma max_dim0_abs_value (B : list (list spec_float)) (m : list spec_float) :
  Forall (Forall float32_abs_value) B -> max_dim0 B = Ok m ->
  Forall float32_abs_value m.
Proof.
  destruct B as [|row rest]; [discriminate|]. intros HF [= <-].
  apply Forall_cons_iff in HF as [Hrow Hrest]. revert row Hrow.
  induction Hrest as [|r rest Hr Hrest IH]; intros row Hrow; [exact Hrow|].
  cbn [fold_left]. apply IH. now apply map2_maximum_abs_value.
Qed.

Lemma beta_abs_value (A bv : list (list spec_float)) (b : spec_float) :
  beta A bv = Ok b -> float32_abs_value b.
Proof.
  unfold beta.
  destruct (max_dim0 (map (map abs) (matmul A bv))) as [m|e] eqn:Em; [|discriminate].
  cbn [bind]. intros [= <-].
  assert (Hm : Forall float32_abs_value m).
  { apply (max_dim0_abs_value (B := map (map abs) (matmul A bv))); [|exact Em].
    rewrite Forall_map. apply Forall_forall. intros row _.
    rewrite Forall_map. apply Forall_forall. intros x _.
    apply float32_abs_abs. }
  unfold mean. apply SFdiv_abs_value; [now apply sum_abs_value|].
  apply binary_normalize_abs_value. lia.
Qed.

Lemma abs_value_not_below_zero (b : spec_float) :
  float32_abs_value b -> SFltb b (S754_zero false) = false.
Proof.
  unfold float32_abs_value.
  destruct b as [[]|[]| |[] m e]; simpl; intros H; try discriminate; reflexivity.
Qed.
End BetaSignBinary32.

(** X17.  In binary32 [beta] never returns a negative number or a
    negative zero: for every matrix with at least one row, the value it
    returns is NaN or has its sign bit clear, so it is never below 0. *)
Theorem beta_sign_binary32 (n c : nat) (A bv : list (list spec_float)) :
  compatible n c A bv -> A <> [] ->
  exists b,
    beta A bv = Ok b /\
    b = SFabs b /\
    b <> S754_zero true /\
    ltb b zero = false.
Proof.
  intros _ HA. destruct (beta_returns bv HA) as [b Eb].
  exists b. split; [exact Eb|].
  pose proof (beta_abs_value _ _ Eb) as Hb.
  split; [exact Hb|]. split.
  - intros ->. discriminate Hb.
  - now apply abs_value_not_below_zero.
Qed.

Lemma beta_sign_binary32_witness :
  compatible 1 1 [[Float32.of_Z (-3)]; [Float32.of_Z (-5)]] (binary_vectors 1) /\
  exists b,
    beta (Sc := float32) [[Float32.of_Z (-3)]; [Float32.of_Z (-5)]] (binary_vectors 1) =
    Ok b /\ ltb b zero = false.
Proof.
  assert (HC : compatible 1 1 [[Float32.of_Z (-3)]; [Float32.of_Z (-5)]]
                 (binary_vectors (Sc := float32) 1)).
  { split; [lia|]. split; [repeat constructor|].
    split; [reflexivity|repeat constructor]. }
  split; [exact HC|].
  destruct (@beta_sign_binary32 1 1 _ _ HC ltac:(discriminate)) as [b [E [_ [_ H]]]].
  exists b. split; [exact E|exact H].
Defined.

(** X18.  In binary32, for rows of any size: if no enumerated combination
    has a NaN objective and one of them has an objective greater than 0,
    the search returns the largest objective together with the matrix of
    the first combination, in the order of enumeration, that attains it. *)
Theorem search_first_maximizer_binary32 (n c r : nat)
        (rows bv : list (list spec_float)) :
  compatible n c rows bv -> 1 <= r <= length rows ->
  Forall (fun comb => forall b, beta (select rows comb) bv = Ok b -> isnan b = false)
         (generate_combinations (elements rows) r) ->
  Exists (fun comb => exists b, beta (select rows comb) bv = Ok b /\ gtb b zero = true)
         (generate_combinations (elements rows) r) ->
  returns_first_maximizer rows bv r.
Proof.
  intros _ Hr Hnan Hpos.
  apply (@search_first_maximizer_gen spec_float float32 float32_abs_value).
  - apply SFltb_asym.
  - apply SFltb_trans.
  - apply SFltb_total.
  - apply SFltb_SFeqb.
  - reflexivity.
  - reflexivity.
  - exact Hr.
  - apply Forall_forall. intros comb Hc.
    destruct (@combinations_in_range _ rows r comb ltac:(lia) Hc) as [Hne HF].
    assert (HS : select rows comb <> []).
    { intros E. apply map_eq_nil in E. contradiction. }
    destruct (beta_returns bv HS) as [b Eb].
    rewrite Forall_forall in Hnan.
    unfold scored, score. rewrite Eb. split; [now apply index_rows_select|].
    split; [reflexivity|]. split; [now apply (beta_abs_value _ _ Eb)|].
    now apply (Hnan comb Hc).
  - apply Exists_exists in Hpos as [comb [Hc [b [Eb Hb]]]].
    apply Exists_exists. exists comb. split; [exact Hc|].
    unfold score. now rewrite Eb.
Qed.

Lemma search_first_maximizer_binary32_witness :
  returns_first_maximizer (Sc := float32)
    [[Float32.of_Z 1]; [Float32.of_Z (-4)]; [Float32.of_Z 4]] (binary_vectors 1) 1.
Proof.
  apply (@search_first_maximizer_binary32 1 1 1).
  - split; [lia|]. split; [repeat constructor|].
    split; [reflexivity|repeat constructor].
  - simpl. lia.
  - repeat constructor; intros b E; vm_compute in E; injection E as <-; reflexivity.
  - apply Exists_cons_hd. eexists. split; [vm_compute; reflexivity|reflexivity].
Defined.

(** ** The notebook as a whole, in exact arithmetic *)

Section NotebookOptimal.
Local Open Scope R_scope.

Lemma map_Ropp_involutive (v : list R) : map Ropp (map Ropp v) = v.
Proof.
  rewrite map_map. rewrite <- (map_id v) at 2. apply map_ext. intros; lra.
Qed.

Lemma map_Ropp_inj (a b : list R) : map Ropp a = map Ropp b -> a = b.
Proof.
  intros H. rewrite <- (map_Ropp_involutive a), <- (map_Ropp_involutive b).
  now rewrite H.
Qed.

Lemma ForallOrdPairs_map {A B : Type} (f : A -> B) (R : B -> B -> Prop) (l : list A) :
  ForallOrdPairs (fun x y => R (f x) (f y)) l -> ForallOrdPairs R (map f l).
Proof.
  induction 1 as [|x l Hx Hl IH]; cbn [map]; constructor; [|exact IH].
  now rewrite Forall_map.
Qed.

(** Rows that are in [C] up to sign are selected from [C] by indices and
    signs. *)
Lemma locate_rows (C us : list (list R)) :
  Forall (fun u => In u C \/ In (map Ropp u) C) us ->
  exists idx signs,
    length idx = length us /\ length signs = length us /\
    Forall (fun i => (i < length C)%nat) idx /\
    Forall2 (fun i u => nth i C [] = u \/ nth i C [] = map Ropp u) idx us /\
    negate_rows signs (select (map (map Fin) C) idx) = map (map Fin) us.
Proof.
  induction 1 as [|u us Hu Hus [idx [signs [L1 [L2 [HF [H2 E]]]]]]].
  - exists [], []. repeat split; constructor.
  - destruct Hu as [Hu|Hu]; destruct (In_nth _ _ [] Hu) as [i [Hi Ei]].
    + exists (i :: idx), (false :: signs).
      split; [simpl; congruence|]. split; [simpl; congruence|].
      split; [now constructor|]. split; [constructor; [now left|exact H2]|].
      unfold negate_rows, select in *. cbn [map map2]. rewrite E.
      now rewrite nth_map_Fin, Ei.
    + exists (i :: idx), (true :: signs).
      split; [simpl; congruence|]. split; [simpl; congruence|].
      split; [now constructor|]. split; [constructor; [now right|exact H2]|].
      unfold negate_rows, select in *. cbn [map map2]. rewrite E.
      now rewrite nth_map_Fin, Ei, map_neg_fin, map_Ropp_involutive.
Qed.

Lemma located_NoDup (C us : list (list R)) (idx : list nat) :
  Forall2 (fun i u => nth i C [] = u \/ nth i C [] = map Ropp u) idx us ->
  ForallOrdPairs (fun u u' => u <> u' /\ u <> map Ropp u') us ->
  NoDup idx.
Proof.
  induction 1 as [|i u idx us Hiu H2 IH]; intros HP; [constructor|].
  inversion HP as [|? ? Hu HP' E1]; subst.
  constructor; [|now apply IH].
  intros Hin.
  assert (Hex : exists u', In u' us /\
                  (nth i C [] = u' \/ nth i C [] = map Ropp u')).
  { clear -H2 Hin. induction H2 as [|j u' idx us Hj H2 IH]; [destruct Hin|].
    destruct Hin as [->|Hin].
    - exists u'. split; [now left|exact Hj].
    - destruct (IH Hin) as [w [Hw Hr]]. exists w. split; [now right|exact Hr]. }
  destruct Hex as [u' [Hu' Hr]].
  rewrite Forall_forall in Hu. destruct (Hu u' Hu') as [N1 N2].
  destruct Hiu as [E|E], Hr as [E'|E']; rewrite E in E'.
  - contradiction.
  - contradiction.
  - apply N2. rewrite <- E'. symmetry. apply map_Ropp_involutive.
  - apply N1. now apply map_Ropp_inj.
Qed.

(** Different rows of the result of [candidate_rows] differ up to sign. *)
Lemma selected_rows_differ (C : list (list R)) (comb : list nat) :
  StronglySorted lexR C -> Forall canonR C ->
  StronglySorted lt comb -> Forall (fun i => (i < length C)%nat) comb ->
  ForallOrdPairs (fun c c' => c <> c' /\ c <> map Ropp c') (select C comb).
Proof.
  intros SC HC. induction 1 as [|i comb HS IH Hi]; intros HF; [constructor|].
  apply Forall_cons_iff in HF as [Hlt HF]. unfold select in *. cbn [map].
  constructor; [|now apply IH].
  rewrite Forall_map. apply Forall_forall. intros j Hj.
  rewrite Forall_forall in Hi, HF, HC.
  specialize (Hi j Hj). specialize (HF j Hj). split.
  - intros E. pose proof (StronglySorted_nth [] SC Hi HF) as L.
    rewrite E in L. now apply lexR_irrefl in L.
  - apply canonR_not_opp; apply HC, nth_In; assumption.
Qed.

(** Rows of [C] are unit vectors of subset sums up to sign: selectors and
    signs for a list of them. *)
Lemma selectors_of_rows (n : nat) (C cs : list (list R)) :
  (forall w, In w C ->
     exists s, In s (product [0; 1]%Z (2 ^ n)) /\
               Exists (fun z => z <> 0%Z) (subset_sum n s) /\
               (w = candidate_of n s \/ w = map Ropp (candidate_of n s))) ->
  incl cs C ->
  exists ss signs,
    length ss = length cs /\ length signs = length cs /\
    Forall (fun s => In s (product [0; 1]%Z (2 ^ n)) /\
                     Exists (fun z => z <> 0%Z) (subset_sum n s)) ss /\
    Forall2 (fun c s => c = candidate_of n s \/ c = map Ropp (candidate_of n s))
            cs ss /\
    negate_rows signs (map (map Fin) cs) = matrix_of n ss.
Proof.
  intros HC. induction cs as [|c cs IH]; intros HI.
  - exists [], []. repeat split; constructor.
  - destruct IH as [ss [signs [L1 [L2 [HV [H2 E]]]]]].
    { intros x Hx. apply HI. now right. }
    destruct (HC c) as [s [Hs [Hnz Hc]]]; [apply HI; now left|].
    unfold negate_rows, matrix_of in *. destruct Hc as [Ec|Ec].
    + exists (s :: ss), (false :: signs).
      split; [simpl; congruence|]. split; [simpl; congruence|].
      split; [constructor; [now split|exact HV]|].
      split; [constructor; [now left|exact H2]|].
      cbn [map map2]. now rewrite E, Ec.
    + exists (s :: ss), (true :: signs).
      split; [simpl; congruence|]. split; [simpl; congruence|].
      split; [constructor; [now split|exact HV]|].
      split; [constructor; [now right|exact H2]|].
      cbn [map map2]. rewrite E, Ec.
      now rewrite map_neg_fin, map_Ropp_involutive.
Qed.

Lemma differ_transfer (n : nat) (cs : list (list R)) (ss : list (list Z)) :
  Forall2 (fun c s => c = candidate_of n s \/ c = map Ropp (candidate_of n s))
          cs ss ->
  ForallOrdPairs (fun c c' => c <> c' /\ c <> map Ropp c') cs ->
  ForallOrdPairs (fun s s' => candidate_of n s <> candidate_of n s' /\
                              candidate_of n s <> map Ropp (candidate_of n s')) ss.
Proof.
  induction 1 as [|c s cs ss Hcs H2 IH]; intros HP; [constructor|].
  inversion HP as [|? ? Hc HP' E1]; subst.
  constructor; [|now apply IH].
  clear IH HP HP'. induction H2 as [|c' s' cs ss Hcs' H2 IH]; [constructor|].
  apply Forall_cons_iff in Hc as [[N1 N2] Hc].
  constructor; [|now apply IH].
  destruct Hcs as [E|E], Hcs' as [E'|E']; subst c c'; split; intros H.
  - now apply N1.
  - now apply N2.
  - apply N2. now rewrite map_Ropp_involutive.
  - now apply N1.
  - apply N2. now rewrite H.
  - apply N1. now rewrite H, map_Ropp_involutive.
  - apply N1. now rewrite H.
  - apply N2. now rewrite H.
Qed.

Lemma beta_binary_vectors_exact (n : nat) (A : list (list R)) :
  (1 <= n)%nat -> A <> [] ->
  beta (map (map Fin) A) (binary_vectors n) =
  Ok (Fin (betaR A (binary_vectorsR n))).
Proof.
  intros Hn HA. rewrite binary_vectors_xreal.
  apply beta_exact with (c := (2 ^ (n - 1))%nat).
  - assumption.
  - now apply binary_vectorsR_not_nil.
  - now apply rect_binary_vectorsR.
  - pose proof (Nat.pow_nonzero 2 (n - 1)). lia.
Qed.

Lemma candidate_of_unit (n : nat) (s : list Z) :
  (1 <= n)%nat -> In s (product [0; 1]%Z (2 ^ n)) ->
  Exists (fun z => z <> 0%Z) (subset_sum n s) ->
  length (candidate_of n s) = n /\ Exists (fun x => x <> 0) (candidate_of n s).
Proof.
  intros Hn Hs Hnz. unfold candidate_of. split.
  - rewrite length_unitR.
    assert (Hin : In (map IZR (subset_sum n s)) (raw_rowsR n)).
    { rewrite raw_rowsR_subset_sums by assumption. apply in_map_iff. now exists s. }
    exact (proj1 (Forall_forall _ _) (rect_raw_rowsR n) _ Hin).
  - apply unitR_nonzero. now apply sumsq_IZR_nonzero.
Qed.

(** X19.  The notebook as a whole, in exact arithmetic: for n >= 1 and
    r >= 1 it returns, and its [beta_max] is the largest objective over all
    matrices whose r rows are unit vectors of non-zero subset sums of the
    sign vectors, pairwise different also up to sign.  [beta_max] bounds
    the objective of every such matrix, and if there is such a matrix then
    [beta_max] is the objective of one of them. *)
Theorem notebook_finds_optimum (n r : nat) :
  (1 <= n)%nat -> (1 <= r)%nat -> notebook_optimal n r.
Proof.
  intros Hn Hr.
  destruct (candidate_rows_cover Hn) as [C [EC [NC [RC [SC [HC [Hcov Hfrom]]]]]]].
  pose proof (@search_outcome_any xreal xreal_scalar xltb_asym xltb_trans
                xltb_not_nan (map (map Fin) C) (binary_vectors n) r Hr)
    as [st [ES [Hub Hst]]].
  assert (EN : notebook n r = Ok st).
  { unfold notebook. rewrite EC. exact ES. }
  (* the final maximum is finite *)
  assert (Hm : exists m, beta_max st = Fin m /\
                 (st = initial_state /\ m = 0 \/
                  exists comb,
                    In comb (generate_combinations (elements (map (map Fin) C)) r) /\
                    beta (select (map (map Fin) C) comb) (binary_vectors n) =
                    Ok (Fin m))).
  { destruct Hst as [->|[comb [Hin [_ [HB _]]]]].
    - exists 0. split; [reflexivity|]. now left.
    - destruct (@combinations_in_range _ _ r comb Hr Hin) as [Hne _].
      assert (HS : select C comb <> []).
      { intros E. apply map_eq_nil in E. contradiction. }
      rewrite select_fin, (@beta_binary_vectors_exact n (select C comb) Hn HS) in HB.
      injection HB as HB. exists (betaR (select C comb) (binary_vectorsR n)).
      split; [now symmetry|]. right. exists comb. split; [exact Hin|].
      now rewrite select_fin, (@beta_binary_vectors_exact n (select C comb) Hn HS). }
  destruct Hm as [m [Em Hcase]].
  (* the bound *)
  assert (Hbound : forall ss, admissible n r ss ->
            exists b, beta (matrix_of n ss) (binary_vectors n) = Ok (Fin b) /\
                      b <= m /\ 0 < b).
  { intros ss [Hlen [HV HP]].
    set (us := map (candidate_of n) ss).
    assert (Hus : Forall (fun u => In u C \/ In (map Ropp u) C) us).
    { unfold us. rewrite Forall_map. eapply Forall_impl; [|exact HV].
      intros s [Hs Hnz]. now apply Hcov. }
    destruct (@locate_rows C us Hus) as [idx [signs [L1 [L2 [HF [H2 E]]]]]].
    assert (HPu : ForallOrdPairs (fun u u' => u <> u' /\ u <> map Ropp u') us).
    { unfold us. now apply ForallOrdPairs_map. }
    pose proof (@located_NoDup C us idx H2 HPu) as HN.
    assert (Hlus : length us = r) by (unfold us; now rewrite length_map).
    assert (HO : search_outcome (map (map Fin) C) (binary_vectors n) r).
    { exists st. split; [exact ES|]. split; [exact Hub|exact Hst]. }
    destruct (@bounds_every_choice_gen xreal xreal_scalar
                (proj1 beta_invariant_exact) (proj2 beta_invariant_exact)
                (map (map Fin) C) (binary_vectors n) r HO idx signs HN)
      as [st' [b' [ES' [Eb' Hle]]]]; try congruence.
    { now rewrite length_map. }
    rewrite ES in ES'. injection ES' as <-.
    rewrite E in Eb'.
    assert (EM : matrix_of n ss = map (map Fin) us).
    { unfold matrix_of, us. now rewrite map_map. }
    assert (Hne : us <> []).
    { intros E0. rewrite E0 in Hlus. simpl in Hlus. lia. }
    rewrite (@beta_binary_vectors_exact n us Hn Hne) in Eb'. injection Eb' as <-.
    exists (betaR us (binary_vectorsR n)). rewrite EM.
    split; [now apply beta_binary_vectors_exact|].
    rewrite Em in Hle. simpl in Hle. apply Rltb_false in Hle.
    split; [exact Hle|].
    apply betaR_nonzero_matrix; [assumption| |].
    - unfold us, rect. rewrite Forall_map. eapply Forall_impl; [|exact HV].
      intros s [Hs Hnz]. now apply candidate_of_unit.
    - destruct ss as [|s0 ss0]; [simpl in Hlen; lia|].
      apply Forall_cons_iff in HV as [[Hs Hnz] _].
      apply Exists_cons_hd. now apply candidate_of_unit. }
  exists st, m. split; [exact EN|]. split; [exact Em|]. split.
  { intros ss Hss. destruct (Hbound ss Hss) as [b [Eb [Hle _]]]. eauto. }
  intros [ss0 Hss0].
  destruct Hcase as [[-> ->]|[comb [Hin HB]]].
  { destruct (Hbound ss0 Hss0) as [b [_ [Hle Hpos]]]. lra. }
  destruct (@combinations_in_range _ _ r comb Hr Hin) as [Hne HF].
  rewrite length_map in HF.
  assert (HSc : StronglySorted lt comb).
  { unfold generate_combinations, elements in Hin.
    eapply in_combinations_sorted; [apply seq_StronglySorted|exact Hin]. }
  assert (Hlc : length comb = r).
  { unfold generate_combinations in Hin. now apply in_combinations_length in Hin. }
  assert (HI : incl (select C comb) C).
  { intros w Hw. unfold select in Hw. apply in_map_iff in Hw as [i [<- Hi]].
    rewrite Forall_forall in HF. now apply nth_In, HF. }
  destruct (@selectors_of_rows n C (select C comb) Hfrom HI)
    as [ss [signs [L1 [L2 [HV [H2 E]]]]]].
  exists ss. split.
  - split; [|split; [exact HV|]].
    + rewrite L1. unfold select. now rewrite length_map.
    + apply (@differ_transfer n (select C comb) ss H2). now apply selected_rows_differ.
  - rewrite <- E.
    rewrite (@beta_negate_rows xreal xreal_scalar (proj2 beta_invariant_exact))
      by now rewrite length_map.
    now rewrite <- select_fin.
Qed.
End NotebookOptimal.

Lemma notebook_finds_optimum_witness : 1 <= 3 /\ notebook_optimal 3 3.
Proof.
  assert (H : 1 <= 3) by lia. split; [exact H|].
  exact (notebook_finds_optimum H H).
Defined.
(** * Binary32 for every size *)

(** * Rounding in binary32

    The operations of [SpecFloat] at precision 24 and maximal exponent 128,
    described on the mantissa and the exponent. *)

Section Digits.
Local Open Scope Z_scope.

Lemma digits2_pos_bounds (p : positive) :
  2 ^ (Zpos (digits2_pos p) - 1) <= Zpos p < 2 ^ Zpos (digits2_pos p).
Proof.
  induction p as [p IH | p IH | ]; cbn [digits2_pos].
  - rewrite Pos2Z.inj_succ.
    replace (Z.succ (Zpos (digits2_pos p)) - 1) with (Z.succ (Zpos (digits2_pos p) - 1)) by lia.
    rewrite !Z.pow_succ_r by lia. lia.
  - rewrite Pos2Z.inj_succ.
    replace (Z.succ (Zpos (digits2_pos p)) - 1) with (Z.succ (Zpos (digits2_pos p) - 1)) by lia.
    rewrite !Z.pow_succ_r by lia. lia.
  - cbn. lia.
Qed.

Lemma Zdigits2_bounds (m : Z) :
  0 < m -> 0 < Zdigits2 m /\ 2 ^ (Zdigits2 m - 1) <= m < 2 ^ Zdigits2 m.
Proof.
  destruct m as [ | p | p]; try lia. intros _.
  split; [cbn; lia | apply digits2_pos_bounds].
Qed.

Lemma Zdigits2_unique (m d : Z) :
  2 ^ (d - 1) <= m < 2 ^ d -> 0 < m -> Zdigits2 m = d.
Proof.
  intros [Hlo Hhi] Hm.
  destruct (Zdigits2_bounds Hm) as [Hd [Hlo' Hhi']].
  assert (Hpos : 0 < d).
  { destruct (Z_lt_le_dec 0 d) as [ | Hle]; [assumption | ].
    rewrite (Z.pow_neg_r 2 (d - 1)) in Hlo by lia.
    destruct (Z.eq_dec d 0) as [-> | Hne]; [cbn in Hhi; lia | ].
    rewrite Z.pow_neg_r in Hhi by lia. lia. }
  destruct (Z_lt_le_dec (Zdigits2 m) d) as [Hlt | Hge].
  - assert (2 ^ Zdigits2 m <= 2 ^ (d - 1)) by (apply Z.pow_le_mono_r; lia). lia.
  - destruct (Z_lt_le_dec d (Zdigits2 m)) as [Hlt | Hle]; [ | lia].
    assert (2 ^ d <= 2 ^ (Zdigits2 m - 1)) by (apply Z.pow_le_mono_r; lia). lia.
Qed.

Lemma Zdigits2_shift (a k : Z) :
  0 < a -> 0 <= k -> Zdigits2 (a * 2 ^ k) = Zdigits2 a + k.
Proof.
  intros Ha Hk. destruct (Zdigits2_bounds Ha) as [Hd [Hlo Hhi]].
  apply Zdigits2_unique.
  - replace (Zdigits2 a + k - 1) with (Zdigits2 a - 1 + k) by lia.
    rewrite !Z.pow_add_r by lia.
    assert (0 < 2 ^ k) by (apply Z.pow_pos_nonneg; lia). nia.
  - assert (0 < 2 ^ k) by (apply Z.pow_pos_nonneg; lia). nia.
Qed.

Lemma Zdigits2_24 (a : Z) : 2 ^ 23 <= a < 2 ^ 24 -> Zdigits2 a = 24.
Proof. intros H. apply Zdigits2_unique; [exact H | lia]. Qed.
End Digits.

Section ShiftRight.
Local Open Scope Z_scope.

Lemma iter_pos_nat {A : Type} (f : A -> A) (p : positive) (x : A) :
  SpecFloat.iter_pos f p x = Nat.iter (Pos.to_nat p) f x.
Proof.
  revert x. induction p as [p IH | p IH | ]; intros x; cbn [SpecFloat.iter_pos].
  - rewrite !IH, Pos2Nat.inj_xI.
    replace (S (2 * Pos.to_nat p))%nat with (Pos.to_nat p + (Pos.to_nat p + 1))%nat by lia.
    rewrite !Nat.iter_add. reflexivity.
  - rewrite !IH, Pos2Nat.inj_xO.
    replace (2 * Pos.to_nat p)%nat with (Pos.to_nat p + Pos.to_nat p)%nat by lia.
    rewrite Nat.iter_add. reflexivity.
  - reflexivity.
Qed.

Lemma shr_nat (mrs : shr_record) (e n : Z) :
  0 <= n -> shr mrs e n = (Nat.iter (Z.to_nat n) shr_1 mrs, e + n).
Proof.
  intros Hn. destruct n as [ | p | p]; try lia.
  - cbn. f_equal. lia.
  - cbn [shr]. rewrite iter_pos_nat. reflexivity.
Qed.

Lemma shr_1_nonneg (m : Z) (r s : bool) :
  0 <= m ->
  shr_1 {| shr_m := m; shr_r := r; shr_s := s |} =
  {| shr_m := m / 2; shr_r := Z.odd m; shr_s := r || s |}.
Proof.
  intros Hm. rewrite <- Z.div2_div.
  destruct m as [ | [p | p | ] | p]; try lia; reflexivity.
Qed.

(** The mantissa after [k] shifts. *)
Lemma shr_iter_m (k : nat) (m : Z) (r s : bool) :
  0 <= m ->
  shr_m (Nat.iter k shr_1 {| shr_m := m; shr_r := r; shr_s := s |}) =
  m / 2 ^ Z.of_nat k.
Proof.
  intros Hm. induction k as [ | k IH].
  - cbn. symmetry. apply Z.div_1_r.
  - rewrite Nat.iter_succ.
    destruct (Nat.iter k shr_1 _) as [m' r' s'] eqn:E. cbn [shr_m] in IH.
    rewrite shr_1_nonneg by (rewrite IH; apply Z.div_pos; [lia | apply Z.pow_pos_nonneg; lia]).
    cbn [shr_m]. rewrite IH, Nat2Z.inj_succ, Z.pow_succ_r by lia.
    rewrite Z.div_div by (try apply Z.pow_pos_nonneg; lia).
    f_equal. lia.
Qed.

(** Shifting out zeros is exact. *)
Lemma shr_iter_exact (k : nat) (a : Z) :
  0 <= a ->
  Nat.iter k shr_1 {| shr_m := a * 2 ^ Z.of_nat k; shr_r := false; shr_s := false |} =
  {| shr_m := a; shr_r := false; shr_s := false |}.
Proof.
  intros Ha. revert a Ha. induction k as [ | k IH]; intros a Ha.
  - cbn. f_equal. lia.
  - rewrite Nat.iter_succ.
    rewrite Nat2Z.inj_succ, Z.pow_succ_r by lia.
    replace (a * (2 * 2 ^ Z.of_nat k)) with ((a * 2) * 2 ^ Z.of_nat k) by lia.
    rewrite IH by lia. rewrite shr_1_nonneg by lia.
    rewrite Z.div_mul by lia.
    rewrite Z.mul_comm, Z.odd_mul. reflexivity.
Qed.

(** The round bit and the sticky bit after [k + 1] shifts. *)
Lemma shr_iter_loc (k : nat) (m : Z) :
  0 <= m ->
  Nat.iter (S k) shr_1 {| shr_m := m; shr_r := false; shr_s := false |} =
  {| shr_m := m / 2 ^ Z.of_nat (S k);
     shr_r := Z.odd (m / 2 ^ Z.of_nat k);
     shr_s := negb (m mod 2 ^ Z.of_nat k =? 0) |}.
Proof.
  intros Hm. induction k as [ | k IH].
  - rewrite Nat.iter_succ. cbn [Nat.iter nat_rect]. rewrite shr_1_nonneg by lia.
    change (2 ^ Z.of_nat 0) with 1. change (2 ^ Z.of_nat 1) with 2.
    rewrite Z.div_1_r, Z.mod_1_r. reflexivity.
  - rewrite Nat.iter_succ, IH.
    assert (Hp : 0 < 2 ^ Z.of_nat k) by (apply Z.pow_pos_nonneg; lia).
    rewrite shr_1_nonneg by (apply Z.div_pos; [lia | apply Z.pow_pos_nonneg; lia]).
    f_equal.
    + rewrite Z.div_div by (try apply Z.pow_pos_nonneg; lia).
      f_equal. rewrite (Nat2Z.inj_succ (S k)), Z.pow_succ_r by lia. lia.
    + rewrite (Nat2Z.inj_succ k), Z.pow_succ_r by lia.
      rewrite (Z.mul_comm 2), Z.rem_mul_r by lia.
      pose proof (Z.mod_pos_bound m (2 ^ Z.of_nat k) Hp) as Hb.
      pose proof (Z.mod_pos_bound (m / 2 ^ Z.of_nat k) 2 ltac:(lia)) as Hb2.
      rewrite Zodd_mod.
      destruct (Z.eqb_spec ((m / 2 ^ Z.of_nat k) mod 2) 1) as [E1 | E1];
        destruct (Z.eqb_spec (m mod 2 ^ Z.of_nat k) 0) as [E0 | E0]; cbn;
        symmetry; [apply negb_true_iff | apply negb_true_iff | apply negb_false_iff | apply negb_true_iff];
        try (apply Z.eqb_neq; nia); apply Z.eqb_eq; nia.
Qed.
End ShiftRight.
Section RoundAux.
Local Open Scope Z_scope.

Lemma fexp32 (x : Z) :
  fexp Float32.prec Float32.emax x = Z.max (x - 24) (-149).
Proof. reflexivity. Qed.

Lemma round_nearest_even_cases (m : Z) (l : location) :
  round_nearest_even m l = m \/ round_nearest_even m l = m + 1.
Proof.
  destruct l as [ | [ | | ]]; cbn; auto.
  destruct (Z.even m); auto.
Qed.

Lemma shr_record_of_loc_m (m : Z) (l : location) :
  exists r s, shr_record_of_loc m l = {| shr_m := m; shr_r := r; shr_s := s |}.
Proof. destruct l as [ | [ | | ]]; cbn; eauto. Qed.

Lemma pow2_split (d k : Z) : 0 <= k <= d -> 2 ^ d = 2 ^ (d - k) * 2 ^ k.
Proof. intros H. rewrite <- Z.pow_add_r by lia. f_equal. lia. Qed.

(** The first shift of [binary_round_aux] on a mantissa of at least 24
    digits, above the subnormal range: 24 digits are left. *)
Lemma shr_fexp_normal (m e : Z) (l : location) :
  0 < m -> 24 <= Zdigits2 m -> -149 <= e + Zdigits2 m - 24 ->
  exists mrs,
    shr_fexp Float32.prec Float32.emax m e l = (mrs, e + Zdigits2 m - 24) /\
    2 ^ 23 <= shr_m mrs < 2 ^ 24.
Proof.
  intros Hm Hd He. unfold shr_fexp. rewrite fexp32.
  replace (Z.max (Zdigits2 m + e - 24) (-149) - e) with (Zdigits2 m - 24) by lia.
  rewrite shr_nat by lia.
  destruct (shr_record_of_loc_m m l) as (r & s & ->).
  eexists. split; [f_equal; lia | ].
  rewrite shr_iter_m by lia. rewrite Z2Nat.id by lia.
  destruct (Zdigits2_bounds Hm) as [_ [Hlo Hhi]].
  assert (Hp : 0 < 2 ^ (Zdigits2 m - 24)) by (apply Z.pow_pos_nonneg; lia).
  split.
  - apply Z.div_le_lower_bound; [exact Hp | ].
    rewrite (pow2_split (d := Zdigits2 m - 1) (k := Zdigits2 m - 24)) in Hlo by lia.
    replace (Zdigits2 m - 1 - (Zdigits2 m - 24)) with 23 in Hlo by lia. lia.
  - apply Z.div_lt_upper_bound; [exact Hp | ].
    rewrite (pow2_split (d := Zdigits2 m) (k := Zdigits2 m - 24)) in Hhi by lia.
    replace (Zdigits2 m - (Zdigits2 m - 24)) with 24 in Hhi by lia. lia.
Qed.

(** The second shift, after rounding. *)
Lemma shr_fexp_rounded (m e : Z) :
  2 ^ 23 <= m <= 2 ^ 24 -> -149 <= e ->
  exists m' e',
    shr_fexp Float32.prec Float32.emax m e loc_Exact =
    ({| shr_m := Zpos m'; shr_r := false; shr_s := false |}, e') /\
    Zpos (digits2_pos m') = 24 /\ e <= e' <= e + 1 /\
    (m < 2 ^ 24 -> Zpos m' = m /\ e' = e).
Proof.
  intros Hm He. unfold shr_fexp. rewrite fexp32.
  destruct (Z.eq_dec m (2 ^ 24)) as [-> | Hne].
  - exists (2 ^ 23)%positive, (e + 1).
    replace (Zdigits2 (2 ^ 24)) with 25 by reflexivity.
    replace (Z.max (25 + e - 24) (-149) - e) with 1 by lia.
    repeat split; lia.
  - assert (Hd : Zdigits2 m = 24) by (apply Zdigits2_24; lia).
    rewrite Hd. replace (Z.max (24 + e - 24) (-149) - e) with 0 by lia.
    destruct m as [ | p | p]; try lia.
    exists p, e. cbn [shr shr_record_of_loc]. repeat split; try lia.
    exact Hd.
Qed.

(** Rounding a mantissa of at least 24 digits above the subnormal range
    gives a normal number, or overflows. *)
Lemma binary_round_aux_normal (s : bool) (m e : Z) (l : location) :
  0 < m -> 24 <= Zdigits2 m -> -149 <= e + Zdigits2 m - 24 ->
  exists m' e',
    Zpos (digits2_pos m') = 24 /\
    e + Zdigits2 m - 24 <= e' <= e + Zdigits2 m - 23 /\
    binary_round_aux Float32.prec Float32.emax s m e l =
    if e' <=? 104 then S754_finite s m' e' else S754_infinity s.
Proof.
  intros Hm Hd He. unfold binary_round_aux.
  destruct (@shr_fexp_normal m e l Hm Hd He) as (mrs & -> & Hb).
  destruct (round_nearest_even_cases (shr_m mrs) (loc_of_shr_record mrs)) as [E | E].
  - destruct (@shr_fexp_rounded (shr_m mrs) (e + Zdigits2 m - 24)) as (m' & e' & Hs & Hd' & He' & _);
      [lia | lia | ].
    rewrite E, Hs. cbn [shr_m]. exists m', e'. repeat split; lia.
  - destruct (@shr_fexp_rounded (shr_m mrs + 1) (e + Zdigits2 m - 24)) as (m' & e' & Hs & Hd' & He' & _);
      [lia | lia | ].
    rewrite E, Hs. cbn [shr_m]. exists m', e'. repeat split; lia.
Qed.

(** Rounding is exact on a mantissa of 24 digits followed by zeros. *)
Lemma binary_round_aux_exact (s : bool) (a k e : Z) :
  2 ^ 23 <= a < 2 ^ 24 -> 0 <= k -> -149 <= e + k <= 104 ->
  binary_round_aux Float32.prec Float32.emax s (a * 2 ^ k) e loc_Exact =
  S754_finite s (Z.to_pos a) (e + k).
Proof.
  intros Ha Hk He. unfold binary_round_aux.
  assert (Hd : Zdigits2 (a * 2 ^ k) = 24 + k).
  { rewrite Zdigits2_shift by lia. rewrite Zdigits2_24 by exact Ha. reflexivity. }
  unfold shr_fexp at 1. rewrite Hd, fexp32.
  replace (Z.max (24 + k + e - 24) (-149) - e) with k by lia.
  rewrite shr_nat by lia. cbn [shr_record_of_loc].
  replace (a * 2 ^ k) with (a * 2 ^ Z.of_nat (Z.to_nat k)) by (rewrite Z2Nat.id; lia).
  rewrite shr_iter_exact by lia.
  cbn [shr_m loc_of_shr_record round_nearest_even].
  destruct (@shr_fexp_rounded a (e + k)) as (m' & e' & Hs & _ & _ & Hex); [lia | lia | ].
  rewrite Hs. cbn [shr_m].
  destruct Hex as [Hm' ->]; [lia | ].
  change (Float32.emax - Float32.prec) with 104.
  replace (e + k <=? 104) with true by (symmetry; apply Z.leb_le; lia).
  f_equal. rewrite <- Hm'. reflexivity.
Qed.

(** A small addend is absorbed. *)
Lemma binary_round_aux_absorb (s : bool) (a b k e : Z) :
  2 ^ 23 <= a < 2 ^ 24 -> 1 <= k -> 0 < b < 2 ^ (k - 1) ->
  -149 <= e + k <= 104 ->
  binary_round_aux Float32.prec Float32.emax s (a * 2 ^ k + b) e loc_Exact =
  S754_finite s (Z.to_pos a) (e + k).
Proof.
  intros Ha Hk Hb He. unfold binary_round_aux.
  assert (Hp : 0 < 2 ^ (k - 1)) by (apply Z.pow_pos_nonneg; lia).
  assert (Hk2 : 2 ^ k = 2 * 2 ^ (k - 1)).
  { rewrite <- Z.pow_succ_r by lia. f_equal. lia. }
  assert (Hd : Zdigits2 (a * 2 ^ k + b) = 24 + k).
  { apply Zdigits2_unique; [ | nia].
    replace (24 + k - 1) with (23 + k) by lia.
    rewrite !Z.pow_add_r by lia. nia. }
  unfold shr_fexp at 1. rewrite Hd, fexp32.
  replace (Z.max (24 + k + e - 24) (-149) - e) with k by lia.
  rewrite shr_nat by lia. cbn [shr_record_of_loc].
  replace (Z.to_nat k) with (S (Z.to_nat (k - 1))) by lia.
  rewrite shr_iter_loc by nia.
  replace (Z.of_nat (S (Z.to_nat (k - 1)))) with k by lia.
  rewrite Z2Nat.id by lia.
  assert (E1 : (a * 2 ^ k + b) / 2 ^ k = a).
  { rewrite Z.add_comm, Z.div_add by lia. rewrite Z.div_small by lia. lia. }
  assert (E2 : (a * 2 ^ k + b) / 2 ^ (k - 1) = 2 * a).
  { rewrite Hk2. replace (a * (2 * 2 ^ (k - 1))) with ((2 * a) * 2 ^ (k - 1)) by lia.
    rewrite Z.add_comm, Z.div_add by lia. rewrite Z.div_small by lia. lia. }
  assert (E3 : (a * 2 ^ k + b) mod 2 ^ (k - 1) = b).
  { rewrite Hk2. replace (a * (2 * 2 ^ (k - 1))) with ((2 * a) * 2 ^ (k - 1)) by lia.
    rewrite Z.add_comm, Z.mod_add by lia. apply Z.mod_small. lia. }
  rewrite E1, E2, E3, Z.odd_mul.
  replace (b =? 0) with false by (symmetry; apply Z.eqb_neq; lia).
  cbn [Z.odd andb negb shr_m loc_of_shr_record round_nearest_even].
  destruct (@shr_fexp_rounded a (e + k)) as (m' & e' & Hs & _ & _ & Hex); [lia | lia | ].
  rewrite Hs. cbn [shr_m].
  destruct Hex as [Hm' ->]; [lia | ].
  change (Float32.emax - Float32.prec) with 104.
  replace (e + k <=? 104) with true by (symmetry; apply Z.leb_le; lia).
  f_equal. rewrite <- Hm'. reflexivity.
Qed.
End RoundAux.
Section Operations32.
Local Open Scope Z_scope.

Lemma pos_iter_xO (m d : positive) :
  Zpos (Pos.iter xO m d) = Zpos m * 2 ^ Zpos d.
Proof.
  induction d as [ | d IH] using Pos.peano_ind.
  - cbn. lia.
  - rewrite Pos.iter_succ, Pos2Z.inj_xO, IH, Pos2Z.inj_succ, Z.pow_succ_r by lia. lia.
Qed.

Lemma shl_align_down (mx : positive) (ex ex' : Z) :
  ex' <= ex ->
  exists mz, shl_align mx ex ex' = (mz, ex') /\ Zpos mz = Zpos mx * 2 ^ (ex - ex').
Proof.
  intros H. unfold shl_align.
  destruct (ex' - ex) as [ | d | d] eqn:E; try lia.
  - exists mx. replace ex' with ex by lia. rewrite Z.sub_diag. split; [reflexivity | lia].
  - exists (Pos.iter xO mx d). split; [reflexivity | ].
    rewrite pos_iter_xO. f_equal. f_equal. lia.
Qed.

Lemma shl_align_up (mx : positive) (ex ex' : Z) :
  ex <= ex' -> shl_align mx ex ex' = (mx, ex).
Proof.
  intros H. unfold shl_align.
  destruct (ex' - ex) as [ | d | d] eqn:E; try lia; reflexivity.
Qed.

Lemma Zdigits2_range (m lo hi : Z) :
  0 <= lo -> 2 ^ lo <= m < 2 ^ hi -> lo < Zdigits2 m <= hi.
Proof.
  intros Hlo [H1 H2].
  assert (Hm : 0 < m) by (assert (0 < 2 ^ lo) by (apply Z.pow_pos_nonneg; lia); lia).
  destruct (Zdigits2_bounds Hm) as [Hd [H3 H4]].
  split.
  - apply (Z.pow_lt_mono_r_iff 2); lia.
  - assert (Zdigits2 m - 1 < hi); [ | lia].
    apply (Z.pow_lt_mono_r_iff 2); try lia.
    destruct (Z_lt_le_dec hi 0); [ | lia].
    rewrite (Z.pow_neg_r 2 hi) in H2 by lia. lia.
Qed.

(** A mantissa of at least 24 digits is not shifted left. *)
Lemma binary_round_long (s : bool) (p : positive) (e : Z) :
  24 <= Zdigits2 (Zpos p) -> -149 <= e + Zdigits2 (Zpos p) - 24 ->
  binary_round Float32.prec Float32.emax s p e =
  binary_round_aux Float32.prec Float32.emax s (Zpos p) e loc_Exact.
Proof.
  intros Hd He. unfold binary_round. rewrite fexp32.
  change (Zpos (digits2_pos p)) with (Zdigits2 (Zpos p)).
  rewrite shl_align_up by lia. reflexivity.
Qed.

(** The result of rounding when the value is [a * 2 ^ E] with [a] of 24
    digits: the equation is scaled by [2 ^ c] to keep the exponents
    non-negative. *)
Lemma binary_round_canon (s : bool) (mx : positive) (ex a E c : Z) :
  2 ^ 23 <= a < 2 ^ 24 -> -149 <= E <= 104 -> 0 <= ex + c -> 0 <= E + c ->
  Zpos mx * 2 ^ (ex + c) = a * 2 ^ (E + c) ->
  binary_round Float32.prec Float32.emax s mx ex = S754_finite s (Z.to_pos a) E.
Proof.
  intros Ha HE Hx Hc Heq.
  assert (Hp : 0 < 2 ^ (E + c)) by (apply Z.pow_pos_nonneg; lia).
  assert (Hq : 0 < 2 ^ (ex + c)) by (apply Z.pow_pos_nonneg; lia).
  destruct (Z_le_gt_dec E ex) as [Hle | Hgt].
  - assert (Hv : Zpos mx * 2 ^ (ex - E) = a).
    { apply (Z.mul_reg_r _ _ (2 ^ (E + c))); [lia | ].
      rewrite <- Z.mul_assoc, <- Z.pow_add_r by lia.
      replace (ex - E + (E + c)) with (ex + c) by lia. exact Heq. }
    assert (Hd : Zdigits2 (Zpos mx) + (ex - E) = 24).
    { rewrite <- Zdigits2_shift by lia. rewrite Hv. apply Zdigits2_24. exact Ha. }
    unfold binary_round. rewrite fexp32.
    change (Zpos (digits2_pos mx)) with (Zdigits2 (Zpos mx)).
    replace (Z.max (Zdigits2 (Zpos mx) + ex - 24) (-149)) with E by lia.
    destruct (@shl_align_down mx ex E Hle) as (mz & -> & Hmz).
    rewrite Hmz, Hv.
    pose proof (@binary_round_aux_exact s a 0 E Ha (Z.le_refl 0)) as H.
    rewrite Z.mul_1_r, Z.add_0_r in H. apply H. lia.
  - assert (Hv : Zpos mx = a * 2 ^ (E - ex)).
    { apply (Z.mul_reg_r _ _ (2 ^ (ex + c))); [lia | ].
      rewrite <- Z.mul_assoc, <- Z.pow_add_r by lia.
      replace (E - ex + (ex + c)) with (E + c) by lia. exact Heq. }
    assert (Hd : Zdigits2 (Zpos mx) = 24 + (E - ex)).
    { rewrite Hv, Zdigits2_shift by lia. rewrite Zdigits2_24 by exact Ha. reflexivity. }
    rewrite binary_round_long by lia.
    rewrite Hv, binary_round_aux_exact by lia.
    f_equal. lia.
Qed.

Lemma binary_normalize_sign (s : bool) (P e : Z) :
  0 < P ->
  binary_normalize Float32.prec Float32.emax (cond_Zopp s P) e false =
  binary_round Float32.prec Float32.emax s (Z.to_pos P) e.
Proof.
  intros HP. destruct P as [ | p | p]; try lia.
  destruct s; reflexivity.
Qed.

(** *** Integers *)

Lemma canon_int (z : Z) :
  0 < z <= 2 ^ 24 ->
  exists a E, 2 ^ 23 <= a < 2 ^ 24 /\ -23 <= E <= 1 /\
              z * 2 ^ 23 = a * 2 ^ (E + 23).
Proof.
  intros Hz.
  destruct (Z.eq_dec z (2 ^ 24)) as [-> | Hne].
  - exists (2 ^ 23), 1. repeat split; try lia.
  - assert (Hm : 0 < z) by lia.
    destruct (Zdigits2_bounds Hm) as [Hd [Hlo Hhi]].
    assert (Hd24 : Zdigits2 z <= 24).
    { apply (@Zdigits2_range z 0 24); lia. }
    exists (z * 2 ^ (24 - Zdigits2 z)), (Zdigits2 z - 24).
    assert (Hp : 0 < 2 ^ (24 - Zdigits2 z)) by (apply Z.pow_pos_nonneg; lia).
    assert (H23 : 2 ^ 23 = 2 ^ (Zdigits2 z - 1) * 2 ^ (24 - Zdigits2 z)).
    { rewrite <- Z.pow_add_r by lia. f_equal. lia. }
    assert (H24 : 2 ^ 24 = 2 ^ Zdigits2 z * 2 ^ (24 - Zdigits2 z)).
    { rewrite <- Z.pow_add_r by lia. f_equal. lia. }
    repeat split; try lia; try nia.
    replace (Zdigits2 z - 24 + 23) with (Zdigits2 z - 1) by lia.
    rewrite H23. lia.
Qed.

Lemma of_Z_zero : Float32.of_Z 0 = S754_zero false.
Proof. reflexivity. Qed.

Lemma of_Z_finite (k : Z) :
  k <> 0 -> Z.abs k <= 2 ^ 24 ->
  exists a E, 2 ^ 23 <= a < 2 ^ 24 /\ -23 <= E <= 1 /\
              Z.abs k * 2 ^ 23 = a * 2 ^ (E + 23) /\
              Float32.of_Z k = S754_finite (k <? 0) (Z.to_pos a) E.
Proof.
  intros Hk Hb.
  destruct (@canon_int (Z.abs k)) as (a & E & Ha & HE & Heq); [lia | ].
  exists a, E. repeat split; try lia.
  unfold Float32.of_Z.
  destruct k as [ | p | p]; try lia; cbn [binary_normalize Z.ltb Z.compare];
    apply (@binary_round_canon _ p 0 a E 23); try lia; exact Heq.
Qed.

Lemma of_Z_normal (k : Z) :
  k <> 0 -> Z.abs k <= 2 ^ 24 -> normal32 (k <? 0) (-23) 1 (Float32.of_Z k).
Proof.
  intros Hk Hb. destruct (of_Z_finite Hk Hb) as (a & E & Ha & HE & _ & ->).
  exists (Z.to_pos a), E. repeat split; try lia.
  change (Zpos (digits2_pos (Z.to_pos a))) with (Zdigits2 (Zpos (Z.to_pos a))).
  rewrite Z2Pos.id by lia. apply Zdigits2_24. exact Ha.
Qed.

Lemma normalize_scaled (z : Z) :
  z <> 0 -> Z.abs z <= 2 ^ 24 ->
  binary_normalize Float32.prec Float32.emax (z * 2 ^ 23) (-23) false =
  Float32.of_Z z.
Proof.
  intros Hz Hb.
  destruct (of_Z_finite Hz Hb) as (a & E & Ha & HE & Heq & ->).
  destruct z as [ | p | p]; try lia.
  - change (Zpos p * 2 ^ 23) with (Zpos (p * 2 ^ 23)).
    cbn [binary_normalize Z.ltb Z.compare].
    apply (@binary_round_canon _ _ (-23) a E 23); lia.
  - change (Zneg p * 2 ^ 23) with (Zneg (p * 2 ^ 23)).
    cbn [binary_normalize Z.ltb Z.compare].
    apply (@binary_round_canon _ _ (-23) a E 23); lia.
Qed.

(** Adding +1 or -1 to an integer is exact up to 2^24 in absolute value. *)
Lemma SFadd_of_Z_exact (k c : Z) :
  c = 1 \/ c = -1 -> Z.abs k <= 2 ^ 24 -> Z.abs (k + c) <= 2 ^ 24 ->
  SFadd Float32.prec Float32.emax (Float32.of_Z k) (Float32.of_Z c) =
  Float32.of_Z (k + c).
Proof.
  intros Hc Hk Hkc.
  destruct (Z.eq_dec k 0) as [-> | Hk0].
  { destruct Hc as [-> | ->]; reflexivity. }
  destruct (Z.eq_dec (k + c) 0) as [H0 | Hkc0].
  { destruct Hc as [-> | ->].
    - replace k with (-1) by lia. reflexivity.
    - replace k with 1 by lia. reflexivity. }
  rewrite <- (normalize_scaled Hkc0 Hkc).
  destruct (of_Z_finite Hk0 Hk) as (a & E & Ha & HE & Heq & ->).
  assert (Hone : Float32.of_Z c = S754_finite (c <? 0) (2 ^ 23)%positive (-23)).
  { destruct Hc as [-> | ->]; reflexivity. }
  rewrite Hone. cbn [SFadd].
  replace (Z.min E (-23)) with (-23) by lia.
  destruct (@shl_align_down (Z.to_pos a) E (-23)) as (mz & -> & Hmz); [lia | ].
  rewrite shl_align_up by lia. cbn [fst].
  f_equal. rewrite Hmz, Z2Pos.id by lia.
  replace (E - -23) with (E + 23) by lia. rewrite <- Heq.
  change (Zpos (2 ^ 23)) with (2 ^ 23).
  destruct (Z.ltb_spec k 0), Hc as [-> | ->]; cbn [cond_Zopp Z.ltb Z.compare]; lia.
Qed.

(** At 2^24 the sum stops. *)
Lemma SFadd_of_Z (k c : Z) :
  c = 1 \/ c = -1 -> Z.abs k <= 2 ^ 24 ->
  SFadd Float32.prec Float32.emax (Float32.of_Z k) (Float32.of_Z c) =
  Float32.of_Z (clamp24 (k + c)).
Proof.
  intros Hc Hk. unfold clamp24.
  destruct (Z_le_gt_dec (Z.abs (k + c)) (2 ^ 24)) as [Hle | Hgt].
  - rewrite SFadd_of_Z_exact by assumption. f_equal. lia.
  - destruct Hc as [-> | ->].
    + replace k with (2 ^ 24) by lia. reflexivity.
    + replace k with (- 2 ^ 24) by lia. reflexivity.
Qed.
End Operations32.
Section Magnitudes32.
Local Open Scope Z_scope.

Lemma digits24_bounds (m : positive) :
  Zpos (digits2_pos m) = 24 -> 2 ^ 23 <= Zpos m < 2 ^ 24.
Proof.
  intros H. pose proof (digits2_pos_bounds m) as Hb. rewrite H in Hb. exact Hb.
Qed.

Lemma normal32_weaken (s : bool) (lo hi lo' hi' : Z) (x : spec_float) :
  normal32 s lo hi x -> lo' <= lo -> hi <= hi' -> normal32 s lo' hi' x.
Proof.
  intros (m & e & -> & Hd & He) Hlo Hhi. exists m, e. repeat split; lia.
Qed.

(** Rounding to a normal number, without overflow. *)
Lemma binary_round_aux_normal32 (s : bool) (m e : Z) (l : location) (lo hi : Z) :
  0 < m -> 24 <= Zdigits2 m -> -149 <= e + Zdigits2 m - 24 ->
  lo <= e + Zdigits2 m - 24 -> e + Zdigits2 m - 23 <= hi -> hi <= 104 ->
  normal32 s lo hi (binary_round_aux Float32.prec Float32.emax s m e l).
Proof.
  intros Hm Hd He Hlo Hhi H104.
  destruct (@binary_round_aux_normal s m e l Hm Hd He) as (m' & e' & Hd' & He' & ->).
  replace (e' <=? 104) with true by (symmetry; apply Z.leb_le; lia).
  exists m', e'. repeat split; lia.
Qed.

(** *** Multiplication *)

Lemma SFmul_normal (sx sy : bool) (mx my : positive) (ex ey : Z) :
  Zpos (digits2_pos mx) = 24 -> Zpos (digits2_pos my) = 24 ->
  -172 <= ex + ey -> ex + ey <= 79 ->
  normal32 (xorb sx sy) (ex + ey + 23) (ex + ey + 25)
           (SFmul Float32.prec Float32.emax (S754_finite sx mx ex) (S754_finite sy my ey)).
Proof.
  intros Hx Hy Hlo Hhi. cbn [SFmul].
  pose proof (@digits24_bounds _ Hx) as Bx. pose proof (@digits24_bounds _ Hy) as By.
  assert (Hd : 46 < Zdigits2 (Zpos (mx * my)) <= 48).
  { apply Zdigits2_range; [lia | ]. rewrite Pos2Z.inj_mul.
    change (2 ^ 46) with (2 ^ 23 * 2 ^ 23). change (2 ^ 48) with (2 ^ 24 * 2 ^ 24). nia. }
  apply binary_round_aux_normal32; lia.
Qed.

(** Multiplication by 1 and by -1 is exact. *)
Lemma SFmul_sign (s : bool) (m : positive) (e c : Z) :
  Zpos (digits2_pos m) = 24 -> -149 <= e <= 104 -> c = 1 \/ c = -1 ->
  SFmul Float32.prec Float32.emax (S754_finite s m e) (Float32.of_Z c) =
  S754_finite (xorb s (c <? 0)) m e.
Proof.
  intros Hd He Hc.
  assert (Hone : Float32.of_Z c = S754_finite (c <? 0) (2 ^ 23)%positive (-23)).
  { destruct Hc as [-> | ->]; reflexivity. }
  rewrite Hone. cbn [SFmul].
  rewrite Pos2Z.inj_mul. change (Zpos (2 ^ 23)) with (2 ^ 23).
  rewrite binary_round_aux_exact by (try apply digits24_bounds; try assumption; lia).
  f_equal. lia.
Qed.

(** *** Addition of numbers of the same sign *)

Lemma SFadd_finite_comm (sx sy : bool) (mx my : positive) (ex ey : Z) :
  SFadd Float32.prec Float32.emax (S754_finite sx mx ex) (S754_finite sy my ey) =
  SFadd Float32.prec Float32.emax (S754_finite sy my ey) (S754_finite sx mx ex).
Proof. cbn [SFadd]. rewrite Z.min_comm, Z.add_comm. reflexivity. Qed.

(** The sum of the mantissas, aligned on the smaller exponent. *)
Lemma SFadd_same_sign (s : bool) (mx my : positive) (ex ey : Z) :
  ey <= ex ->
  SFadd Float32.prec Float32.emax (S754_finite s mx ex) (S754_finite s my ey) =
  binary_round Float32.prec Float32.emax s
               (Z.to_pos (Zpos mx * 2 ^ (ex - ey) + Zpos my)) ey.
Proof.
  intros Hle. cbn [SFadd]. rewrite Z.min_r by lia.
  destruct (@shl_align_down mx ex ey Hle) as (mz & -> & Hmz).
  rewrite shl_align_up by lia. cbn [fst].
  rewrite <- binary_normalize_sign by lia.
  f_equal. rewrite Hmz. destruct s; cbn [cond_Zopp]; lia.
Qed.

Lemma SFadd_normal_ordered (s : bool) (mx my : positive) (ex ey : Z) :
  Zpos (digits2_pos mx) = 24 -> Zpos (digits2_pos my) = 24 ->
  ey <= ex -> -149 <= ey -> ex <= 102 ->
  normal32 s ex (ex + 2)
           (SFadd Float32.prec Float32.emax (S754_finite s mx ex) (S754_finite s my ey)).
Proof.
  intros Hx Hy Hle Hlo Hhi.
  pose proof (@digits24_bounds _ Hx) as Bx. pose proof (@digits24_bounds _ Hy) as By.
  rewrite SFadd_same_sign by exact Hle.
  set (P := Zpos mx * 2 ^ (ex - ey) + Zpos my).
  assert (Hp : 0 < 2 ^ (ex - ey)) by (apply Z.pow_pos_nonneg; lia).
  assert (H1 : 1 <= 2 ^ (ex - ey)) by lia.
  assert (HP : 2 ^ (23 + (ex - ey)) <= P < 2 ^ (25 + (ex - ey))).
  { unfold P. rewrite !Z.pow_add_r by lia.
    change (2 ^ 25) with (2 * 2 ^ 24). nia. }
  assert (Hd : 23 + (ex - ey) < Zdigits2 P <= 25 + (ex - ey)).
  { apply Zdigits2_range; [lia | exact HP]. }
  assert (P0 : 0 < P) by (unfold P; nia).
  assert (EP : Zpos (Z.to_pos P) = P) by (apply Z2Pos.id; exact P0).
  rewrite binary_round_long by (rewrite EP; lia).
  rewrite EP. apply binary_round_aux_normal32; lia.
Qed.

(** The sum of two normal numbers of the same sign is normal, and not
    below the larger one. *)
Lemma SFadd_normal (s : bool) (lo hi : Z) (x y : spec_float) :
  -149 <= lo -> hi <= 102 ->
  normal32 s lo hi x -> normal32 s lo hi y ->
  normal32 s lo (hi + 2) (SFadd Float32.prec Float32.emax x y).
Proof.
  intros Hlo Hhi (mx & ex & -> & Hx & Ex) (my & ey & -> & Hy & Ey).
  destruct (Z_le_gt_dec ey ex) as [Hle | Hgt].
  - eapply normal32_weaken; [apply SFadd_normal_ordered | | ]; try eassumption; lia.
  - rewrite SFadd_finite_comm.
    eapply normal32_weaken; [apply SFadd_normal_ordered | | ]; try eassumption; lia.
Qed.

(** A number smaller by a factor of 2^25 is absorbed. *)
Lemma SFadd_absorb (s : bool) (mx my : positive) (ex ey : Z) :
  Zpos (digits2_pos mx) = 24 -> Zpos (digits2_pos my) = 24 ->
  ey + 25 <= ex -> -149 <= ey -> ex <= 104 ->
  SFadd Float32.prec Float32.emax (S754_finite s mx ex) (S754_finite s my ey) =
  S754_finite s mx ex.
Proof.
  intros Hx Hy Hle Hlo Hhi.
  pose proof (@digits24_bounds _ Hx) as Bx. pose proof (@digits24_bounds _ Hy) as By.
  rewrite SFadd_same_sign by lia.
  assert (Hp : 0 < 2 ^ (ex - ey)) by (apply Z.pow_pos_nonneg; lia).
  assert (Hq : 2 ^ 24 <= 2 ^ (ex - ey - 1)) by (apply Z.pow_le_mono_r; lia).
  assert (Hd : Zdigits2 (Zpos mx * 2 ^ (ex - ey) + Zpos my) = 24 + (ex - ey)).
  { apply Zdigits2_unique; [ | lia].
    replace (24 + (ex - ey) - 1) with (23 + (ex - ey)) by lia.
    assert (2 ^ (ex - ey) = 2 * 2 ^ (ex - ey - 1)).
    { rewrite <- Z.pow_succ_r by lia. f_equal. lia. }
    rewrite !Z.pow_add_r by lia. nia. }
  assert (EP : Zpos (Z.to_pos (Zpos mx * 2 ^ (ex - ey) + Zpos my)) =
               Zpos mx * 2 ^ (ex - ey) + Zpos my) by (apply Z2Pos.id; lia).
  rewrite binary_round_long by (rewrite EP; lia).
  rewrite EP, binary_round_aux_absorb by lia.
  change (Z.to_pos (Zpos mx)) with mx. f_equal. lia.
Qed.

(** *** Division *)

Lemma SFdiv_normal (sx sy : bool) (mx my : positive) (ex ey : Z) :
  Zpos (digits2_pos mx) = 24 -> Zpos (digits2_pos my) = 24 ->
  -125 <= ex - ey -> ex - ey <= 126 ->
  normal32 (xorb sx sy) (ex - ey - 24) (ex - ey - 22)
           (SFdiv Float32.prec Float32.emax (S754_finite sx mx ex) (S754_finite sy my ey)).
Proof.
  intros Hx Hy Hlo Hhi. cbn [SFdiv]. unfold SFdiv_core_binary.
  pose proof (@digits24_bounds _ Hx) as Bx. pose proof (@digits24_bounds _ Hy) as By.
  cbn [Zdigits2]. rewrite Hx, Hy, fexp32.
  replace (Z.min (Z.max (24 + ex - (24 + ey) - 24) (-149)) (ex - ey)) with (ex - ey - 24) by lia.
  replace (ex - ey - (ex - ey - 24)) with 24 by lia.
  rewrite Z.shiftl_mul_pow2 by lia.
  pose proof (Z_div_mod (Zpos mx * 2 ^ 24) (Zpos my) ltac:(lia)) as Hdm.
  destruct (Z.div_eucl (Zpos mx * 2 ^ 24) (Zpos my)) as [q r].
  destruct Hdm as [Hq Hr].
  assert (Bq : 2 ^ 23 <= q < 2 ^ 25).
  { change (2 ^ 25) with (2 * 2 ^ 24). split; nia. }
  assert (Hd : 23 < Zdigits2 q <= 25) by (apply Zdigits2_range; [lia | exact Bq]).
  apply binary_round_aux_normal32; lia.
Qed.

(** *** Square root *)

Lemma SFsqrt_normal (mx : positive) (ex : Z) :
  Zpos (digits2_pos mx) = 24 -> -149 <= ex <= 104 ->
  normal32 false ((ex + 25) / 2 - 24) ((ex + 25) / 2 - 23)
           (SFsqrt Float32.prec Float32.emax (S754_finite false mx ex)).
Proof.
  intros Hx He. cbn [SFsqrt]. unfold SFsqrt_core_binary.
  pose proof (@digits24_bounds _ Hx) as Bx.
  cbn [Zdigits2]. rewrite Hx, fexp32, !Z.div2_div.
  replace (24 + ex + 1) with (ex + 25) by lia.
  pose proof (Z_div_mod_eq_full (ex + 25) 2) as Hdiv.
  pose proof (Z.mod_pos_bound (ex + 25) 2 ltac:(lia)) as Hmod.
  pose proof (Z_div_mod_eq_full ex 2) as Hdiv'.
  pose proof (Z.mod_pos_bound ex 2 ltac:(lia)) as Hmod'.
  replace (Z.min (Z.max ((ex + 25) / 2 - 24) (-149)) (ex / 2))
    with ((ex + 25) / 2 - 24) by lia.
  set (e' := (ex + 25) / 2 - 24) in *.
  assert (Hs : ex - 2 * e' = 23 \/ ex - 2 * e' = 24) by lia.
  assert (Hm' : exists m', 2 ^ 46 <= m' < 2 ^ 48 /\
            match ex - 2 * e' with
            | Zpos _ => Z.shiftl (Zpos mx) (ex - 2 * e')
            | Z0 => Zpos mx
            | Zneg _ => 0
            end = m').
  { destruct Hs as [-> | ->]; eexists; (split; [ | reflexivity]);
      rewrite Z.shiftl_mul_pow2 by lia; lia. }
  destruct Hm' as (m' & Bm & ->).
  pose proof (Z.sqrtrem_spec m' ltac:(lia)) as Hsq.
  destruct (Z.sqrtrem m') as [q r].
  assert (Bq : 2 ^ 23 <= q < 2 ^ 24).
  { change (2 ^ 46) with (2 ^ 23 * 2 ^ 23) in Bm.
    change (2 ^ 48) with (2 ^ 24 * 2 ^ 24) in Bm. split; nia. }
  assert (Hd : Zdigits2 q = 24) by (apply Zdigits2_24; exact Bq).
  apply binary_round_aux_normal32; lia.
Qed.
End Magnitudes32.
(** ** The raw rows in binary32 *)

Section RawRows32.
Local Open Scope Z_scope.

Lemma clamp24_small (k : Z) : Z.abs k <= 2 ^ 24 -> clamp24 k = k.
Proof. unfold clamp24. lia. Qed.

Lemma clamp24_bound (k : Z) : Z.abs (clamp24 k) <= 2 ^ 24.
Proof. unfold clamp24. lia. Qed.

(** One step of an inner product of a 0/1 row and a -1/+1 column. *)
Lemma step_of_Z (k s b : Z) :
  Z.abs k <= 2 ^ 24 -> s = 0 \/ s = 1 -> b = -1 \/ b = 1 ->
  add (Float32.of_Z k) (mul (Float32.of_Z s) (Float32.of_Z b)) =
  Float32.of_Z (clamp24 (k + s * b)).
Proof.
  intros Hk [-> | ->] Hb.
  - rewrite Z.mul_0_l, Z.add_0_r, clamp24_small by exact Hk.
    assert (Hz : exists sg, mul (Float32.of_Z 0) (Float32.of_Z b) = S754_zero sg).
    { destruct Hb as [-> | ->]; eexists; reflexivity. }
    destruct Hz as [sg ->].
    destruct (Z.eq_dec k 0) as [-> | Hk0].
    + destruct sg; reflexivity.
    + destruct (of_Z_finite Hk0 Hk) as (a & E & _ & _ & _ & ->). reflexivity.
  - rewrite Z.mul_1_l.
    replace (mul (Float32.of_Z 1) (Float32.of_Z b)) with (Float32.of_Z b)
      by (destruct Hb as [-> | ->]; reflexivity).
    apply SFadd_of_Z; [lia | exact Hk].
Qed.

Lemma vecmat_step_of_Z (s : Z) (acc brow : list Z) :
  Forall (fun k => Z.abs k <= 2 ^ 24) acc -> s = 0 \/ s = 1 ->
  Forall (fun b => b = -1 \/ b = 1) brow ->
  map2 (fun x b => add x (mul (Float32.of_Z s) b))
       (map Float32.of_Z acc) (map Float32.of_Z brow) =
  map Float32.of_Z (map2 (fun k b => clamp24 (k + s * b)) acc brow).
Proof.
  intros Hacc Hs. revert brow. induction Hacc as [ | k acc Hk Hacc IH];
    intros brow Hb; [reflexivity | ].
  destruct Hb as [ | b brow Hb Hbrow]; [reflexivity | ].
  cbn [map map2]. rewrite IH by exact Hbrow. f_equal.
  apply step_of_Z; assumption.
Qed.

Lemma map2_clamp24_bound (s : Z) (acc brow : list Z) :
  Forall (fun k => Z.abs k <= 2 ^ 24) (map2 (fun k b => clamp24 (k + s * b)) acc brow).
Proof.
  revert brow. induction acc as [ | k acc IH]; intros [ | b brow]; cbn [map2];
    constructor; [apply clamp24_bound | apply IH].
Qed.

Lemma vecmat_fold_of_Z (l : list (Z * list Z)) (acc : list Z) :
  Forall (fun k => Z.abs k <= 2 ^ 24) acc ->
  Forall (fun p => (fst p = 0 \/ fst p = 1) /\
                   Forall (fun b => b = -1 \/ b = 1) (snd p)) l ->
  fold_left (fun acc p => map2 (fun x b => add x (mul (fst p) b)) acc (snd p))
            (map (fun p => (Float32.of_Z (fst p), map Float32.of_Z (snd p))) l)
            (map Float32.of_Z acc) =
  map Float32.of_Z
      (fold_left (fun acc p => map2 (fun k b => clamp24 (k + fst p * b)) acc (snd p))
                 l acc) /\
  Forall (fun k => Z.abs k <= 2 ^ 24)
         (fold_left (fun acc p => map2 (fun k b => clamp24 (k + fst p * b)) acc (snd p))
                    l acc).
Proof.
  intros Hacc Hl. revert acc Hacc.
  induction Hl as [ | [s brow] l [Hs Hb] Hl IH]; intros acc Hacc; cbn [fold_left map].
  - split; [reflexivity | exact Hacc].
  - cbn [fst snd] in *. rewrite vecmat_step_of_Z by assumption.
    apply IH. apply map2_clamp24_bound.
Qed.

Lemma combine_map_map {A B C D : Type} (f : A -> C) (g : B -> D)
      (a : list A) (b : list B) :
  combine (map f a) (map g b) = map (fun p => (f (fst p), g (snd p))) (combine a b).
Proof.
  revert b. induction a as [ | x a IH]; intros [ | y b]; cbn; try reflexivity.
  now rewrite IH.
Qed.

Lemma in_combine_Forall {A B : Type} (P : A -> Prop) (Q : B -> Prop)
      (a : list A) (b : list B) :
  Forall P a -> Forall Q b -> Forall (fun p => P (fst p) /\ Q (snd p)) (combine a b).
Proof.
  intros Ha. revert b. induction Ha as [ | x a Hx Ha IH]; intros b Hb; [constructor | ].
  destruct Hb as [ | y b Hy Hb]; [constructor | ].
  cbn [combine]. constructor; [split; assumption | apply IH; assumption].
Qed.

(** The inner products of a 0/1 row with -1/+1 columns, in binary32. *)
Lemma vecmat_of_Z (a : list Z) (B : list (list Z)) :
  Forall (fun s => s = 0 \/ s = 1) a ->
  Forall (Forall (fun b => b = -1 \/ b = 1)) B ->
  vecmat (map Float32.of_Z a) (map (map Float32.of_Z) B) =
  map Float32.of_Z (vecmat_int a B) /\
  Forall (fun k => Z.abs k <= 2 ^ 24) (vecmat_int a B).
Proof.
  intros Ha HB. unfold vecmat, vecmat_int.
  rewrite combine_map_map.
  assert (E : repeat zero (length (hd [] (map (map Float32.of_Z) B))) =
              map Float32.of_Z (repeat 0 (length (hd [] B)))).
  { rewrite map_repeat. destruct B as [ | b B]; [reflexivity | ].
    cbn [map hd]. now rewrite length_map. }
  rewrite E. apply vecmat_fold_of_Z.
  - apply Forall_forall. intros k Hk. apply repeat_spec in Hk. subst k. cbn. lia.
  - apply (@in_combine_Forall _ _ (fun s => s = 0 \/ s = 1)
            (Forall (fun b => b = -1 \/ b = 1))); assumption.
Qed.

Lemma in_product_01 (m : nat) (s : list Z) :
  In s (product [0; 1] m) -> Forall (fun x => x = 0 \/ x = 1) s.
Proof. intros H. now apply in_product in H. Qed.

Lemma product_signs (n : nat) :
  Forall (Forall (fun b => b = -1 \/ b = 1)) (product [-1; 1] n).
Proof. apply Forall_forall. intros v H. now apply in_product in H. Qed.

Lemma raw_rows_float32 (n : nat) :
  (1 <= n)%nat ->
  raw_rows (Sc := float32) n = map (map Float32.of_Z) (raw_rows_int n).
Proof.
  intros Hn. rewrite raw_rows_eq by lia. unfold raw_rows_int.
  rewrite map_map. apply map_ext_in. intros s Hs.
  apply vecmat_of_Z; [now apply in_product_01 in Hs | apply product_signs].
Qed.

Lemma length_vecmat_int (c : nat) (a : list Z) (B : list (list Z)) :
  B <> [] -> rect c B -> length (vecmat_int a B) = c.
Proof.
  intros HB HR. unfold vecmat_int.
  assert (Hacc : length (repeat 0 (length (hd [] B))) = c).
  { rewrite repeat_length. destruct B as [ | b B]; [easy | ].
    now apply Forall_cons_iff in HR as [? _]. }
  clear HB. revert Hacc. generalize (repeat 0 (length (hd [] B))).
  revert B HR. induction a as [ | x a IH]; intros [ | b B] HR acc Hacc;
    cbn [combine fold_left]; auto.
  apply Forall_cons_iff in HR as [Hb HR].
  apply IH; [exact HR | ]. cbn [fst snd]. rewrite length_map2. lia.
Qed.

Lemma raw_rows_int_spec (n : nat) (ks : list Z) :
  In ks (raw_rows_int n) ->
  length ks = n /\ Forall (fun k => Z.abs k <= 2 ^ 24) ks.
Proof.
  unfold raw_rows_int. intros H. apply in_map_iff in H as [s [<- Hs]]. split.
  - apply length_vecmat_int; [apply product_not_nil | apply rect_product].
  - apply vecmat_of_Z; [now apply in_product_01 in Hs | apply product_signs].
Qed.
End RawRows32.
(** ** Normalisation in binary32 *)

Section Normalize32.
Local Open Scope Z_scope.

Lemma square_of_Z (k : Z) :
  Z.abs k <= 2 ^ 24 ->
  (k = 0 -> mul (Float32.of_Z k) (Float32.of_Z k) = S754_zero false) /\
  (k <> 0 -> normal32 false (-23) 27 (mul (Float32.of_Z k) (Float32.of_Z k))).
Proof.
  intros Hk. split.
  - intros ->. reflexivity.
  - intros Hk0. destruct (of_Z_normal Hk0 Hk) as (m & e & -> & Hd & He).
    replace false with (xorb (k <? 0) (k <? 0)) by (destruct (k <? 0); reflexivity).
    eapply normal32_weaken; [apply SFmul_normal; try exact Hd; lia | lia | lia].
Qed.

Lemma sumstate_weaken (hi hi' : Z) (x : spec_float) :
  sumstate hi x -> hi <= hi' -> sumstate hi' x.
Proof.
  intros [-> | H] Hle; [now left | right].
  eapply normal32_weaken; [exact H | lia | lia].
Qed.

(** One addition of the sum of squares. *)
Lemma add_sumstate (acc t : spec_float) :
  sumstate 53 acc -> sumstate 27 t ->
  sumstate 53 (add acc t) /\
  (normal32 false (-23) 53 acc \/ normal32 false (-23) 27 t ->
   normal32 false (-23) 53 (add acc t)).
Proof.
  intros [-> | Ha] [-> | Ht].
  - split; [now left | ].
    intros [(m & e & [=] & _) | (m & e & [=] & _)].
  - assert (E : add (S754_zero false) t = t) by (destruct Ht as (m & e & -> & _); reflexivity).
    rewrite E.
    assert (H : normal32 false (-23) 53 t) by (eapply normal32_weaken; [exact Ht | lia | lia]).
    split; [now right | intros _; exact H].
  - assert (E : add acc (S754_zero false) = acc) by (destruct Ha as (m & e & -> & _); reflexivity).
    rewrite E. split; [now right | intros _; exact Ha].
  - assert (H : normal32 false (-23) 53 (add acc t)).
    { destruct Ha as (ma & ea & -> & Hda & Hea). destruct Ht as (mt & et & -> & Hdt & Het).
      change (@add spec_float float32) with (SFadd Float32.prec Float32.emax).
      destruct (Z_le_gt_dec (et + 25) ea) as [Habs | Hnear].
      - rewrite SFadd_absorb by (try assumption; lia).
        exists ma, ea. repeat split; try assumption; lia.
      - destruct (Z_le_gt_dec et ea) as [Hle | Hgt].
        + eapply normal32_weaken; [apply SFadd_normal_ordered | | ]; try eassumption; lia.
        + rewrite SFadd_finite_comm.
          eapply normal32_weaken; [apply SFadd_normal_ordered | | ]; try eassumption; lia. }
    split; [now right | intros _; exact H].
Qed.

Lemma fold_add_sumstate (l : list spec_float) (acc : spec_float) :
  sumstate 53 acc -> Forall (sumstate 27) l ->
  sumstate 53 (fold_left add l acc) /\
  (normal32 false (-23) 53 acc \/ Exists (normal32 false (-23) 27) l ->
   normal32 false (-23) 53 (fold_left add l acc)) /\
  (acc = S754_zero false -> Forall (fun t => t = S754_zero false) l ->
   fold_left add l acc = S754_zero false).
Proof.
  intros Hacc Hl. revert acc Hacc.
  induction Hl as [ | t l Ht Hl IH]; intros acc Hacc; cbn [fold_left].
  - repeat split; [exact Hacc | | auto].
    intros [H | H]; [exact H | inversion H].
  - destruct (add_sumstate Hacc Ht) as [Hs Hn].
    destruct (IH _ Hs) as (H1 & H2 & H3). repeat split; [exact H1 | | ].
    + intros [H | H].
      * apply H2. left. apply Hn. now left.
      * apply Exists_cons in H as [H | H].
        -- apply H2. left. apply Hn. now right.
        -- apply H2. right. exact H.
    + intros -> Hz. apply Forall_cons_iff in Hz as [-> Hz]. apply H3; [reflexivity | exact Hz].
Qed.

Lemma squares_sumstate (ks : list Z) :
  Forall (fun k => Z.abs k <= 2 ^ 24) ks ->
  Forall (sumstate 27) (map (fun x => mul x x) (map Float32.of_Z ks)).
Proof.
  intros H. rewrite map_map, Forall_map. eapply Forall_impl; [ | exact H].
  intros k Hk. cbn beta. destruct (@square_of_Z k Hk) as [H0 H1].
  destruct (Z.eq_dec k 0) as [E | E]; [left; auto | right; auto].
Qed.

(** The norm of a row of integers. *)
Lemma norm_int (ks : list Z) :
  Forall (fun k => Z.abs k <= 2 ^ 24) ks ->
  (Forall (fun k => k = 0) ks -> norm (map Float32.of_Z ks) = S754_zero false) /\
  (Exists (fun k => k <> 0) ks -> normal32 false (-23) 16 (norm (map Float32.of_Z ks))).
Proof.
  intros Hb. unfold norm, sum.
  assert (H0 : sumstate 53 (@zero spec_float float32)) by (left; reflexivity).
  destruct (fold_add_sumstate H0 (squares_sumstate Hb)) as (_ & Hn & Hz).
  split.
  - intros Hall. rewrite Hz; [reflexivity | reflexivity | ].
    rewrite map_map, Forall_map. eapply Forall_impl; [ | exact Hall].
    intros k ->. reflexivity.
  - intros Hex.
    assert (Hsum : normal32 false (-23) 53
              (fold_left add (map (fun x => mul x x) (map Float32.of_Z ks)) zero)).
    { apply Hn. right. rewrite map_map. apply Exists_exists.
      apply Exists_exists in Hex as [k [Hin Hk]].
      exists (mul (Float32.of_Z k) (Float32.of_Z k)). split.
      - apply in_map_iff. exists k. split; [reflexivity | exact Hin].
      - rewrite Forall_forall in Hb. now apply (@square_of_Z k (Hb k Hin)). }
    destruct Hsum as (m & e & -> & Hd & He).
    change (@sqrt spec_float float32) with (SFsqrt Float32.prec Float32.emax).
    pose proof (Z_div_mod_eq_full (e + 25) 2) as Hdiv.
    pose proof (Z.mod_pos_bound (e + 25) 2 ltac:(lia)) as Hmod.
    eapply normal32_weaken; [apply SFsqrt_normal; [exact Hd | lia] | lia | lia].
Qed.

(** A row of zeros divided by its norm. *)
Lemma normalize_int_zero (ks : list Z) :
  Forall (fun k => k = 0) ks ->
  Forall (fun x => isnan x = true) (normalize (map Float32.of_Z ks)).
Proof.
  intros Hall. unfold normalize.
  assert (Hb : Forall (fun k => Z.abs k <= 2 ^ 24) ks).
  { eapply Forall_impl; [ | exact Hall]. intros k ->. cbn. lia. }
  rewrite (proj1 (norm_int Hb) Hall), map_map, Forall_map.
  eapply Forall_impl; [ | exact Hall]. intros k ->. reflexivity.
Qed.

(** A row of integers with a non-zero entry, divided by its norm. *)
Lemma normalize_int_entries (ks : list Z) :
  Forall (fun k => Z.abs k <= 2 ^ 24) ks -> Exists (fun k => k <> 0) ks ->
  Forall (fun k =>
            (k = 0 -> div (Float32.of_Z k) (norm (map Float32.of_Z ks)) = S754_zero false) /\
            (k <> 0 -> normal32 (k <? 0) (-63) 2
                                (div (Float32.of_Z k) (norm (map Float32.of_Z ks))))) ks.
Proof.
  intros Hb Hex.
  destruct (proj2 (norm_int Hb) Hex) as (mn & en & -> & Hdn & Hen).
  eapply Forall_impl; [ | exact Hb]. intros k Hk. cbn beta. split.
  - intros ->. reflexivity.
  - intros Hk0. destruct (of_Z_normal Hk0 Hk) as (m & e & -> & Hd & He).
    change (@div spec_float float32) with (SFdiv Float32.prec Float32.emax).
    pose proof (@SFdiv_normal (k <? 0) false m mn e en Hd Hdn ltac:(lia) ltac:(lia)) as H.
    rewrite xorb_false_r in H.
    eapply normal32_weaken; [exact H | lia | lia].
Qed.

Lemma normalize_int_row32 (ks : list Z) :
  Forall (fun k => Z.abs k <= 2 ^ 24) ks -> Exists (fun k => k <> 0) ks ->
  row32 (normalize (map Float32.of_Z ks)).
Proof.
  intros Hb Hex. pose proof (normalize_int_entries Hb Hex) as HF.
  unfold normalize. rewrite map_map. split.
  - rewrite Forall_map. eapply Forall_impl; [ | exact HF].
    intros k [H0 H1]. cbn beta.
    destruct (Z.eq_dec k 0) as [E | E].
    + left. exists false. auto.
    + right. exists (k <? 0). auto.
  - apply Exists_exists in Hex as [k [Hin Hk]]. apply Exists_exists.
    exists (div (Float32.of_Z k) (norm (map Float32.of_Z ks))). split.
    + apply in_map_iff. exists k. split; [reflexivity | exact Hin].
    + rewrite Forall_forall in HF. exists (k <? 0). now apply (HF k Hin).
Qed.

Lemma entry32_not_nan (x : spec_float) : entry32 x -> isnan x = false.
Proof. intros [[s ->] | (s & m & e & -> & _)]; reflexivity. Qed.

Lemma row32_nan_free (row : list spec_float) : row32 row -> nan_free row.
Proof.
  intros [H _]. eapply Forall_impl; [ | exact H]. apply entry32_not_nan.
Qed.

Lemma row32_not_all_nan (row : list spec_float) :
  row32 row -> forallb isnan row = false.
Proof.
  intros [_ H]. apply Exists_exists in H as [x [Hin (s & m & e & -> & _)]].
  destruct (forallb isnan row) eqn:E; [ | reflexivity].
  rewrite forallb_forall in E. now specialize (E _ Hin).
Qed.

(** The rows that pass the NaN filter. *)
Lemma normalized_rows_float32 (n : nat) (q : list spec_float) :
  (1 <= n)%nat ->
  In q (normalized_rows (Sc := float32) n) <->
  exists ks, In ks (raw_rows_int n) /\ Exists (fun k => k <> 0) ks /\
             q = normalize (map Float32.of_Z ks).
Proof.
  intros Hn. unfold normalized_rows.
  rewrite filter_In, normalized_rows_with_nans_eq, raw_rows_float32 by exact Hn.
  rewrite map_map. split.
  - intros [Hin Hnan]. apply in_map_iff in Hin as [ks [<- Hks]].
    exists ks. split; [exact Hks | ]. split; [ | reflexivity].
    destruct (Forall_Exists_dec (fun k => k = 0) (fun k => Z.eq_dec k 0) ks) as [Hall | Hex].
    + exfalso. pose proof (normalize_int_zero Hall) as Hz.
      apply negb_true_iff in Hnan. unfold normalize in Hz.
      assert (E : forallb isnan (map (fun x => div x (norm (map Float32.of_Z ks)))
                                     (map Float32.of_Z ks)) = true).
      { apply forallb_forall. rewrite Forall_forall in Hz. exact Hz. }
      congruence.
    + exact Hex.
  - intros (ks & Hks & Hex & ->). split.
    + apply in_map_iff. exists ks. split; [reflexivity | exact Hks].
    + apply negb_true_iff. apply row32_not_all_nan.
      apply normalize_int_row32; [ | exact Hex].
      now apply raw_rows_int_spec in Hks.
Qed.

Lemma normalized_rows_row32 (n : nat) (q : list spec_float) :
  (1 <= n)%nat -> In q (normalized_rows (Sc := float32) n) -> row32 q.
Proof.
  intros Hn Hq. apply normalized_rows_float32 in Hq as (ks & Hks & Hex & ->);
    [ | exact Hn].
  apply normalize_int_row32; [ | exact Hex]. now apply raw_rows_int_spec in Hks.
Qed.
End Normalize32.
(** ** [torch.unique] on rows whose entries are totally ordered *)

Section RowOrderLaws.
Context {T : Type} `{Sc : Scalar T}.

(** [P] holds of the entries that [ltb] orders totally (all but NaN). *)
Variable P : T -> Prop.
Hypothesis ltb_asym :
  forall x y, P x -> P y -> ltb x y = true -> ltb y x = false.
Hypothesis ltb_cotrans :
  forall x y z, P x -> P y -> P z ->
    ltb x z = true -> ltb x y = true \/ ltb y z = true.
Hypothesis ltb_total :
  forall x y, P x -> P y -> ltb x y = false -> ltb y x = false -> eqb x y = true.
Hypothesis ltb_neq :
  forall x y, P x -> P y -> ltb x y = true -> eqb x y = false /\ eqb y x = false.

Lemma row_ltb_asym (a b : list T) :
  Forall P a -> Forall P b -> row_ltb a b = true -> row_ltb b a = false.
Proof.
  intros Ha. revert b. induction Ha as [ | x a Hx Ha IH]; intros b Hb;
    [destruct b; reflexivity | ].
  destruct Hb as [ | y b Hy Hb]; [discriminate | ]. cbn [row_ltb].
  destruct (ltb x y) eqn:Exy.
  - intros _. now rewrite (ltb_asym Hx Hy Exy).
  - destruct (ltb y x) eqn:Eyx; [discriminate | ]. now apply IH.
Qed.

Lemma row_ltb_cotrans (a b c : list T) :
  Forall P a -> Forall P b -> Forall P c ->
  length a = length b -> length b = length c ->
  row_ltb a c = true -> row_ltb a b = true \/ row_ltb b c = true.
Proof.
  intros Ha. revert b c. induction Ha as [ | x a Hx Ha IH]; intros b c Hb Hc Lab Lbc;
    [destruct c; discriminate | ].
  destruct Hb as [ | y b Hy Hb]; [discriminate | ].
  destruct Hc as [ | z c Hz Hc]; [discriminate | ].
  cbn [length] in Lab, Lbc. cbn [row_ltb].
  destruct (ltb x z) eqn:Exz.
  - intros _. destruct (ltb_cotrans Hx Hy Hz Exz) as [E | E]; rewrite E; auto.
  - destruct (ltb z x) eqn:Ezx; [discriminate | ]. intros Hac.
    destruct (ltb x y) eqn:Exy; [now left | ].
    destruct (ltb y z) eqn:Eyz; [now right | ].
    destruct (ltb y x) eqn:Eyx.
    { destruct (ltb_cotrans Hy Hz Hx Eyx); congruence. }
    destruct (ltb z y) eqn:Ezy.
    { destruct (ltb_cotrans Hz Hx Hy Ezy); congruence. }
    apply IH; try assumption; lia.
Qed.

Lemma row_ltb_total (a b : list T) :
  Forall P a -> Forall P b -> length a = length b ->
  row_ltb a b = false -> row_ltb b a = false -> row_eqb a b = true.
Proof.
  intros Ha. revert b. induction Ha as [ | x a Hx Ha IH]; intros b Hb Lab;
    [destruct b; [reflexivity | discriminate] | ].
  destruct Hb as [ | y b Hy Hb]; [discriminate | ].
  cbn [length] in Lab. cbn [row_ltb row_eqb].
  destruct (ltb x y) eqn:Exy; [discriminate | ].
  destruct (ltb y x) eqn:Eyx; [discriminate | ].
  intros H1 H2. rewrite (ltb_total Hx Hy Exy Eyx). cbn [andb].
  apply IH; try assumption; lia.
Qed.

Lemma row_ltb_neq (a b : list T) :
  Forall P a -> Forall P b ->
  row_ltb a b = true -> row_eqb a b = false /\ row_eqb b a = false.
Proof.
  intros Ha. revert b. induction Ha as [ | x a Hx Ha IH]; intros b Hb;
    [destruct b; discriminate | ].
  destruct Hb as [ | y b Hy Hb]; [discriminate | ]. cbn [row_ltb row_eqb].
  destruct (ltb x y) eqn:Exy.
  - intros _. destruct (ltb_neq Hx Hy Exy) as [-> ->]. auto.
  - destruct (ltb y x) eqn:Eyx; [discriminate | ]. intros H.
    destruct (IH b Hb H) as [-> ->]. rewrite !andb_false_r. auto.
Qed.


Lemma row_ltb_trans (n : nat) (a b c : list T) :
  rows_in P n a -> rows_in P n b -> rows_in P n c ->
  row_ltb a b = true -> row_ltb b c = true -> row_ltb a c = true.
Proof.
  intros [Pa La] [Pb Lb] [Pc Lc] Hab Hbc.
  destruct (@row_ltb_cotrans a c b Pa Pc Pb ltac:(congruence) ltac:(congruence) Hab)
    as [E | E]; [exact E | ].
  now rewrite (row_ltb_asym Pc Pb E) in Hbc.
Qed.

(** [a <= b], then [b < c]. *)
Lemma row_le_lt (n : nat) (a b c : list T) :
  rows_in P n a -> rows_in P n b -> rows_in P n c ->
  row_ltb b a = false -> row_ltb b c = true -> row_ltb a c = true.
Proof.
  intros [Pa La] [Pb Lb] [Pc Lc] Hab Hbc.
  destruct (@row_ltb_cotrans b a c Pb Pa Pc ltac:(congruence) ltac:(congruence) Hbc)
    as [E | E]; [congruence | exact E].
Qed.

Lemma row_le_trans (n : nat) (a b c : list T) :
  rows_in P n a -> rows_in P n b -> rows_in P n c ->
  row_ltb b a = false -> row_ltb c b = false -> row_ltb c a = false.
Proof.
  intros [Pa La] [Pb Lb] [Pc Lc] Hab Hbc.
  destruct (row_ltb c a) eqn:E; [ | reflexivity].
  destruct (@row_ltb_cotrans c b a Pc Pb Pa ltac:(congruence) ltac:(congruence) E);
    congruence.
Qed.

Lemma insert_row_le_sorted (n : nat) (r : list T) (l : list (list T)) :
  rows_in P n r -> Forall (rows_in P n) l ->
  StronglySorted (fun a b => row_ltb b a = false) l ->
  StronglySorted (fun a b => row_ltb b a = false) (insert_row r l).
Proof.
  intros Hr Hl Hs. induction Hs as [ | h t Hs IH Hh]; cbn [insert_row].
  - repeat constructor.
  - apply Forall_cons_iff in Hl as [Gh Gt].
    destruct (row_ltb h r) eqn:E.
    + constructor; [apply IH; exact Gt | ].
      apply Forall_forall. intros x Hx.
      apply (Permutation_in _ (insert_row_perm r t)) in Hx as [<- | Hx].
      * apply (row_ltb_asym (proj1 Gh) (proj1 Hr) E).
      * rewrite Forall_forall in Hh. now apply Hh.
    + constructor; [now constructor | ].
      constructor; [exact E | ].
      apply Forall_forall. intros x Hx.
      rewrite Forall_forall in Hh, Gt.
      apply (@row_le_trans n r h x); auto.
Qed.

Lemma sort_rows_le_sorted (n : nat) (l : list (list T)) :
  Forall (rows_in P n) l ->
  StronglySorted (fun a b => row_ltb b a = false) (sort_rows l).
Proof.
  induction 1 as [ | r l Hr Hl IH]; cbn [sort_rows fold_right]; [constructor | ].
  apply (@insert_row_le_sorted n); [exact Hr | | exact IH].
  apply Forall_forall. intros x Hx.
  apply (Permutation_in _ (sort_rows_perm l)) in Hx.
  rewrite Forall_forall in Hl. now apply Hl.
Qed.

Lemma unique_from_lt_sorted (n : nat) (l : list (list T)) (prev : list T) :
  rows_in P n prev -> Forall (rows_in P n) l ->
  StronglySorted (fun a b => row_ltb b a = false) (prev :: l) ->
  StronglySorted (fun a b => row_ltb a b = true) (unique_from prev l) /\
  Forall (fun x => row_ltb prev x = true) (unique_from prev l).
Proof.
  intros Hp Hl. revert prev Hp. induction Hl as [ | x t Hx Ht IH]; intros prev Hp Hs;
    cbn [unique_from]; [split; constructor | ].
  inversion Hs as [ | ? ? Hs' Hle]; subst.
  apply Forall_cons_iff in Hle as [Hpx Hpt].
  destruct (IH x Hx Hs') as [S1 F1].
  assert (Gu : Forall (rows_in P n) (unique_from x t)).
  { apply Forall_forall. intros y Hy. apply unique_from_incl in Hy.
    rewrite Forall_forall in Ht. now apply Ht. }
  destruct (row_eqb prev x) eqn:E.
  - split; [exact S1 | ].
    apply Forall_forall. intros y Hy.
    rewrite Forall_forall in F1, Gu.
    apply (@row_le_lt n prev x y); auto.
  - assert (Hlt : row_ltb prev x = true).
    { destruct (row_ltb prev x) eqn:E'; [reflexivity | ].
      rewrite (@row_ltb_total prev x) in E; try tauto; try discriminate.
      - apply Hp.
      - apply Hx.
      - destruct Hp, Hx. congruence. }
    split; [now constructor | ].
    constructor; [exact Hlt | ].
    apply Forall_forall. intros y Hy.
    rewrite Forall_forall in F1, Gu.
    apply (@row_ltb_trans n prev x y); auto.
Qed.

(** [torch.unique] returns the rows in strictly increasing order. *)
Lemma unique_lt_sorted (n : nat) (l : list (list T)) :
  Forall (rows_in P n) l ->
  StronglySorted (fun a b => row_ltb a b = true) (unique l).
Proof.
  intros Hl. unfold unique, unique_consecutive.
  pose proof (sort_rows_le_sorted Hl) as Hs.
  assert (Hg : Forall (rows_in P n) (sort_rows l)).
  { apply Forall_forall. intros x Hx.
    apply (Permutation_in _ (sort_rows_perm l)) in Hx.
    rewrite Forall_forall in Hl. now apply Hl. }
  destruct (sort_rows l) as [ | x t]; [constructor | ].
  apply Forall_cons_iff in Hg as [Gx Gt].
  destruct (@unique_from_lt_sorted n t x Gx Gt Hs) as [S1 F1].
  now constructor.
Qed.

(** Hence its rows are pairwise different. *)
Lemma unique_distinct (n : nat) (l : list (list T)) (i j : nat) :
  Forall (rows_in P n) l ->
  i < length (unique l) -> j < length (unique l) -> i <> j ->
  row_eqb (nth i (unique l) []) (nth j (unique l) []) = false.
Proof.
  intros Hl Hi Hj Hij.
  pose proof (unique_lt_sorted Hl) as Hs.
  assert (Hg : forall k, k < length (unique l) -> Forall P (nth k (unique l) [])).
  { intros k Hk. rewrite Forall_forall in Hl.
    apply (Hl (nth k (unique l) [])), unique_incl, nth_In, Hk. }
  destruct (Nat.lt_total i j) as [Hlt | [Heq | Hgt]]; [ | contradiction | ].
  - apply (row_ltb_neq (Hg i Hi) (Hg j Hj)).
    now apply (@StronglySorted_nth _ (fun a b => row_ltb a b = true) [] _ Hs).
  - apply (row_ltb_neq (Hg j Hj) (Hg i Hi)).
    now apply (@StronglySorted_nth _ (fun a b => row_ltb a b = true) [] _ Hs).
Qed.
End RowOrderLaws.

(** ** The order of binary32 without NaN *)

Section Float32Total.

Ltac total_cases :=
  repeat match goal with
         | |- context [Z.compare ?a ?b] => destruct (Z.compare_spec a b)
         | H : context [Z.compare ?a ?b] |- _ => destruct (Z.compare_spec a b)
         | |- context [Pos.compare_cont Eq ?a ?b] =>
             change (Pos.compare_cont Eq a b) with (Pos.compare a b)
         | H : context [Pos.compare_cont Eq ?a ?b] |- _ =>
             change (Pos.compare_cont Eq a b) with (Pos.compare a b) in H
         | |- context [Pos.compare ?a ?b] => destruct (Pos.compare_spec a b)
         | H : context [Pos.compare ?a ?b] |- _ => destruct (Pos.compare_spec a b)
         end;
  subst; simpl in *; try discriminate; try reflexivity; try lia; auto.

Lemma SFltb_cotrans (x y z : spec_float) :
  Float32.is_nan y = false ->
  SFltb x z = true -> SFltb x y = true \/ SFltb y z = true.
Proof.
  destruct x as [[]| [] | |[] m e], y as [[]|[]| |[] m' e'], z as [[]|[]| |[] m'' e''];
    unfold SFltb; simpl; try discriminate; auto;
    intros _ H; total_cases.
Qed.

Lemma SFltb_total_eqb (x y : spec_float) :
  Float32.is_nan x = false -> Float32.is_nan y = false ->
  SFltb x y = false -> SFltb y x = false -> SFeqb x y = true.
Proof.
  destruct x as [[]| [] | |[] m e], y as [[]|[]| |[] m' e'];
    unfold SFltb, SFeqb; simpl; try discriminate; auto;
    intros _ _ H1 H2; total_cases.
Qed.

Lemma SFltb_neq (x y : spec_float) :
  SFltb x y = true -> SFeqb x y = false /\ SFeqb y x = false.
Proof.
  destruct x as [[]| [] | |[] m e], y as [[]|[]| |[] m' e'];
    unfold SFltb, SFeqb; simpl; try discriminate; auto;
    intros H; total_cases.
Qed.
End Float32Total.
(** ** [fix_row_signs] and [candidate_rows] in binary32 *)

Section FixRowSigns32.
Local Open Scope Z_scope.

Lemma find_index_ext_in {A : Type} (p q : A -> bool) (l : list A) :
  Forall (fun x => p x = q x) l -> find_index p l = find_index q l.
Proof.
  induction 1 as [ | x l Hx Hl IH]; cbn [find_index]; [reflexivity | ].
  now rewrite Hx, IH.
Qed.

Lemma neb_zero_entry32 (x : spec_float) :
  entry32 x ->
  (neb x zero = false /\ exists s, x = S754_zero s) \/
  (neb x zero = true /\ nonzero32 x).
Proof.
  intros [[s ->] | H].
  - left. split; [reflexivity | eauto].
  - right. split; [ | exact H].
    destruct H as (s & m & e & -> & _). destruct s; reflexivity.
Qed.

Lemma sign_nonzero32 (s : bool) (m : positive) (e : Z) :
  sign (S754_finite s m e) = Float32.of_Z (if s then -1 else 1).
Proof. destruct s; reflexivity. Qed.

(** Multiplication of an entry by the sign of an entry. *)
Lemma mul_sign_entry32 (x : spec_float) (c : Z) :
  c = 1 \/ c = -1 -> entry32 x ->
  entry32 (mul x (Float32.of_Z c)) /\
  neb (mul x (Float32.of_Z c)) zero = neb x zero /\
  mul (mul x (Float32.of_Z c)) (mul x (Float32.of_Z c)) = mul x x /\
  (forall s m e, x = S754_finite s m e ->
     mul x (Float32.of_Z c) = S754_finite (xorb s (c <? 0)) m e).
Proof.
  intros Hc [[s ->] | (s & m & e & -> & Hd & He)].
  - assert (E : mul (S754_zero s) (Float32.of_Z c) = S754_zero (xorb s (c <? 0))).
    { destruct Hc as [-> | ->]; reflexivity. }
    rewrite E. repeat split.
    + left. eauto.
    + cbn. now rewrite !xorb_nilpotent.
    + intros ? ? ? [=].
  - change (@mul spec_float float32) with (SFmul Float32.prec Float32.emax).
    rewrite SFmul_sign by (try assumption; lia). repeat split.
    + right. exists (xorb s (c <? 0)), m, e. repeat split; try assumption; lia.
    + destruct s, (c <? 0); reflexivity.
    + cbn [SFmul]. now rewrite !xorb_nilpotent.
    + intros ? ? ? [= <- <- <-]. reflexivity.
Qed.

Lemma nth_map_in {A B : Type} (f : A -> B) (da : A) (db : B) (l : list A) (i : nat) :
  (i < length l)%nat -> nth i (map f l) db = f (nth i l da).
Proof.
  intros Hi. rewrite (nth_indep _ db (f da)) by now rewrite length_map.
  apply map_nth.
Qed.

(** The loop body of [fix_row_signs] on a candidate row. *)
Lemma fix_row_sign_row32 (row : list spec_float) :
  row32 row ->
  exists c, (c = 1 \/ c = -1) /\
    fix_row_sign row = Ok (map (fun x => mul x (Float32.of_Z c)) row) /\
    row32 (map (fun x => mul x (Float32.of_Z c)) row) /\
    sign_canonical (map (fun x => mul x (Float32.of_Z c)) row) /\
    norm (map (fun x => mul x (Float32.of_Z c)) row) = norm row.
Proof.
  intros [HF HE]. unfold fix_row_sign.
  destruct (find_index (fun x => neb x zero) row) as [i | ] eqn:Ei.
  2:{ exfalso. apply find_index_None in Ei.
      apply Exists_exists in HE as [x [Hin Hx]].
      rewrite Forall_forall in Ei, HF.
      destruct (neb_zero_entry32 (HF x Hin)) as [[_ [s ->]] | [E _]].
      - destruct Hx as (s' & m & e & [=] & _).
      - specialize (Ei x Hin). cbn beta in Ei. congruence. }
  destruct (@find_index_Some _ zero _ _ _ Ei) as (Hi & Hnz & _).
  assert (Hx : nonzero32 (nth i row zero)).
  { rewrite Forall_forall in HF.
    destruct (neb_zero_entry32 (HF _ (nth_In row zero Hi))) as [[E _] | [_ H]];
      [congruence | exact H]. }
  destruct Hx as (s & m & e & Ex & Hd & He).
  rewrite Ex, sign_nonzero32.
  set (c := if s then -1 else 1).
  assert (Hc : c = 1 \/ c = -1) by (unfold c; destruct s; auto).
  exists c. split; [exact Hc | ]. split; [reflexivity | ].
  assert (HF' : Forall (fun x => neb (mul x (Float32.of_Z c)) zero = neb x zero) row).
  { eapply Forall_impl; [ | exact HF]. intros x Hx. apply (mul_sign_entry32 Hc Hx). }
  repeat split.
  - rewrite Forall_map. eapply Forall_impl; [ | exact HF].
    intros x Hx. apply (mul_sign_entry32 Hc Hx).
  - apply Exists_exists. exists (mul (nth i row zero) (Float32.of_Z c)). split.
    + apply (in_map (fun x => mul x (Float32.of_Z c))), nth_In, Hi.
    + rewrite Ex. change (@mul spec_float float32) with (SFmul Float32.prec Float32.emax).
      rewrite SFmul_sign by (try assumption; lia).
      exists (xorb s (c <? 0)), m, e. repeat split; try assumption; lia.
  - exists i.
    rewrite find_index_map, (find_index_ext_in _ _ HF'), Ei. split; [reflexivity | ].
    rewrite (@nth_map_in _ _ (fun x => mul x (Float32.of_Z c)) zero zero row i Hi), Ex.
    change (@mul spec_float float32) with (SFmul Float32.prec Float32.emax).
    rewrite SFmul_sign by (try assumption; lia).
    unfold c. destruct s; reflexivity.
  - unfold norm. f_equal. f_equal. rewrite map_map.
    apply map_ext_in. intros x Hin. rewrite Forall_forall in HF.
    apply (mul_sign_entry32 Hc (HF x Hin)).
Qed.

Lemma row32_nonzero (row : list spec_float) :
  row32 row -> Exists (fun x => neb x zero = true) row.
Proof.
  intros [_ HE]. apply Exists_exists in HE as [x [Hin (s & m & e & -> & _)]].
  apply Exists_exists. exists (S754_finite s m e). split; [exact Hin | ].
  destruct s; reflexivity.
Qed.

(** *** A raw row that is not zero *)

Lemma fold_zero_steps (B : list (list Z)) (m : nat) (acc : list Z) :
  Forall (fun k => Z.abs k <= 2 ^ 24) acc -> rect (length acc) B ->
  fold_left (fun acc p => map2 (fun k b => clamp24 (k + fst p * b)) acc (snd p))
            (combine (repeat 0 m) B) acc = acc.
Proof.
  intros Hacc. revert m. induction B as [ | b B IH]; intros m HR.
  - destruct m; reflexivity.
  - destruct m as [ | m]; [reflexivity | ]. cbn [repeat combine fold_left fst snd].
    apply Forall_cons_iff in HR as [Hb HR].
    assert (E : map2 (fun k b0 => clamp24 (k + 0 * b0)) acc b = acc).
    { clear IH HR. revert b Hb. induction Hacc as [ | k acc Hk Hacc IHacc];
        intros b Hb; [reflexivity | ].
      destruct b as [ | y b]; [discriminate | ]. cbn [map2].
      rewrite IHacc by (cbn in Hb; lia).
      now rewrite Z.mul_0_l, Z.add_0_r, clamp24_small. }
    rewrite E. now apply IH.
Qed.

Lemma raw_rows_int_nonzero (n : nat) :
  (1 <= n)%nat ->
  exists ks, In ks (raw_rows_int n) /\ Exists (fun k => k <> 0) ks.
Proof.
  intros Hn.
  pose proof (product_not_nil (-1) 1 n) as HB.
  pose proof (rect_product (-1) 1 n) as HR.
  pose proof (product_signs n) as HS.
  destruct (product [-1; 1] n) as [ | b B] eqn:EB; [contradiction | ].
  apply Forall_cons_iff in HR as [Lb HR]. apply Forall_cons_iff in HS as [Sb _].
  assert (Hm : (1 <= 2 ^ n)%nat) by (pose proof (Nat.pow_nonzero 2 n); lia).
  exists (vecmat_int (1 :: repeat 0 (2 ^ n - 1)) (b :: B)). split.
  - unfold raw_rows_int. rewrite EB. apply in_map_iff.
    exists (1 :: repeat 0 (2 ^ n - 1)). split; [reflexivity | ].
    apply in_product. split.
    + cbn [length]. rewrite repeat_length. lia.
    + constructor; [now right | ].
      apply Forall_forall. intros x Hx. apply repeat_spec in Hx. now left.
  - unfold vecmat_int. cbn [combine fold_left fst snd hd].
    assert (E : map2 (fun k b0 => clamp24 (k + 1 * b0)) (repeat 0 (length b)) b = b).
    { clear - Sb. induction Sb as [ | y b Hy Hb IH]; [reflexivity | ].
      cbn [length repeat map2]. rewrite IH. f_equal.
      unfold clamp24. destruct Hy as [-> | ->]; reflexivity. }
    rewrite E, fold_zero_steps.
    + destruct b as [ | y b]; [cbn in Lb; lia | ].
      apply Exists_cons_hd. apply Forall_cons_iff in Sb as [[-> | ->] _]; lia.
    + eapply Forall_impl; [ | exact Sb]. intros y [-> | ->]; cbn; lia.
    + unfold rect. rewrite Lb. exact HR.
Qed.

Lemma normalized_rows_not_nil (n : nat) :
  (1 <= n)%nat -> normalized_rows (Sc := float32) n <> [].
Proof.
  intros Hn E. destruct (raw_rows_int_nonzero Hn) as (ks & Hks & Hex).
  assert (H : In (normalize (map Float32.of_Z ks)) (normalized_rows (Sc := float32) n)).
  { apply normalized_rows_float32; [exact Hn | ]. now exists ks. }
  rewrite E in H. destruct H.
Qed.

(** *** The result of [candidate_rows] *)

Lemma row32_good (n : nat) (row : list spec_float) :
  row32 row -> length row = n ->
  Forall (fun x => Float32.is_nan x = false) row /\ length row = n.
Proof. intros H L. split; [apply (row32_nan_free H) | exact L]. Qed.

Lemma unique_normalized_rows_row32 (n : nat) (u : list spec_float) :
  (1 <= n)%nat -> In u (unique_normalized_rows (Sc := float32) n) ->
  row32 u /\ length u = n.
Proof.
  intros Hn Hu. apply unique_incl in Hu. split.
  - now apply (@normalized_rows_row32 n).
  - pose proof (@rect_normalized_rows _ float32 n Hn) as HR.
    unfold rect in HR. rewrite Forall_forall in HR. now apply HR.
Qed.

Lemma candidate_rows_float32 (n : nat) :
  (1 <= n)%nat ->
  exists l,
    candidate_rows (Sc := float32) n = Ok (unique l) /\
    Forall2 (fun row row' => fix_row_sign row = Ok row')
            (unique_normalized_rows (Sc := float32) n) l /\
    Forall (fun r => row32 r /\ sign_canonical r /\ length r = n) l.
Proof.
  intros Hn.
  assert (HU : Forall (Exists (fun x => neb x zero = true))
                      (unique_normalized_rows (Sc := float32) n)).
  { apply Forall_forall. intros u Hu. apply row32_nonzero.
    now apply (@unique_normalized_rows_row32 n). }
  destruct (mapM_fix_row_sign_nonzero_rows HU) as (l & El & Fl).
  assert (Hne : unique_normalized_rows (Sc := float32) n <> []).
  { apply unique_not_nil, normalized_rows_not_nil, Hn. }
  exists l. split; [ | split; [exact Fl | ]].
  - unfold candidate_rows, fix_row_signs. rewrite El. cbn [bind].
    destruct l as [ | r l]; [ | reflexivity].
    inversion Fl as [E | ]. now rewrite <- E in Hne.
  - apply Forall_forall. intros r Hr.
    destruct (@Forall2_in_right _ _ _ _ _ r Fl Hr) as (u & Hu & Eu).
    destruct (@unique_normalized_rows_row32 n u Hn Hu) as [Ru Lu].
    destruct (fix_row_sign_row32 Ru) as (c & _ & Ec & R' & S' & _).
    rewrite Ec in Eu. injection Eu as <-.
    split; [exact R' | split; [exact S' | ]]. now rewrite length_map.
Qed.
End FixRowSigns32.
(** ** The statements about [candidate_rows] in binary32, for every [n] *)

Section CandidateRowsBinary32All.
Local Open Scope Z_scope.



Lemma fix_row_signs_safe_binary32 (n : nat) :
  (1 <= n)%nat -> fix_row_signs_safe (Sc := float32) n.
Proof.
  intros Hn. split.
  - intros row Hrow. destruct (@unique_normalized_rows_row32 n row Hn Hrow) as [Hr _].
    split.
    + apply Exists_exists. apply row32_nonzero. exact Hr.
    + destruct (fix_row_sign_row32 Hr) as (c & _ & E & _). eauto.
  - destruct (candidate_rows_float32 Hn) as (l & El & _). eauto.
Qed.

(** Two rows in sign-canonical form are not opposite. *)
Lemma sign_canonical_cons (x : spec_float) (a : list spec_float) :
  sign_canonical (x :: a) ->
  (neb x zero = true /\ gtb x zero = true) \/
  (neb x zero = false /\ sign_canonical a).
Proof.
  intros (k & Ek & Hk). cbn [find_index] in Ek.
  destruct (neb x zero) eqn:E.
  - injection Ek as <-. now left.
  - right. split; [reflexivity | ].
    destruct (find_index (fun x => neb x zero) a) as [k' | ] eqn:Ea; [ | discriminate].
    injection Ek as <-. now exists k'.
Qed.

Lemma canonical_not_opposite (a b : list spec_float) :
  Forall entry32 a -> Forall entry32 b ->
  sign_canonical a -> sign_canonical b ->
  row_eqb a (map neg b) = false.
Proof.
  intros Ha. revert b. induction Ha as [ | x a Hx Ha IH]; intros b Hb Sa Sb.
  - destruct Sa as (k & Ek & _). discriminate.
  - destruct Hb as [ | y b Hy Hb]; [reflexivity | ]. cbn [map row_eqb].
    apply sign_canonical_cons in Sa, Sb.
    destruct Hx as [[sx ->] | (sx & mx & ex & -> & _)];
      destruct Hy as [[sy ->] | (sy & my & ey & -> & _)].
    + destruct Sa as [[Sa _] | [_ Sa]]; [discriminate | ].
      destruct Sb as [[Sb _] | [_ Sb]]; [discriminate | ].
      rewrite (IH b Hb Sa Sb). apply andb_false_r.
    + destruct sy; reflexivity.
    + destruct sx; reflexivity.
    + destruct Sa as [[_ Sa] | [Sa _]]; [ | destruct sx; discriminate].
      destruct Sb as [[_ Sb] | [Sb _]]; [ | destruct sy; discriminate].
      destruct sx; [discriminate | ]. destruct sy; [discriminate | ]. reflexivity.
Qed.

Lemma canonical_result_binary32 (n : nat) :
  (1 <= n)%nat -> canonical_result (Sc := float32) n.
Proof.
  intros Hn rows E. destruct (candidate_rows_float32 Hn) as (l & El & _ & Hl).
  rewrite El in E. injection E as <-.
  assert (Hg : Forall (fun r => Forall (fun x => Float32.is_nan x = false) r /\
                                length r = n) l).
  { eapply Forall_impl; [ | exact Hl]. intros r (Hr & _ & Lr).
    now apply row32_good. }
  assert (Hu : forall k, (k < length (unique l))%nat ->
                 row32 (nth k (unique l) []) /\ sign_canonical (nth k (unique l) [])).
  { intros k Hk. rewrite Forall_forall in Hl.
    destruct (Hl (nth k (unique l) [])) as (H1 & H2 & _); [ | now split].
    apply unique_incl, nth_In, Hk. }
  split.
  - intros i j Hi Hj Hij. split.
    + apply (@unique_distinct spec_float float32 (fun x => Float32.is_nan x = false))
        with (n := n); try assumption.
      * intros x y _ _. apply SFltb_asym_all.
      * intros x y z _ Hy _. now apply SFltb_cotrans.
      * intros x y. apply SFltb_total_eqb.
      * intros x y _ _. apply SFltb_neq.
    + destruct (Hu i Hi) as [[Fi _] Si]. destruct (Hu j Hj) as [[Fj _] Sj].
      now apply canonical_not_opposite.
  - apply Forall_forall. intros r Hr. apply unique_incl in Hr.
    rewrite Forall_forall in Hl. now apply Hl.
Qed.
End CandidateRowsBinary32All.
(** ** The norm of the candidate rows in binary32 *)

Section UnitNorm32.
Local Open Scope Z_scope.

(** *** The entries of the raw rows are small for small [n] *)







(** *** The norm does not depend on the signs of the integers *)








(** *** Evaluation on the rows of small integers *)





End UnitNorm32.
(** ** Lower bounds on sums and quotients in binary32 *)

Section Lower32.
Local Open Scope Z_scope.









(** *** Sums of terms of one sign *)

End Lower32.
(** ** The entries of [matmul] and the columns of the evaluation matrix *)

Section DotProducts.
Context {T : Type} `{Sc : Scalar T}.






End DotProducts.
(** ** The objective of candidate rows in binary32 *)

Section BetaPositive32.
Local Open Scope Z_scope.

(** *** No NaN in a product with sign vectors *)







(** *** The column that matches the signs of a row *)






(** *** The maximum over the rows *)






(** *** The sum over the columns *)





(** *** The mean *)




(** *** The objective *)

End BetaPositive32.
(** * The candidate rows: claims C3, C4, C6 and C10 *)



(** C4.  For every n >= 1, the rows returned by [candidate_rows n] are
    pairwise distinct, no row is the negation of another one, and the first
    non-zero coordinate of every row is positive: in exact arithmetic and
    in binary32, for every n. *)
Theorem candidate_rows_sign_canonical (n : nat) :
  1 <= n ->
  canonical_result (Sc := xreal_scalar) n /\
  canonical_result (Sc := float32) n.
Proof.
  intros Hn. split.
  - now apply canonical_result_exact.
  - now apply canonical_result_binary32.
Qed.

Lemma candidate_rows_sign_canonical_witness :
  1 <= 4 /\ canonical_result (Sc := xreal_scalar) 4 /\
  canonical_result (Sc := float32) 4.
Proof.
  assert (H : 1 <= 4) by lia. split; [exact H|].
  exact (candidate_rows_sign_canonical H).
Defined.



(** C10.  The lookup of the first non-zero index in [fix_row_signs]
    raises on a row of zeros.  For every n >= 1, every row passed to
    [fix_row_signs] inside [candidate_rows n] has a non-zero coordinate, so
    the lookup succeeds on it, and [candidate_rows n] returns normally: in
    exact arithmetic and in binary32, for every n. *)
Theorem candidate_rows_returns (n : nat) :
  1 <= n ->
  (forall (T : Type) (Sc : Scalar T) (row : list T),
     Forall (fun x => eqb x zero = true) row ->
     fix_row_sign row = Raise IndexError) /\
  fix_row_signs_safe (Sc := xreal_scalar) n /\
  fix_row_signs_safe (Sc := float32) n.
Proof.
  intros Hn. split; [|split].
  - intros T Sc row. apply fix_row_sign_zero_row.
  - now apply fix_row_signs_safe_exact.
  - now apply fix_row_signs_safe_binary32.
Qed.

Lemma candidate_rows_returns_witness :
  1 <= 4 /\ fix_row_signs_safe (Sc := xreal_scalar) 4 /\
  fix_row_signs_safe (Sc := float32) 4.
Proof.
  assert (H : 1 <= 4) by lia. split; [exact H|].
  exact (proj2 (candidate_rows_returns H)).
Defined.
(** * The search loop: claim C1 *)

Section SearchBinary32All.



End SearchBinary32All.


